(** * niu: byte-cost driven JavaScript post-minifier

    A shallow embedding of the profit calculator, the global hoister, the
    duplicate-literal hoister and the identifier mangler, with the properties
    the specification states about them.

    Conventions of the embedding:
    - a JavaScript string is its sequence of UTF-16 code units ([jsstring]);
    - a JavaScript number that only ever holds an integer or [-Infinity] is
      [Z], or [jsnum] where [-Infinity] can occur;
    - a [Set<string>] that is only queried for membership is a [gset]; a [Map]
      that is iterated is an association list in insertion order;
    - what Babel computes (scope analysis, the traversal order, node paths) is
      input data of the passes. *)

From Stdlib Require Import ZArith NArith List Lia Bool String Ascii Arith Sorting.
From Equations Require Import Equations.
From stdpp Require Import base decidable countable list gmap.
Import ListNotations.

#[local] Set Warnings "-register-all".

(** ** JavaScript strings and numbers *)

Module JS.

Definition jsstring := list N.

(** A string literal of the source text, as code units. *)
Definition js (s : string) : jsstring := map N_of_ascii (list_ascii_of_string s).

Definition isHighSurrogate (c : N) : bool := ((0xD800 <=? c) && (c <=? 0xDBFF))%N.
Definition isLowSurrogate (c : N) : bool := ((0xDC00 <=? c) && (c <=? 0xDFFF))%N.

(** The string iterator ([for (const c of s)]): one string per code point, a
    surrogate pair staying together. *)
Fixpoint codePoints (s : jsstring) : list jsstring :=
  match s with
  | [] => []
  | hi :: rest =>
      match rest with
      | lo :: rest' =>
          if isHighSurrogate hi && isLowSurrogate lo
          then [hi; lo] :: codePoints rest'
          else [hi] :: codePoints rest
      | [] => [[hi]]
      end
  end.

Definition hexDigit (d : N) : N :=
  (if d <? 10 then 48 + d else 87 + d)%N.

(** [\uXXXX] with lower-case hexadecimal digits. *)
Definition unicodeEscape (c : N) : jsstring :=
  [92%N; 117%N;
   hexDigit ((c / 4096) mod 16); hexDigit ((c / 256) mod 16);
   hexDigit ((c / 16) mod 16); hexDigit (c mod 16)].

(** QuoteJSONString of ECMAScript, on one code point given as its units. *)
Definition quoteCodePoint (p : jsstring) : jsstring :=
  match p with
  | [c] =>
      if (c =? 8)%N then js "\b"
      else if (c =? 9)%N then js "\t"
      else if (c =? 10)%N then js "\n"
      else if (c =? 12)%N then js "\f"
      else if (c =? 13)%N then js "\r"
      else if (c =? 34)%N then [92%N; 34%N]
      else if (c =? 92)%N then [92%N; 92%N]
      else if (c <? 32)%N || isHighSurrogate c || isLowSurrogate c
           then unicodeEscape c
      else [c]
  | _ => p
  end.

Definition JSON_stringify (value : jsstring) : jsstring :=
  [34%N] ++ flat_map quoteCodePoint (codePoints value) ++ [34%N].


Definition notSurrogate (c : N) : Prop :=
  isHighSurrogate c = false /\ isLowSurrogate c = false.

(** [set.has(x)] on a [Set<string>] *)
Definition has (s : gset jsstring) (x : jsstring) : bool := bool_decide (x ∈ s).

(** [s.length] *)
Definition strlen (s : jsstring) : Z := Z.of_nat (length s).

(** [a.join(d)] *)
Fixpoint join (d : jsstring) (l : list jsstring) : jsstring :=
  match l with
  | [] => []
  | [s] => s
  | s :: rest => s ++ d ++ join d rest
  end.

(** [s.startsWith(p)] *)
Fixpoint startsWith (p s : jsstring) : bool :=
  match p, s with
  | [], _ => true
  | a :: p', b :: s' => (a =? b)%N && startsWith p' s'
  | _ :: _, [] => false
  end.

(** [s.includes(p)] *)
Fixpoint includes (p s : jsstring) : bool :=
  startsWith p s ||
  match s with
  | [] => false
  | _ :: s' => includes p s'
  end.

(** A number that is an integer or [-Infinity]. *)
Inductive jsnum :=
| NegInfinity
| Num (z : Z).

Definition num_gt (a : jsnum) (b : Z) : bool :=
  match a with
  | NegInfinity => false
  | Num z => (z >? b)%Z
  end.

Definition num_le (a : jsnum) (b : Z) : bool :=
  match a with
  | NegInfinity => true
  | Num z => (z <=? b)%Z
  end.

Definition num_sub (a : jsnum) (b : Z) : jsnum :=
  match a with
  | NegInfinity => NegInfinity
  | Num z => Num (z - b)
  end.

(** [String(i)] for a non-negative integer: its decimal digits. *)
Fixpoint decimal_go (fuel n : nat) (acc : jsstring) : jsstring :=
  match fuel with
  | O => acc
  | S fuel' =>
      let acc' := N.of_nat (48 + n mod 10) :: acc in
      if (n <? 10)%nat then acc' else decimal_go fuel' (n / 10) acc'
  end.

Definition String_of_nat (n : nat) : jsstring := decimal_go (S n) n [].

Definition isDigit (c : N) : Prop := (48 <= c <= 57)%N.


(** The number a string of decimal digits writes. *)
Definition digitsValue (s : jsstring) : nat :=
  fold_left (fun a c => 10 * a + (N.to_nat c - 48)) s 0.

(** [s.split(separator)] with a string separator and no limit: the pieces
    between the occurrences of the separator, found from left to right; an
    empty separator gives the code units. [skip] counts the code units of a
    separator just found that are still to be passed over. *)
Fixpoint splitFrom (separator : jsstring) (skip : nat) (s current : jsstring)
    : list jsstring :=
  match s with
  | [] => [current]
  | c :: s' =>
      match skip with
      | S skip' => splitFrom separator skip' s' current
      | O =>
          if startsWith separator s
          then current :: splitFrom separator (length separator - 1) s' []
          else splitFrom separator 0 s' (current ++ [c])
      end
  end.

Definition String_split (s separator : jsstring) : list jsstring :=
  match separator with
  | [] => map (fun c => [c]) s
  | _ :: _ => splitFrom separator 0 s []
  end.

End JS.
Export JS.

(** ** utils/profitCalculator *)

Module ProfitCalculator.

Local Open Scope Z_scope.

(** [LiteralType] and [LiteralValue] of types.ts as one tagged value. *)
Inductive LiteralValue :=
| VString (s : jsstring)
| VNumber (text : jsstring)
| VBoolean (b : bool)
| VNull
| VUndefined
| VBigint (text : jsstring).

Record UsageCounts := {
  literalCount : Z;
  propertyAccessCount : Z;
  objectPropertyCount : Z
}.

Record SelectiveProfit := {
  profit : jsnum;
  hoistLiterals : bool;
  hoistPropertyAccess : bool;
  hoistObjectProperties : bool
}.

Definition getLiteralRepresentationLength (value : LiteralValue) : Z :=
  match value with
  | VString s => strlen (JSON_stringify s)
  | VNumber text => strlen text
  | VBoolean b => if b then 4 else 5
  | VNull => 4
  | VUndefined => 9
  | VBigint text => strlen text + 1
  end.

Definition getDeclarationCost (valueReprLength identifierLength : Z) (isFirst : bool) : Z :=
  if isFirst then 6 + identifierLength + 1 + valueReprLength
  else 1 + identifierLength + 1 + valueReprLength.

Definition calculateLiteralProfit
    (occurrences literalReprLength identifierLength : Z) (isFirst : bool) : Z :=
  let originalCost := occurrences * literalReprLength in
  let declarationCost := getDeclarationCost literalReprLength identifierLength isFirst in
  let referenceCost := occurrences * identifierLength in
  let newCost := declarationCost + referenceCost in
  originalCost - newCost.

Definition calculateGlobalProfit
    (occurrences globalNameLength identifierLength : Z) (isFirst : bool) : jsnum :=
  if occurrences <? 2 then NegInfinity
  else
    let originalCost := occurrences * globalNameLength in
    let declarationCost := getDeclarationCost globalNameLength identifierLength isFirst in
    let referenceCost := occurrences * identifierLength in
    let newCost := declarationCost + referenceCost in
    Num (originalCost - newCost).

Definition isPropertyAccessProfitable (propertyName : jsstring) (identifierLength : Z) : bool :=
  strlen propertyName >? 1 + identifierLength.

Definition isObjectPropertyProfitable (propertyName : jsstring) (identifierLength : Z) : bool :=
  strlen propertyName >? 2 + identifierLength.

Definition calculateSelectiveStringProfit
    (usage : UsageCounts) (value : jsstring) (identifierLength : Z) (isFirst : bool)
    : SelectiveProfit :=
  let literalCount := literalCount usage in
  let propertyAccessCount := propertyAccessCount usage in
  let objectPropertyCount := objectPropertyCount usage in
  let stringReprLength := strlen (JSON_stringify value) in
  let propertyAccessProfitablePerOccurrence := isPropertyAccessProfitable value identifierLength in
  let objectPropertyProfitablePerOccurrence := isObjectPropertyProfitable value identifierLength in
  let effectiveLiteralCount := literalCount in
  let effectivePropertyAccessCount :=
    if propertyAccessProfitablePerOccurrence then propertyAccessCount else 0 in
  let effectiveObjectPropertyCount :=
    if objectPropertyProfitablePerOccurrence then objectPropertyCount else 0 in
  let effectiveTotal :=
    effectiveLiteralCount + effectivePropertyAccessCount + effectiveObjectPropertyCount in
  if effectiveTotal <? 2 then
    {| profit := NegInfinity;
       hoistLiterals := false;
       hoistPropertyAccess := false;
       hoistObjectProperties := false |}
  else
    let originalCost := 0 in
    let originalCost := originalCost + effectiveLiteralCount * stringReprLength in
    let originalCost :=
      if propertyAccessProfitablePerOccurrence
      then originalCost + propertyAccessCount * (1 + strlen value)
      else originalCost in
    let originalCost :=
      if objectPropertyProfitablePerOccurrence
      then originalCost + objectPropertyCount * strlen value
      else originalCost in
    let declarationCost := getDeclarationCost stringReprLength identifierLength isFirst in
    let newCost := declarationCost in
    let newCost := newCost + effectiveLiteralCount * identifierLength in
    let newCost :=
      if propertyAccessProfitablePerOccurrence
      then newCost + propertyAccessCount * (2 + identifierLength)
      else newCost in
    let newCost :=
      if objectPropertyProfitablePerOccurrence
      then newCost + objectPropertyCount * (2 + identifierLength)
      else newCost in
    let profit := originalCost - newCost in
    {| profit := Num profit;
       hoistLiterals := effectiveLiteralCount >? 0;
       hoistPropertyAccess := propertyAccessProfitablePerOccurrence && (propertyAccessCount >? 0);
       hoistObjectProperties := objectPropertyProfitablePerOccurrence && (objectPropertyCount >? 0) |}.




Definition isProfitable (profit : jsnum) : bool := num_gt profit 0.


End ProfitCalculator.

(** ** The Babel AST (the fragment the passes are followed on)

    A numeric or bigint literal carries the text [String(value)] of its value. *)

Module Ast.

Inductive Expression :=
| Identifier (name : jsstring)
| StringLiteral (value : jsstring)
| NumericLiteral (value : jsstring)
| BooleanLiteral (value : bool)
| NullLiteral
| BigIntLiteral (value : jsstring)
| ThisExpression
| MemberExpression (object property : Expression) (computed : bool)
| UnaryExpression (operator : jsstring) (argument : Expression)
| BinaryExpression (operator : jsstring) (left right : Expression)
| LogicalExpression (operator : jsstring) (left right : Expression)
| AssignmentExpression (operator : jsstring) (left right : Expression)
| CallExpression (callee : Expression) (arguments : list Expression)
| ArrayPattern (elements : list Expression).

Record VariableDeclarator := variableDeclarator {
  id : Expression;
  init : option Expression
}.

Inductive Statement :=
| ExpressionStatement (expression : Expression)
| VariableDeclaration (kind : jsstring) (declarations : list VariableDeclarator)
| ReturnStatement (argument : option Expression)
| IfStatement (test : Expression) (consequent : Statement) (alternate : option Statement)
| BlockStatement (body : list Statement)
| FunctionDeclaration (id : Expression) (params : list Expression) (body : list Statement).

(** The parsed file: the program body, and the keys of the program scope's
    [globals] record as Babel's scope analysis filled it. *)
Record File := {
  program : list Statement;
  globals : list jsstring
}.

(** The key under which a node hangs in its parent, as far as the visitors
    look at it ([parent.object === path.node] holds exactly for [KObject],
    [parent.argument === path.node] for [KArgument]). *)
Inductive Key := KObject | KProperty | KArgument | KOther.

(** The path of an Identifier node: its name, its parent when that is an
    expression, its key, and its position among the Identifier nodes in
    traversal order (the identity of the path). *)
Record IdentifierPath := {
  pname : jsstring;
  parent : option Expression;
  key : Key;
  position : nat
}.

Definition visitOption {A B} (f : A -> list B) (o : option A) : list B :=
  match o with
  | Some a => f a
  | None => []
  end.

(** Identifier nodes in the order [traverse] enters them, without positions. *)
Fixpoint identifiersOfExpression (parent : option Expression) (key : Key)
    (e : Expression) : list (jsstring * option Expression * Key) :=
  match e with
  | Identifier name => [(name, parent, key)]
  | StringLiteral _ | NumericLiteral _ | BooleanLiteral _ | NullLiteral
  | BigIntLiteral _ | ThisExpression => []
  | MemberExpression object property _ =>
      identifiersOfExpression (Some e) KObject object
      ++ identifiersOfExpression (Some e) KProperty property
  | UnaryExpression _ argument => identifiersOfExpression (Some e) KArgument argument
  | BinaryExpression _ lhs rhs
  | LogicalExpression _ lhs rhs
  | AssignmentExpression _ lhs rhs =>
      identifiersOfExpression (Some e) KOther lhs
      ++ identifiersOfExpression (Some e) KOther rhs
  | CallExpression callee arguments =>
      identifiersOfExpression (Some e) KOther callee
      ++ flat_map (identifiersOfExpression (Some e) KOther) arguments
  | ArrayPattern elements =>
      flat_map (identifiersOfExpression (Some e) KOther) elements
  end.

Definition identifiersOfDeclarator (d : VariableDeclarator)
    : list (jsstring * option Expression * Key) :=
  identifiersOfExpression None KOther (id d)
  ++ visitOption (identifiersOfExpression None KOther) (init d).

Fixpoint identifiersOfStatement (s : Statement)
    : list (jsstring * option Expression * Key) :=
  match s with
  | ExpressionStatement e => identifiersOfExpression None KOther e
  | VariableDeclaration _ declarations => flat_map identifiersOfDeclarator declarations
  | ReturnStatement argument => visitOption (identifiersOfExpression None KOther) argument
  | IfStatement test consequent alternate =>
      identifiersOfExpression None KOther test
      ++ identifiersOfStatement consequent
      ++ match alternate with
         | Some a => identifiersOfStatement a
         | None => []
         end
  | BlockStatement body => flat_map identifiersOfStatement body
  | FunctionDeclaration id params body =>
      identifiersOfExpression None KOther id
      ++ flat_map (identifiersOfExpression None KOther) params
      ++ flat_map identifiersOfStatement body
  end.

Fixpoint number {A B} (f : A -> nat -> B) (l : list A) (i : nat) : list B :=
  match l with
  | [] => []
  | a :: l' => f a i :: number f l' (S i)
  end.

(** [traverse(ast, { Identifier(path) {...} })]: the paths it visits. *)
Definition identifierPaths (body : list Statement) : list IdentifierPath :=
  number
    (fun '(name, parent, key) i =>
       {| pname := name; parent := parent; key := key; position := i |})
    (flat_map identifiersOfStatement body) 0.

(** [path.replaceWith(t.identifier(...))] for a set of paths at once: [subst]
    gives the new name of the Identifier at a position, and the position is
    counted along the same traversal order. *)
Fixpoint replaceInExpression (subst : nat -> option jsstring) (e : Expression)
    (next : nat) : Expression * nat :=
  let replaceList :=
    fix replaceList (l : list Expression) (next : nat) : list Expression * nat :=
      match l with
      | [] => ([], next)
      | a :: l' =>
          let '(a', n1) := replaceInExpression subst a next in
          let '(l'', n2) := replaceList l' n1 in
          (a' :: l'', n2)
      end in
  match e with
  | Identifier name =>
      (match subst next with
       | Some name' => Identifier name'
       | None => e
       end, S next)
  | StringLiteral _ | NumericLiteral _ | BooleanLiteral _ | NullLiteral
  | BigIntLiteral _ | ThisExpression => (e, next)
  | MemberExpression object property computed =>
      let '(object', n1) := replaceInExpression subst object next in
      let '(property', n2) := replaceInExpression subst property n1 in
      (MemberExpression object' property' computed, n2)
  | UnaryExpression operator argument =>
      let '(argument', n1) := replaceInExpression subst argument next in
      (UnaryExpression operator argument', n1)
  | BinaryExpression operator lhs rhs =>
      let '(left', n1) := replaceInExpression subst lhs next in
      let '(right', n2) := replaceInExpression subst rhs n1 in
      (BinaryExpression operator left' right', n2)
  | LogicalExpression operator lhs rhs =>
      let '(left', n1) := replaceInExpression subst lhs next in
      let '(right', n2) := replaceInExpression subst rhs n1 in
      (LogicalExpression operator left' right', n2)
  | AssignmentExpression operator lhs rhs =>
      let '(left', n1) := replaceInExpression subst lhs next in
      let '(right', n2) := replaceInExpression subst rhs n1 in
      (AssignmentExpression operator left' right', n2)
  | CallExpression callee arguments =>
      let '(callee', n1) := replaceInExpression subst callee next in
      let '(arguments', n2) := replaceList arguments n1 in
      (CallExpression callee' arguments', n2)
  | ArrayPattern elements =>
      let '(elements', n1) := replaceList elements next in
      (ArrayPattern elements', n1)
  end.

Fixpoint replaceInList {A} (f : A -> nat -> A * nat) (l : list A) (next : nat)
    : list A * nat :=
  match l with
  | [] => ([], next)
  | a :: l' =>
      let '(a', n1) := f a next in
      let '(l'', n2) := replaceInList f l' n1 in
      (a' :: l'', n2)
  end.

Definition replaceInOption {A} (f : A -> nat -> A * nat) (o : option A) (next : nat)
    : option A * nat :=
  match o with
  | Some a => let '(a', n1) := f a next in (Some a', n1)
  | None => (None, next)
  end.

Definition replaceInDeclarator (subst : nat -> option jsstring) (d : VariableDeclarator)
    (next : nat) : VariableDeclarator * nat :=
  let '(id', n1) := replaceInExpression subst (id d) next in
  let '(init', n2) := replaceInOption (replaceInExpression subst) (init d) n1 in
  (variableDeclarator id' init', n2).

Fixpoint replaceInStatement (subst : nat -> option jsstring) (s : Statement)
    (next : nat) : Statement * nat :=
  let replaceBody :=
    fix replaceBody (l : list Statement) (next : nat) : list Statement * nat :=
      match l with
      | [] => ([], next)
      | a :: l' =>
          let '(a', n1) := replaceInStatement subst a next in
          let '(l'', n2) := replaceBody l' n1 in
          (a' :: l'', n2)
      end in
  match s with
  | ExpressionStatement e =>
      let '(e', n1) := replaceInExpression subst e next in
      (ExpressionStatement e', n1)
  | VariableDeclaration kind declarations =>
      let '(declarations', n1) :=
        replaceInList (replaceInDeclarator subst) declarations next in
      (VariableDeclaration kind declarations', n1)
  | ReturnStatement argument =>
      let '(argument', n1) :=
        replaceInOption (replaceInExpression subst) argument next in
      (ReturnStatement argument', n1)
  | IfStatement test consequent alternate =>
      let '(test', n1) := replaceInExpression subst test next in
      let '(consequent', n2) := replaceInStatement subst consequent n1 in
      let '(alternate', n3) :=
        match alternate with
        | Some a => let '(a', n) := replaceInStatement subst a n2 in (Some a', n)
        | None => (None, n2)
        end in
      (IfStatement test' consequent' alternate', n3)
  | BlockStatement body =>
      let '(body', n1) := replaceBody body next in
      (BlockStatement body', n1)
  | FunctionDeclaration id params body =>
      let '(id', n1) := replaceInExpression subst id next in
      let '(params', n2) := replaceInList (replaceInExpression subst) params n1 in
      let '(body', n3) := replaceBody body n2 in
      (FunctionDeclaration id' params' body', n3)
  end.

Definition replaceIdentifiers (subst : nat -> option jsstring) (body : list Statement)
    : list Statement :=
  fst (replaceInList (replaceInStatement subst) body 0).

(** [Array.prototype.sort] with a comparator: a stable sort. [cmp a b <= 0]
    keeps [a] before [b]. *)
Fixpoint sortInsert {A} (cmp : A -> A -> Z) (x : A) (l : list A) : list A :=
  match l with
  | [] => [x]
  | y :: l' => if (cmp x y <=? 0)%Z then x :: y :: l' else y :: sortInsert cmp x l'
  end.

Definition sort {A} (cmp : A -> A -> Z) (l : list A) : list A :=
  fold_right (sortInsert cmp) [] l.

(** The comparator of every sort of the passes, [(a, b) => b.n - a.n]:
    descending by a count. *)
Definition descending {A} (key : A -> Z) (a b : A) : Z := (key b - key a)%Z.

(** What a visitor reads of the parent of an Identifier: whether it is a
    member expression (and its [computed] flag), a unary expression (and its
    operator), another expression, or no expression at all. *)
Inductive ParentKind :=
| PNone
| PMember (computed : bool)
| PUnary (operator : jsstring)
| POther.

Definition parentKind (parent : option Expression) : ParentKind :=
  match parent with
  | None => PNone
  | Some (MemberExpression _ _ computed) => PMember computed
  | Some (UnaryExpression operator _) => PUnary operator
  | Some _ => POther
  end.

(** The kinds of the VariableDeclaration nodes of a statement, in the order
    [traverse] enters them. *)
Fixpoint declarationKinds (s : Statement) : list jsstring :=
  match s with
  | VariableDeclaration kind _ => [kind]
  | IfStatement _ consequent alternate =>
      declarationKinds consequent
      ++ match alternate with
         | Some a => declarationKinds a
         | None => []
         end
  | BlockStatement body => flat_map declarationKinds body
  | FunctionDeclaration _ _ body => flat_map declarationKinds body
  | ExpressionStatement _ | ReturnStatement _ => []
  end.

(** The name, parent kind and key of an Identifier as a visitor sees it. *)
Definition view (x : jsstring * option Expression * Key) : jsstring * ParentKind * Key :=
  let '(name, parent, key) := x in (name, parentKind parent, key).

(** The same after [subst] has replaced the Identifier at position [i]. *)
Definition renamedView (subst : nat -> option jsstring)
    (x : jsstring * option Expression * Key) (i : nat) : jsstring * ParentKind * Key :=
  let '(name, parent, key) := x in (default name (subst i), parentKind parent, key).

Fixpoint sumZ {A} (f : A -> Z) (l : list A) : Z :=
  match l with
  | [] => 0%Z
  | a :: l' => (f a + sumZ f l')%Z
  end.









End Ast.

(** ** transforms/hoistGlobals *)

Module HoistGlobals.

Import Ast ProfitCalculator.

Definition RESERVED_KEYWORDS : gset jsstring :=
  list_to_set
    [js "arguments"; js "this"; js "super"; js "undefined"; js "NaN";
     js "Infinity"; js "null"; js "true"; js "false"].

Record GlobalInfo := {
  name : jsstring;
  references : list IdentifierPath
}.

Record GlobalDecision := {
  info : GlobalInfo;
  profit : jsnum
}.

Record HoistedGlobal := {
  hname : jsstring;
  globalName : jsstring;
  occurrences : nat
}.

Record HoistGlobalsResult := {
  ast : File;
  hoistedGlobals : list HoistedGlobal
}.

Definition isMemberExpressionObject (path : IdentifierPath) : bool :=
  match parent path, key path with
  | Some (MemberExpression _ _ _), KObject => true
  | _, _ => false
  end.

Definition isTypeofArgument (path : IdentifierPath) : bool :=
  match parent path, key path with
  | Some (UnaryExpression operator _), KArgument =>
      bool_decide (operator = js "typeof")
  | _, _ => false
  end.

(** [globalUsage.get(name)], creating the entry at the end when it is missing,
    then [info.references.push(path)]. *)
Fixpoint pushReference (globalUsage : list GlobalInfo) (n : jsstring)
    (path : IdentifierPath) : list GlobalInfo :=
  match globalUsage with
  | [] => [{| name := n; references := [path] |}]
  | i :: rest =>
      if bool_decide (name i = n)
      then {| name := name i; references := references i ++ [path] |} :: rest
      else i :: pushReference rest n path
  end.

Definition collectUsage (trueGlobals typeofGlobals : gset jsstring)
    (pendingRefs : list IdentifierPath) : list GlobalInfo :=
  fold_left
    (fun globalUsage path =>
       if negb (has trueGlobals (pname path)) || has typeofGlobals (pname path)
       then globalUsage
       else pushReference globalUsage (pname path) path)
    pendingRefs [].

Definition decideGlobal (decisions : list GlobalDecision) (i : GlobalInfo)
    : list GlobalDecision :=
  if (length (references i) <? 2)%nat then decisions
  else
    let profit :=
      calculateGlobalProfit
        (Z.of_nat (length (references i)))
        (strlen (name i))
        1
        (length decisions =? 0)%nat in
    if num_gt profit 0 then decisions ++ [{| info := i; profit := profit |}]
    else decisions.

Definition placeholderName (i : nat) : jsstring :=
  js "__niu_global_" ++ String_of_nat i ++ js "__".

Definition byReferences (a b : GlobalDecision) : Z :=
  Z.of_nat (length (references (info b))) - Z.of_nat (length (references (info a))).

(** The replacement the loop over [decisions] performs: the path at a position
    is replaced by the placeholder of the decision that holds it. *)
Fixpoint placeholderAt (decisions : list GlobalDecision) (i : nat) (pos : nat)
    : option jsstring :=
  match decisions with
  | [] => None
  | d :: rest =>
      match placeholderAt rest (S i) pos with
      | Some later => Some later
      | None =>
          if existsb (fun p => (position p =? pos)%nat) (references (info d))
          then Some (placeholderName i)
          else None
      end
  end.

Definition hoistGlobals (file : File) : HoistGlobalsResult :=
  let trueGlobals : gset jsstring := list_to_set (globals file) in
  let paths := identifierPaths (program file) in
  let typeofGlobals : gset jsstring :=
    list_to_set (map pname (filter (fun p => isTypeofArgument p = true) paths)) in
  let pendingRefs :=
    filter
      (fun p => isMemberExpressionObject p && negb (has RESERVED_KEYWORDS (pname p)) = true)
      paths in
  if bool_decide (trueGlobals = ∅) then {| ast := file; hoistedGlobals := [] |}
  else
    let globalUsage := collectUsage trueGlobals typeofGlobals pendingRefs in
    let decisions := fold_left decideGlobal globalUsage [] in
    let decisions := sort byReferences decisions in
    let hoistedGlobals :=
      number
        (fun d i =>
           {| hname := placeholderName i;
              globalName := name (info d);
              occurrences := length (references (info d)) |})
        decisions 0 in
    let body := replaceIdentifiers (placeholderAt decisions 0) (program file) in
    let body :=
      match hoistedGlobals with
      | [] => body
      | _ :: _ =>
          VariableDeclaration (js "const")
            (map (fun h => variableDeclarator (Identifier (hname h))
                                              (Some (Identifier (globalName h))))
                 hoistedGlobals)
          :: body
      end in
    {| ast := {| program := body; globals := globals file |};
       hoistedGlobals := hoistedGlobals |}.

(** A program with three computed accesses on a free global:
    [localStorage[a]; localStorage[b]; localStorage[c]]. *)
Definition computedAccessFile : File :=
  {| program :=
       [ExpressionStatement
          (MemberExpression (Identifier (js "localStorage")) (Identifier (js "a")) true);
        ExpressionStatement
          (MemberExpression (Identifier (js "localStorage")) (Identifier (js "b")) true);
        ExpressionStatement
          (MemberExpression (Identifier (js "localStorage")) (Identifier (js "c")) true)];
     globals := [js "localStorage"; js "a"; js "b"; js "c"] |}.

(** The occurrences the specification counts, over the Identifier paths of
    the program. *)
Definition memberObjectUses (g : jsstring) (body : list Statement) : list IdentifierPath :=
  filter (fun p => pname p = g /\ isMemberExpressionObject p = true)
         (identifierPaths body).

Definition isDotAccessObject (path : IdentifierPath) : bool :=
  match parent path, key path with
  | Some (MemberExpression _ _ false), KObject => true
  | _, _ => false
  end.

Definition dotObjectUses (g : jsstring) (body : list Statement) : list IdentifierPath :=
  filter (fun p => pname p = g /\ isDotAccessObject p = true)
         (identifierPaths body).

Definition typeofGuarded (g : jsstring) (body : list Statement) : Prop :=
  exists p, p ∈ identifierPaths body /\ pname p = g /\ isTypeofArgument p = true.

Definition hoisted (g : jsstring) (file : File) : Prop :=
  exists h, h ∈ hoistedGlobals (hoistGlobals file) /\ globalName h = g.

(** [typeof G !== "undefined" && G.register(x)], three times, with the free
    global [G] named [__THREE_DEVTOOLS__]. *)
Definition guardedUse (arg : jsstring) : Statement :=
  ExpressionStatement
    (LogicalExpression (js "&&")
       (BinaryExpression (js "!==")
          (UnaryExpression (js "typeof") (Identifier (js "__THREE_DEVTOOLS__")))
          (StringLiteral (js "undefined")))
       (CallExpression
          (MemberExpression (Identifier (js "__THREE_DEVTOOLS__"))
                            (Identifier (js "register")) false)
          [Identifier arg])).

Definition typeofGuardedFile : File :=
  {| program := [guardedUse (js "x"); guardedUse (js "y"); guardedUse (js "z")];
     globals := [js "__THREE_DEVTOOLS__"; js "x"; js "y"; js "z"] |}.

(** The [decisions] array of [hoistGlobals] once it is sorted. *)
Definition decisionsOf (file : File) : list GlobalDecision :=
  let trueGlobals : gset jsstring := list_to_set (globals file) in
  let paths := identifierPaths (program file) in
  let typeofGlobals : gset jsstring :=
    list_to_set (map pname (filter (fun p => isTypeofArgument p = true) paths)) in
  let pendingRefs :=
    filter
      (fun p => isMemberExpressionObject p && negb (has RESERVED_KEYWORDS (pname p)) = true)
      paths in
  sort byReferences
    (fold_left decideGlobal (collectUsage trueGlobals typeofGlobals pendingRefs) []).

Definition hoistedOf (d : GlobalDecision) (i : nat) : HoistedGlobal :=
  {| hname := placeholderName i;
     globalName := name (info d);
     occurrences := length (references (info d)) |}.

(** The declaration [hoistGlobals] puts in front of the program. *)
Definition declarationOf (hoistedGlobals : list HoistedGlobal) : list Statement :=
  match hoistedGlobals with
  | [] => []
  | _ :: _ =>
      [VariableDeclaration (js "const")
         (map (fun h => variableDeclarator (Identifier (hname h))
                                           (Some (Identifier (globalName h))))
              hoistedGlobals)]
  end.

(** The bytes a hoisted global takes in the program before the pass, and the
    bytes of its declarator and of its references after it, with identifiers
    of one character as the profit is computed. *)
Definition bytesBefore (h : HoistedGlobal) : Z :=
  (Z.of_nat (occurrences h) * strlen (globalName h))%Z.

Definition declaratorBytes (h : HoistedGlobal) : Z := (1 + 1 + strlen (globalName h))%Z.

Definition referenceBytes (h : HoistedGlobal) : Z := (Z.of_nat (occurrences h) * 1)%Z.

End HoistGlobals.

(** ** transforms/hoistDuplicateLiterals

    The pass is followed from the two maps its collecting traversal fills
    ([stringUsage], [otherLiterals]) to the bindings it hoists and the
    declarations it puts in front of the program. A collected node path is kept
    by its identity (a number). The fields [value], [usage], [occurrences] and
    [profit], which several of its records share, carry the initial of their
    record. *)

Module HoistDuplicateLiterals.

Import Ast ProfitCalculator.

(** [VALID_IDENTIFIER_REGEX], [/^[a-zA-Z_$][a-zA-Z0-9_$]*$/] *)
Definition isIdentifierStart (c : N) : bool :=
  ((97 <=? c) && (c <=? 122) || (65 <=? c) && (c <=? 90) || (c =? 95) || (c =? 36))%N.

Definition isIdentifierPart (c : N) : bool :=
  isIdentifierStart c || ((48 <=? c) && (c <=? 57))%N.

Definition isValidIdentifier (name : jsstring) : bool :=
  match name with
  | [] => false
  | c :: rest => isIdentifierStart c && forallb isIdentifierPart rest
  end.

Definition charCodeAt0 (c : jsstring) : option N := head c.

Definition codeIs (code : option N) (n : N) : bool :=
  match code with
  | Some u => (u =? n)%N
  | None => false
  end.

Definition needsEscaping (c : jsstring) : bool :=
  let code := charCodeAt0 c in
  bool_decide (c = [34%N]) ||
  bool_decide (c = js "'") ||
  bool_decide (c = [92%N]) ||
  codeIs code 0x0a ||
  codeIs code 0x0d ||
  codeIs code 0x2028 ||
  codeIs code 0x2029.

Definition preferred : jsstring := js ",;:|!@#$%^&*~`<>?/-_=+.()[]{}".

Definition String_fromCharCode (i : nat) : jsstring := [N.of_nat i].

Definition findDelimiter (strings : list jsstring) : option jsstring :=
  let allChars : gset jsstring := list_to_set (flat_map codePoints strings) in
  match find (fun d => negb (has allChars d)) (codePoints preferred) with
  | Some d => Some d
  | None =>
      find (fun c => negb (needsEscaping c) && negb (has allChars c))
           (map String_fromCharCode (seq 32 95))
  end.

Definition isSplitProfitable (stringCount : nat) : bool := (7 <=? stringCount)%nat.

Definition createLiteralNode (value : LiteralValue) : Expression :=
  match value with
  | VNumber text => NumericLiteral text
  | VBoolean b => BooleanLiteral b
  | VNull => NullLiteral
  | VUndefined => Identifier (js "undefined")
  | VBigint text => BigIntLiteral text
  | VString s => StringLiteral s
  end.

Record StringUsageCollected := {
  literalNodes : list nat;
  dotAccessNodes : list nat;
  bracketAccessNodes : list nat;
  identifierKeyNodes : list nat;
  stringKeyNodes : list nat;
  classMethodNodes : list nat;
  classPropertyNodes : list nat
}.

Record LiteralInfo := {
  lvalue : LiteralValue;
  nodes : list nat
}.

Record StringCandidate := {
  cvalue : jsstring;
  cusage : StringUsageCollected;
  selectiveResult : SelectiveProfit;
  effectiveOccurrences : Z
}.

Record StringUsage := {
  uLiteralNodes : list nat;
  uPropertyAccessNodes : list nat;
  uObjectPropertyNodes : list nat
}.

Record SelectiveStringHoistDecision := {
  svalue : jsstring;
  susage : StringUsage;
  soccurrences : Z;
  sprofit : jsnum;
  sHoistLiterals : bool;
  sHoistPropertyAccess : bool;
  sHoistObjectProperties : bool
}.

Record HoistDecision := {
  dvalue : LiteralValue;
  dnodes : list nat;
  doccurrences : Z;
  dprofit : Z
}.

Record HoistedBinding := {
  bname : jsstring;
  bvalue : Expression;
  boccurrences : Z
}.

Definition len {A} (l : list A) : Z := Z.of_nat (length l).

(** The body of the loop over [stringUsage]. *)
Definition stringCandidate (entry : jsstring * StringUsageCollected)
    : option StringCandidate :=
  let '(value, usage) := entry in
  let literalCount :=
    (len (literalNodes usage) + len (bracketAccessNodes usage) + len (stringKeyNodes usage))%Z in
  let propertyAccessCount := len (dotAccessNodes usage) in
  let objectPropertyCount :=
    (len (identifierKeyNodes usage) + len (classMethodNodes usage)
     + len (classPropertyNodes usage))%Z in
  let totalOccurrences := (literalCount + propertyAccessCount + objectPropertyCount)%Z in
  if (totalOccurrences <? 2)%Z then None
  else
    let selectiveResult :=
      calculateSelectiveStringProfit
        {| literalCount := literalCount;
           propertyAccessCount := propertyAccessCount;
           objectPropertyCount := objectPropertyCount |}
        value 1 false in
    if num_gt (ProfitCalculator.profit selectiveResult) (-2) then
      let effectiveOccurrences :=
        ((if hoistLiterals selectiveResult then literalCount else 0)
         + (if hoistPropertyAccess selectiveResult then propertyAccessCount else 0)
         + (if hoistObjectProperties selectiveResult then objectPropertyCount else 0))%Z in
      if (2 <=? effectiveOccurrences)%Z
      then Some {| cvalue := value; cusage := usage;
                   selectiveResult := selectiveResult;
                   effectiveOccurrences := effectiveOccurrences |}
      else None
    else None.

Definition FIRST_DECL_OVERHEAD : Z := 5.

Definition cprofit (c : StringCandidate) : jsnum :=
  ProfitCalculator.profit (selectiveResult c).

Definition selectCandidates (stringCandidates : list StringCandidate)
    : list StringCandidate :=
  let profitableUnderConst :=
    List.filter (fun c => num_gt (cprofit c) 0) stringCandidates in
  let marginalForSplit :=
    List.filter (fun c => num_le (cprofit c) 0 && num_gt (cprofit c) (-2)) stringCandidates in
  if (7 <=? length profitableUnderConst)%nat then profitableUnderConst
  else if (7 <=? length profitableUnderConst + length marginalForSplit)%nat
       then profitableUnderConst ++ marginalForSplit
  else profitableUnderConst.

Definition byEffectiveOccurrences (a b : StringCandidate) : Z :=
  (effectiveOccurrences b - effectiveOccurrences a)%Z.

(** The decision object both loops push for a candidate. *)
Definition decisionOf (candidate : StringCandidate) : SelectiveStringHoistDecision :=
  let usage := cusage candidate in
  let selectiveResult := selectiveResult candidate in
  {| svalue := cvalue candidate;
     susage :=
       {| uLiteralNodes :=
            literalNodes usage ++ bracketAccessNodes usage ++ stringKeyNodes usage;
          uPropertyAccessNodes := dotAccessNodes usage;
          uObjectPropertyNodes :=
            identifierKeyNodes usage ++ classMethodNodes usage ++ classPropertyNodes usage |};
     soccurrences := effectiveOccurrences candidate;
     sprofit := ProfitCalculator.profit selectiveResult;
     sHoistLiterals := hoistLiterals selectiveResult;
     sHoistPropertyAccess := hoistPropertyAccess selectiveResult;
     sHoistObjectProperties := hoistObjectProperties selectiveResult |}.

(** One turn of the loop over [selectedCandidates]; the state is
    [stringDecisions] and [skippedAsFirst]. *)
Definition firstSlotStep
    (state : list SelectiveStringHoistDecision * list StringCandidate)
    (candidate : StringCandidate)
    : list SelectiveStringHoistDecision * list StringCandidate :=
  let '(stringDecisions, skippedAsFirst) := state in
  let isFirst := (length stringDecisions =? 0)%nat in
  let push := (stringDecisions ++ [decisionOf candidate], skippedAsFirst) in
  if isFirst then
    let firstProfit := num_sub (cprofit candidate) FIRST_DECL_OVERHEAD in
    if num_le firstProfit 0 then
      if num_gt (cprofit candidate) 0
      then (stringDecisions, skippedAsFirst ++ [candidate])
      else (stringDecisions, skippedAsFirst)
    else push
  else push.

Definition byOccurrences (a b : SelectiveStringHoistDecision) : Z :=
  (soccurrences b - soccurrences a)%Z.

Definition decideStrings (selectedCandidates : list StringCandidate)
    : list SelectiveStringHoistDecision :=
  let '(stringDecisions, skippedAsFirst) :=
    fold_left firstSlotStep selectedCandidates ([], []) in
  if (0 <? length stringDecisions)%nat
  then sort byOccurrences (stringDecisions ++ map decisionOf skippedAsFirst)
  else stringDecisions.

Definition stringDecisionsOf (stringUsage : list (jsstring * StringUsageCollected))
    : list SelectiveStringHoistDecision :=
  let stringCandidates := omap stringCandidate stringUsage in
  let selectedCandidates := selectCandidates stringCandidates in
  let selectedCandidates := sort byEffectiveOccurrences selectedCandidates in
  decideStrings selectedCandidates.

Definition isNumber (value : LiteralValue) : bool :=
  match value with
  | VNumber _ => true
  | _ => false
  end.

Definition decideLiteral (stringDecisions : list SelectiveStringHoistDecision)
    (hoistDecisions : list HoistDecision) (info : LiteralInfo) : list HoistDecision :=
  if (length (nodes info) <? 2)%nat then hoistDecisions
  else
    let reprLength := getLiteralRepresentationLength (lvalue info) in
    if isNumber (lvalue info) && (reprLength <=? 2)%Z then hoistDecisions
    else
      let profit :=
        calculateLiteralProfit (len (nodes info)) reprLength 1
          ((length stringDecisions =? 0)%nat && (length hoistDecisions =? 0)%nat) in
      if (profit >? 0)%Z
      then hoistDecisions ++
           [{| dvalue := lvalue info; dnodes := nodes info;
               doccurrences := len (nodes info); dprofit := profit |}]
      else hoistDecisions.

Definition byLiteralOccurrences (a b : HoistDecision) : Z :=
  (doccurrences b - doccurrences a)%Z.

Definition placeholderName (i : nat) : jsstring :=
  js "__niu_literal_" ++ String_of_nat i ++ js "__".

(** [stringUsage.get(value)] *)
Definition getUsage (stringUsage : list (jsstring * StringUsageCollected))
    (value : jsstring) : option StringUsageCollected :=
  snd <$> find (fun entry => bool_decide (fst entry = value)) stringUsage.

Definition stringBinding (stringUsage : list (jsstring * StringUsageCollected))
    (decision : SelectiveStringHoistDecision) (i : nat) : option HoistedBinding :=
  match getUsage stringUsage (svalue decision) with
  | None => None
  | Some _ =>
      Some {| bname := placeholderName i;
              bvalue := StringLiteral (svalue decision);
              boccurrences := soccurrences decision |}
  end.

Definition literalBinding (otherLiteralOffset : nat) (decision : HoistDecision) (i : nat)
    : HoistedBinding :=
  {| bname := placeholderName (otherLiteralOffset + i);
     bvalue := createLiteralNode (dvalue decision);
     boccurrences := doccurrences decision |}.

Definition isStringLiteral (e : Expression) : bool :=
  match e with
  | StringLiteral _ => true
  | _ => false
  end.

Definition stringValue (e : Expression) : jsstring :=
  match e with
  | StringLiteral value => value
  | _ => []
  end.

Definition declarator (binding : HoistedBinding) : VariableDeclarator :=
  variableDeclarator (Identifier (bname binding)) (Some (bvalue binding)).

(** The declaration emitted for the string bindings, when there are any. *)
Definition stringDeclaration (stringBindings : list HoistedBinding) : Statement :=
  let delimiter :=
    if (0 <? length stringBindings)%nat
    then findDelimiter (map (fun b => stringValue (bvalue b)) stringBindings)
    else None in
  let useSplit := isSplitProfitable (length stringBindings) && bool_decide (delimiter <> None) in
  match useSplit, delimiter with
  | true, Some delimiter =>
      let identifiers := map (fun b => Identifier (bname b)) stringBindings in
      let joinedString := join delimiter (map (fun b => stringValue (bvalue b)) stringBindings) in
      VariableDeclaration (js "let")
        [variableDeclarator
           (ArrayPattern identifiers)
           (Some (CallExpression
                    (MemberExpression (StringLiteral joinedString)
                                      (Identifier (js "split")) false)
                    [StringLiteral delimiter]))]
  | _, _ => VariableDeclaration (js "const") (map declarator stringBindings)
  end.

Definition emitDeclarations (hoistedLiteralBindings : list HoistedBinding)
    : list Statement :=
  if (0 <? length hoistedLiteralBindings)%nat then
    let stringBindings := List.filter (fun b => isStringLiteral (bvalue b)) hoistedLiteralBindings in
    let otherBindings :=
      List.filter (fun b => negb (isStringLiteral (bvalue b))) hoistedLiteralBindings in
    (if (0 <? length stringBindings)%nat then [stringDeclaration stringBindings] else [])
    ++ (if (0 <? length otherBindings)%nat
        then [VariableDeclaration (js "const") (map declarator otherBindings)]
        else [])
  else [].

Record HoistResult := {
  declarations : list Statement;
  hoistedLiteralBindings : list HoistedBinding
}.

Definition hoistDuplicateLiterals
    (stringUsage : list (jsstring * StringUsageCollected))
    (otherLiterals : list LiteralInfo) : HoistResult :=
  let stringDecisions := stringDecisionsOf stringUsage in
  let hoistDecisions := fold_left (decideLiteral stringDecisions) otherLiterals [] in
  let hoistDecisions := sort byLiteralOccurrences hoistDecisions in
  let stringBindings :=
    omap (fun b => b) (number (stringBinding stringUsage) stringDecisions 0) in
  let otherLiteralOffset := length stringDecisions in
  let otherBindings := number (literalBinding otherLiteralOffset) hoistDecisions 0 in
  let hoistedLiteralBindings := stringBindings ++ otherBindings in
  {| declarations := emitDeclarations hoistedLiteralBindings;
     hoistedLiteralBindings := hoistedLiteralBindings |}.






Definition isSplitForm (s : Statement) : bool :=
  match s with
  | VariableDeclaration kind [variableDeclarator (ArrayPattern _) _] =>
      bool_decide (kind = js "let")
  | _ => false
  end.

(** The delimiter as the specification words it: the first character of the
    preference string that occurs in none of the strings, else the first
    printable ASCII character that is no escape trigger and occurs in none. *)
Definition occursIn (c : N) (strings : list jsstring) : bool :=
  existsb (fun s => existsb (N.eqb c) s) strings.

Definition isEscapeTrigger (c : N) : bool :=
  ((c =? 34) || (c =? 39) || (c =? 92) || (c =? 13) || (c =? 10)
   || (c =? 0x2028) || (c =? 0x2029))%N.

Definition printableAscii : list N := map N.of_nat (seq 32 95).

Definition delimiterSpec (strings : list jsstring) : option N :=
  match find (fun c => negb (occursIn c strings)) preferred with
  | Some c => Some c
  | None =>
      find (fun c => negb (isEscapeTrigger c) && negb (occursIn c strings)) printableAscii
  end.

(** A character that the iterator yields on its own and that a JSON quote
    leaves as it is. *)
Definition safeDelimiter (c : N) : bool :=
  negb (isHighSurrogate c) && negb (isLowSurrogate c)
  && bool_decide (quoteCodePoint [c] = [c]).

(** A single string that holds every printable ASCII character. *)
Definition allPrintable : jsstring := printableAscii.

Definition values (stringBindings : list HoistedBinding) : list jsstring :=
  map (fun b => stringValue (bvalue b)) stringBindings.

(** Seven distinct strings, each a plain literal at four places. *)
Definition literalUsage (nodes : list nat) : StringUsageCollected :=
  {| literalNodes := nodes; dotAccessNodes := []; bracketAccessNodes := [];
     identifierKeyNodes := []; stringKeyNodes := []; classMethodNodes := [];
     classPropertyNodes := [] |}.

Definition sevenStrings : list (jsstring * StringUsageCollected) :=
  [(js "alpha", literalUsage [0; 1; 2; 3]);
   (js "bravo", literalUsage [4; 5; 6; 7]);
   (js "charlie", literalUsage [8; 9; 10; 11]);
   (js "delta", literalUsage [12; 13; 14; 15]);
   (js "echo", literalUsage [16; 17; 18; 19]);
   (js "foxtrot", literalUsage [20; 21; 22; 23]);
   (js "golf", literalUsage [24; 25; 26; 27])].

(** The first-declaration rule as the specification words it: candidates
    are tried in order until one recoups the overhead of the keyword; [tried]
    holds those that were passed over, [accepted] the first that was taken
    and every candidate after it. *)
Definition recoupsOverhead (c : StringCandidate) : bool :=
  num_gt (num_sub (cprofit c) FIRST_DECL_OVERHEAD) 0.

Fixpoint firstAccepted (l : list StringCandidate)
    : list StringCandidate * list StringCandidate :=
  match l with
  | [] => ([], [])
  | c :: rest =>
      if recoupsOverhead c then ([], l)
      else let '(tried, accepted) := firstAccepted rest in (c :: tried, accepted)
  end.

Definition profitableAlone (c : StringCandidate) : bool := num_gt (cprofit c) 0.

(** Two candidates in selection order: ["a"] used five times (profit 4, which
    does not recoup the keyword) and ["hello"] used four times (profit 14). *)
Definition firstSlotExample : list StringCandidate :=
  omap stringCandidate
    [(js "a", literalUsage [0; 1; 2; 3; 4]);
     (js "hello", literalUsage [5; 6; 7; 8])].

(** A property name read through dot accesses only. *)
Definition dotUsage (nodes : list nat) : StringUsageCollected :=
  {| literalNodes := []; dotAccessNodes := nodes; bracketAccessNodes := [];
     identifierKeyNodes := []; stringKeyNodes := []; classMethodNodes := [];
     classPropertyNodes := [] |}.

(** The number of nodes the replacement loop rewrites for a string decision:
    each of the three groups of node paths counts when its flag is set. *)
Definition rewrittenNodes (d : SelectiveStringHoistDecision) : Z :=
  ((if sHoistLiterals d then len (uLiteralNodes (susage d)) else 0)
   + (if sHoistPropertyAccess d then len (uPropertyAccessNodes (susage d)) else 0)
   + (if sHoistObjectProperties d then len (uObjectPropertyNodes (susage d)) else 0))%Z.

(** The [hoistDecisions] array once it is sorted. *)
Definition hoistDecisionsOf (stringDecisions : list SelectiveStringHoistDecision)
    (otherLiterals : list LiteralInfo) : list HoistDecision :=
  sort byLiteralOccurrences (fold_left (decideLiteral stringDecisions) otherLiterals []).

(** The Identifier nodes a declaration declares: the [id] of each declarator,
    or the elements of its array pattern. *)
Definition declaredIdentifiers (s : Statement) : list Expression :=
  match s with
  | VariableDeclaration _ declarations =>
      flat_map (fun d => match id d with
                         | ArrayPattern elements => elements
                         | e => [e]
                         end) declarations
  | _ => []
  end.

(** The bindings the two replacement loops push, from the decisions. *)
Definition bindingOfString (d : SelectiveStringHoistDecision) (i : nat) : HoistedBinding :=
  {| bname := placeholderName i;
     bvalue := StringLiteral (svalue d);
     boccurrences := soccurrences d |}.

(** What a declaration of the pass binds when it runs: each declarator
    [name = "v"] binds its name to the string, and the array pattern of
    [let [a, b, ...] = "...".split("d")] binds its identifiers, in order, to
    the elements of the array the call returns. *)
Definition boundStrings (s : Statement) : list (Expression * jsstring) :=
  match s with
  | VariableDeclaration _
      [variableDeclarator (ArrayPattern identifiers)
         (Some (CallExpression
                  (MemberExpression (StringLiteral joined) (Identifier method) false)
                  [StringLiteral delimiter]))] =>
      if bool_decide (method = js "split")
      then zip identifiers (String_split joined delimiter)
      else []
  | VariableDeclaration _ declarations =>
      omap (fun d => match init d with
                     | Some (StringLiteral v) => Some (id d, v)
                     | _ => None
                     end) declarations
  | _ => []
  end.

(** ["abc"] as a plain literal at four places, and the decision it gets. *)
Definition abcUsage : list (jsstring * StringUsageCollected) :=
  [(js "abc", literalUsage [0; 1; 2; 3])].

Definition abcDecision : SelectiveStringHoistDecision :=
  {| svalue := js "abc";
     susage := {| uLiteralNodes := [0; 1; 2; 3];
                  uPropertyAccessNodes := [];
                  uObjectPropertyNodes := [] |};
     soccurrences := 4;
     sprofit := Num 8;
     sHoistLiterals := true;
     sHoistPropertyAccess := false;
     sHoistObjectProperties := false |}.

(** [null] at five places, and the decision it gets when no string is
    hoisted. *)
Definition nullLiterals : list LiteralInfo :=
  [{| lvalue := VNull; nodes := [0; 1; 2; 3; 4] |}].

Definition nullDecision : HoistDecision :=
  {| dvalue := VNull; dnodes := [0; 1; 2; 3; 4]; doccurrences := 5; dprofit := 3 |}.























(** The profit of a decision as a number of bytes. *)
Definition profitOf (d : SelectiveStringHoistDecision) : Z :=
  match sprofit d with
  | Num z => z
  | NegInfinity => 0%Z
  end.

End HoistDuplicateLiterals.

(** ** transforms/mangleIdentifiers

    Babel's scope analysis is input data. A scope is known by its [uid] and
    holds its bindings and its parent. An Identifier node is known by its
    identity; its mutable [name] lives in a store. A node path carries its node
    and the uids of [path.scope] and of the parents of [path.scope], innermost
    first, which is what [isInsideScope] walks. *)

Module MangleIdentifiers.

Import Ast.

Definition RESERVED_WORDS : gset jsstring :=
  list_to_set
    [js "break"; js "case"; js "catch"; js "continue"; js "debugger";
     js "default"; js "delete"; js "do"; js "else"; js "finally"; js "for";
     js "function"; js "if"; js "in"; js "instanceof"; js "new"; js "return";
     js "switch"; js "this"; js "throw"; js "try"; js "typeof"; js "var";
     js "void"; js "while"; js "with"; js "class"; js "const"; js "enum";
     js "export"; js "extends"; js "import"; js "super"; js "implements";
     js "interface"; js "let"; js "package"; js "private"; js "protected";
     js "public"; js "static"; js "yield"; js "null"; js "true"; js "false";
     js "undefined"; js "NaN"; js "Infinity"; js "eval"; js "arguments"].

Definition CHARS : jsstring :=
  js "etaonirshldcumfpgwybvkxjqzETAONIRSHLDCUMFPGWYBVKXJQZ$_".

(** [CHARS[i] ?? ''] *)
Definition charAt (i : nat) : jsstring :=
  match nth_error CHARS i with
  | Some c => [c]
  | None => []
  end.

Definition base : nat := Eval compute in length CHARS.

(** The [while (remaining >= 0)] loop of [indexToName]; its test always holds
    for a natural number, and [remaining] decreases at each turn. *)
Equations? indexToName_loop (remaining : nat) (result : jsstring) : jsstring
    by wf remaining lt :=
  indexToName_loop remaining result with lt_dec remaining base := {
    | left _ => charAt remaining ++ result
    | right _ =>
        indexToName_loop (remaining / base - 1) (charAt (remaining mod base) ++ result)
  }.
Proof.
  unfold base in *.
  assert (remaining / 54 <= remaining) by (apply Nat.Div0.div_le_upper_bound; lia).
  lia.
Qed.

Definition indexToName (index : nat) : jsstring :=
  if (index <? base)%nat then charAt index
  else
    let remaining := index - base in
    let result := charAt (remaining mod base) in
    let remaining := remaining / base in
    indexToName_loop remaining result.

(** [next()] of [createScopedNameGenerator(reserved)]: the closure's [index] is
    passed in and handed back. The do-while loop runs on fuel; [None] is an
    exhausted fuel. *)
Fixpoint next (fuel : nat) (reserved : gset jsstring) (index : nat)
    : option (jsstring * nat) :=
  match fuel with
  | O => None
  | S fuel' =>
      let name := indexToName index in
      let index := S index in
      if has RESERVED_WORDS name || has reserved name
      then next fuel' reserved index
      else Some (name, index)
  end.

(** Fuel that [next] never exhausts: one more than the names it may skip. *)
Definition nextFuel (reserved : gset jsstring) : nat :=
  S (size RESERVED_WORDS + size reserved).

Inductive Node :=
| NIdentifier (ref : nat)
| NAssignmentExpression (left : Node)
| NOther.

Record NodePath := {
  node : Node;
  scopeChain : list nat
}.

(** Modelled from the spec: the declaration of [BabelBinding] is not among
    the sources. A binding records its declaring identifier node, its reference
    paths (reads), its constant violations (writes) and its scope, which are
    the fields the pass reads; [bid] is the identity of the binding object, by
    which the rename map is keyed, and [bscope] the uid of [binding.scope]. *)
Record Binding := {
  bid : nat;
  identifier : nat;
  referencePaths : list NodePath;
  constantViolations : list NodePath;
  bscope : nat
}.

#[global] Instance Node_eq_dec : EqDecision Node.
Proof. solve_decision. Defined.

#[global] Instance NodePath_eq_dec : EqDecision NodePath.
Proof. solve_decision. Defined.

#[global] Instance Binding_eq_dec : EqDecision Binding.
Proof. solve_decision. Defined.

Inductive Scope :=
| mkScope (uid : nat) (bindings : list (jsstring * Binding)) (parent : option Scope).

Definition uid (s : Scope) : nat := let 'mkScope u _ _ := s in u.
Definition bindings (s : Scope) : list (jsstring * Binding) := let 'mkScope _ b _ := s in b.
Definition parent (s : Scope) : option Scope := let 'mkScope _ _ p := s in p.

(** [Map<BabelBinding, string>], keyed by the identity of the binding, in
    insertion order. *)
Definition RenameMap := list (Binding * jsstring).

Fixpoint renameMap_get (renameMap : RenameMap) (binding : Binding) : option jsstring :=
  match renameMap with
  | [] => None
  | (b, n) :: rest =>
      if (bid b =? bid binding)%nat then Some n else renameMap_get rest binding
  end.

Fixpoint renameMap_set (renameMap : RenameMap) (binding : Binding) (newName : jsstring)
    : RenameMap :=
  match renameMap with
  | [] => [(binding, newName)]
  | (b, n) :: rest =>
      if (bid b =? bid binding)%nat then (b, newName) :: rest
      else (b, n) :: renameMap_set rest binding newName
  end.

Definition isInsideScope (path : NodePath) (targetScope : Scope) : bool :=
  existsb (fun currentScope => (currentScope =? uid targetScope)%nat) (scopeChain path).

Definition reserveBinding (scope : Scope) (renameMap : RenameMap)
    (reserved : gset jsstring) (entry : jsstring * Binding) : gset jsstring :=
  let binding := snd entry in
  match renameMap_get renameMap binding with
  | None => reserved
  | Some newName =>
      let isReferencedInScope :=
        existsb (fun refPath => isInsideScope refPath scope) (referencePaths binding)
        || existsb (fun violationPath => isInsideScope violationPath scope)
                   (constantViolations binding) in
      if isReferencedInScope then {[newName]} ∪ reserved else reserved
  end.

(** The walk up the scope chain, from [currentScope]. *)
Fixpoint reserveFrom (scope : Scope) (renameMap : RenameMap) (currentScope : Scope)
    (reserved : gset jsstring) : gset jsstring :=
  match currentScope with
  | mkScope _ currentBindings currentParent =>
      let reserved := fold_left (reserveBinding scope renameMap) currentBindings reserved in
      match currentParent with
      | Some p => reserveFrom scope renameMap p reserved
      | None => reserved
      end
  end.

Definition getReservedNamesForScope (scope : Scope) (renameMap : RenameMap)
    : gset jsstring :=
  match parent scope with
  | Some currentScope => reserveFrom scope renameMap currentScope ∅
  | None => ∅
  end.

(** [BindingInfo] and [ScopeInfo], as the pass builds them ([path] is not
    read afterwards and is left out). *)
Record BindingInfo := {
  name : jsstring;
  binding : Binding;
  references : Z
}.

Record ScopeInfo := {
  scope : Scope;
  sbindings : list BindingInfo
}.

Definition bindingInfo (entry : jsstring * Binding) : BindingInfo :=
  {| name := fst entry;
     binding := snd entry;
     references :=
       1 + Z.of_nat (length (referencePaths (snd entry)))
       + Z.of_nat (length (constantViolations (snd entry))) |}.

(** The [Scope.enter] visitor, over the scopes in the order they are entered. *)
Definition collectScope (scopeInfos : list ScopeInfo) (babelScope : Scope)
    : list ScopeInfo :=
  let bindings :=
    map bindingInfo
        (List.filter (fun entry => (bscope (snd entry) =? uid babelScope)%nat)
                     (bindings babelScope)) in
  if (0 <? length bindings)%nat
  then scopeInfos ++ [{| scope := babelScope; sbindings := bindings |}]
  else scopeInfos.

Definition byReferences (a b : BindingInfo) : Z := (references b - references a)%Z.

(** The loop over [sortedBindings]; the state is the rename map and the
    generator's index. *)
Fixpoint assignNames (reserved : gset jsstring) (sortedBindings : list BindingInfo)
    (renameMap : RenameMap) (index : nat) : option RenameMap :=
  match sortedBindings with
  | [] => Some renameMap
  | info :: rest =>
      match next (nextFuel reserved) reserved index with
      | None => None
      | Some (newName, index) =>
          assignNames reserved rest (renameMap_set renameMap (binding info) newName) index
      end
  end.

Definition mangleScope (renameMap : RenameMap) (scopeInfo : ScopeInfo) : option RenameMap :=
  let reserved := getReservedNamesForScope (scope scopeInfo) renameMap in
  let sortedBindings := sort byReferences (sbindings scopeInfo) in
  assignNames reserved sortedBindings renameMap 0.

Fixpoint mangleScopes (scopeInfos : list ScopeInfo) (renameMap : RenameMap)
    : option RenameMap :=
  match scopeInfos with
  | [] => Some renameMap
  | scopeInfo :: rest =>
      match mangleScope renameMap scopeInfo with
      | None => None
      | Some renameMap => mangleScopes rest renameMap
      end
  end.

(** The names of the Identifier nodes. *)
Definition Store := nat -> jsstring.

Definition setName (store : Store) (ref : nat) (newName : jsstring) : Store :=
  fun r => if (r =? ref)%nat then newName else store r.

Definition renameReference (newName : jsstring) (store : Store) (refPath : NodePath) : Store :=
  match node refPath with
  | NIdentifier ref => setName store ref newName
  | _ => store
  end.

Definition renameViolation (newName : jsstring) (store : Store) (violationPath : NodePath)
    : Store :=
  match node violationPath with
  | NIdentifier ref => setName store ref newName
  | NAssignmentExpression (NIdentifier ref) => setName store ref newName
  | _ => store
  end.

Definition PLACEHOLDER_PREFIX : jsstring := js "__niu_".

(** One turn of the loop that applies the renames; the state is the store and
    [placeholderRenames]. *)
Definition applyRename (state : Store * gmap jsstring jsstring)
    (entry : Binding * jsstring) : Store * gmap jsstring jsstring :=
  let '(store, placeholderRenames) := state in
  let '(binding, newName) := entry in
  let oldName := store (identifier binding) in
  let store := setName store (identifier binding) newName in
  let store := fold_left (renameReference newName) (referencePaths binding) store in
  let store := fold_left (renameViolation newName) (constantViolations binding) store in
  if startsWith PLACEHOLDER_PREFIX oldName
  then (store, <[oldName := newName]> placeholderRenames)
  else (store, placeholderRenames).

(** The visitor of the last traversal, on one Identifier node. *)
Definition renamePlaceholder (placeholderRenames : gmap jsstring jsstring)
    (store : Store) (ref : nat) : Store :=
  match placeholderRenames !! store ref with
  | Some newName => setName store ref newName
  | None => store
  end.

(** The file as the pass sees it: the scopes in the order the traversal enters
    them, the Identifier nodes of the tree in traversal order, and their
    names. *)
Record MangleInput := {
  scopes : list Scope;
  identifiers : list nat;
  names : Store
}.

(** The result: the tree as the names of its Identifier nodes, and the rename
    map; the local [placeholderRenames] is kept with it for the statements
    about the last traversal. *)
Record MangleResult := {
  store : Store;
  renameMap : RenameMap;
  placeholderRenames : gmap jsstring jsstring
}.

Definition mangleIdentifiers (input : MangleInput) : option MangleResult :=
  let scopeInfos := fold_left collectScope (scopes input) [] in
  match mangleScopes scopeInfos [] with
  | None => None
  | Some renameMap =>
      let '(store, placeholderRenames) :=
        fold_left applyRename renameMap (names input, ∅) in
      let store :=
        if (0 <? size placeholderRenames)%nat
        then fold_left (renamePlaceholder placeholderRenames) (identifiers input) store
        else store in
      Some {| store := store; renameMap := renameMap;
              placeholderRenames := placeholderRenames |}
  end.

(** The scopes above a scope, nearest first. *)
Fixpoint ancestorsFrom (s : Scope) : list Scope :=
  match s with
  | mkScope _ _ (Some p) => s :: ancestorsFrom p
  | mkScope _ _ None => [s]
  end.

Definition ancestors (s : Scope) : list Scope :=
  match parent s with
  | Some p => ancestorsFrom p
  | None => []
  end.

(** A path lies lexically inside [s] when [s] is the scope of the path or one
    of the scopes above it. *)
Definition lexicallyInside (path : NodePath) (s : Scope) : Prop :=
  uid s ∈ scopeChain path.

(** The mangler's input for the one-statement program [__niu_x;]: a single
    Identifier, which is a free global, and a program scope without bindings. *)
Definition freePlaceholderInput : MangleInput :=
  {| scopes := [mkScope 0 [] None];
     identifiers := [0];
     names := fun _ => js "__niu_x" |}.

(** The inverse of [indexToName]: a name read as a numeral in bijective
    base 54, whose digits are the positions of its characters in [CHARS]. *)
Fixpoint indexOf (c : N) (l : list N) : nat :=
  match l with
  | [] => 0
  | x :: l' => if (x =? c)%N then 0 else S (indexOf c l')
  end.

Definition nameValue (s : jsstring) : nat :=
  fold_left (fun acc c => acc * base + S (indexOf c CHARS)) s 0.

Definition nameToIndex (s : jsstring) : nat := nameValue s - 1.

(** A non-empty string over the alphabet [CHARS]. *)
Definition overCHARS (s : jsstring) : Prop :=
  s <> [] /\ Forall (fun c => c ∈ CHARS) s.

(** Indices in strictly ascending order, none below [index]. *)
Fixpoint ascendingFrom (index : nat) (indices : list nat) : Prop :=
  match indices with
  | [] => True
  | i :: rest => index <= i /\ ascendingFrom (S i) rest
  end.

(** The name the loop of [assignNames] leaves for a binding: that of its last
    turn on this binding. *)
Fixpoint lastAssigned (b : Binding) (l : list (BindingInfo * nat)) : option jsstring :=
  match l with
  | [] => None
  | (info, i) :: rest =>
      match lastAssigned b rest with
      | Some n => Some n
      | None => if (bid (binding info) =? bid b)%nat then Some (indexToName i) else None
      end
  end.

Definition assign (renameMap : RenameMap) (turn : BindingInfo * nat) : RenameMap :=
  renameMap_set renameMap (binding (fst turn)) (indexToName (snd turn)).

(** A binding is referenced inside [s] when one of its reads or writes lies
    lexically inside [s]. *)
Definition referencedInside (b : Binding) (s : Scope) : Prop :=
  exists path,
    (path ∈ referencePaths b \/ path ∈ constantViolations b) /\ lexicallyInside path s.

(** The Identifier nodes that the turn of a binding in the renaming loop
    writes to. *)
Definition referenceNode (refPath : NodePath) : option nat :=
  match node refPath with
  | NIdentifier ref => Some ref
  | _ => None
  end.

Definition violationNode (violationPath : NodePath) : option nat :=
  match node violationPath with
  | NIdentifier ref => Some ref
  | NAssignmentExpression (NIdentifier ref) => Some ref
  | _ => None
  end.

Definition written (b : Binding) : list nat :=
  identifier b
  :: omap referenceNode (referencePaths b) ++ omap violationNode (constantViolations b).

(** The mangler's input after the global hoister and the re-parse, for
    [const __niu_global_0__=Array;__niu_global_0__.isArray(x);__niu_global_0__.from(y)]:
    the Identifier nodes are numbered in traversal order, and the program scope
    holds the one binding, read at nodes 2 and 5. *)
Definition hoistedBinding : Binding :=
  {| bid := 0;
     identifier := 0;
     referencePaths :=
       [{| node := NIdentifier 2; scopeChain := [0] |};
        {| node := NIdentifier 5; scopeChain := [0] |}];
     constantViolations := [];
     bscope := 0 |}.

Definition hoistedNames (ref : nat) : jsstring :=
  match ref with
  | 0 | 2 | 5 => js "__niu_global_0__"
  | 1 => js "Array"
  | 3 => js "isArray"
  | 4 => js "x"
  | 6 => js "from"
  | _ => js "y"
  end.

Definition hoistedInput : MangleInput :=
  {| scopes := [mkScope 0 [(js "__niu_global_0__", hoistedBinding)] None];
     identifiers := [0; 1; 2; 3; 4; 5; 6; 7];
     names := hoistedNames |}.

(** Every name in the rename map came out of [indexToName]. *)
Definition generated (renameMap : RenameMap) : Prop :=
  forall entry, entry ∈ renameMap -> exists i, snd entry = indexToName i.

(** A program scope with two bindings, [Q] declared first and read once,
    [P] declared second and read ten times. *)
Definition readAt (ref : nat) : NodePath :=
  {| node := NIdentifier ref; scopeChain := [0] |}.

Definition bindingQ : Binding :=
  {| bid := 0; identifier := 0; referencePaths := [readAt 2];
     constantViolations := []; bscope := 0 |}.

Definition bindingP : Binding :=
  {| bid := 1; identifier := 1; referencePaths := map readAt (seq 3 10);
     constantViolations := []; bscope := 0 |}.

Definition frequencyInput : MangleInput :=
  {| scopes := [mkScope 0 [(js "Q", bindingQ); (js "P", bindingP)] None];
     identifiers := seq 0 13;
     names := fun ref =>
       match ref with
       | 0 | 2 => js "Q"
       | _ => js "P"
       end |}.

(** A function scope inside the program scope; the program's binding [x],
    already renamed to [e], is read inside the function, its binding [y],
    renamed to [t], is not. *)
Definition outerX : Binding :=
  {| bid := 0; identifier := 0;
     referencePaths := [{| node := NIdentifier 5; scopeChain := [1; 0] |}];
     constantViolations := []; bscope := 0 |}.

Definition outerY : Binding :=
  {| bid := 1; identifier := 1;
     referencePaths := [{| node := NIdentifier 6; scopeChain := [0] |}];
     constantViolations := []; bscope := 0 |}.

Definition programScope : Scope :=
  mkScope 0 [(js "x", outerX); (js "y", outerY)] None.

Definition functionScope : Scope :=
  mkScope 1 [] (Some programScope).

(** The number of names of at most [k] characters: [54 + 54^2 + ... + 54^k]. *)
Fixpoint namesUpTo (k : nat) : nat :=
  match k with
  | O => 0
  | S k' => base * S (namesUpTo k')
  end.

(** A binding the traversal collects: one that a traversed scope holds as its
    own. *)
Definition collected (input : MangleInput) (b : Binding) : Prop :=
  exists s entry, s ∈ scopes input /\ entry ∈ bindings s /\
                  bscope (snd entry) = uid s /\ b = snd entry.

End MangleIdentifiers.

(** ** transforms/constsToLets *)

Module ConstsToLets.

Import Ast.

(** The visitor: [if (path.node.kind === 'const') path.node.kind = 'let']. *)
Definition visitVariableDeclaration (kind : jsstring) : jsstring :=
  if bool_decide (kind = js "const") then js "let" else kind.

(** [traverse] with the one visitor, below a statement. *)
Fixpoint traverseStatement (s : Statement) : Statement :=
  match s with
  | VariableDeclaration kind declarations =>
      VariableDeclaration (visitVariableDeclaration kind) declarations
  | IfStatement test consequent alternate =>
      IfStatement test (traverseStatement consequent)
        match alternate with
        | Some a => Some (traverseStatement a)
        | None => None
        end
  | BlockStatement body => BlockStatement (map traverseStatement body)
  | FunctionDeclaration id params body =>
      FunctionDeclaration id params (map traverseStatement body)
  | ExpressionStatement _ | ReturnStatement _ => s
  end.

Definition constsToLets (ast : File) : File :=
  {| program := map traverseStatement (program ast); globals := globals ast |}.

(** [let a = 1; var b = a;]: a program without [const]. *)
Definition letVarFile : File :=
  {| program :=
       [VariableDeclaration (js "let")
          [variableDeclarator (Identifier (js "a")) (Some (NumericLiteral (js "1")))];
        VariableDeclaration (js "var")
          [variableDeclarator (Identifier (js "b")) (Some (Identifier (js "a")))]];
     globals := [] |}.

End ConstsToLets.

(** * Properties *)

(** ** The profit calculator *)

Section ProfitCalculatorFacts.

Import ProfitCalculator.
Local Open Scope Z_scope.




End ProfitCalculatorFacts.

(** ** Lists: numbering and the stable sort *)

Section ListFacts.

Import Ast.
Context {A B : Type}.

Lemma elem_of_number (f : A -> nat -> B) (l : list A) (i : nat) (b : B) :
  b ∈ number f l i -> exists a j, a ∈ l /\ b = f a j.
Proof.
  revert i. induction l as [|a l IH]; intros i Hb; simpl in Hb.
  - inversion Hb.
  - apply elem_of_cons in Hb as [-> | Hb].
    + exists a, i. split; [left | reflexivity].
    + destruct (IH _ Hb) as (a' & j & Ha' & ->).
      exists a', j. split; [right; assumption | reflexivity].
Qed.

Lemma length_number (f : A -> nat -> B) (l : list A) (i : nat) :
  length (number f l i) = length l.
Proof. revert i. induction l as [|a l IH]; intros i; simpl; [|rewrite IH]; reflexivity. Qed.

Lemma sortInsert_perm (cmp : A -> A -> Z) (x : A) (l : list A) :
  sortInsert cmp x l ≡ₚ x :: l.
Proof.
  induction l as [|y l IH]; simpl; [reflexivity|].
  destruct (cmp x y <=? 0)%Z; [reflexivity|].
  rewrite IH. apply Permutation_swap.
Qed.

Lemma sort_perm (cmp : A -> A -> Z) (l : list A) : sort cmp l ≡ₚ l.
Proof.
  induction l as [|x l IH]; simpl; [reflexivity|].
  rewrite sortInsert_perm, IH. reflexivity.
Qed.

Lemma elem_of_sort (cmp : A -> A -> Z) (l : list A) (x : A) :
  x ∈ sort cmp l <-> x ∈ l.
Proof. rewrite sort_perm. reflexivity. Qed.

Lemma length_sort (cmp : A -> A -> Z) (l : list A) : length (sort cmp l) = length l.
Proof. rewrite sort_perm. reflexivity. Qed.

End ListFacts.

Section SortFacts.

Import Ast.
Context {A : Type} (key : A -> Z).

Lemma sortInsert_descending (x : A) (l : list A) :
  StronglySorted (fun a b => (key b <= key a)%Z) l ->
  StronglySorted (fun a b => (key b <= key a)%Z) (sortInsert (descending key) x l).
Proof.
  induction l as [|y l IH]; intros Hs; cbn [sortInsert].
  - repeat constructor.
  - apply StronglySorted_inv in Hs as [Hs Hy]. unfold descending at 1.
    destruct (Z.leb_spec (key y - key x) 0) as [Hle | Hgt].
    + constructor; [constructor; assumption|].
      constructor; [lia|]. eapply Forall_impl; [exact Hy|]. cbn. lia.
    + constructor; [apply IH, Hs|].
      apply list.Forall_forall. intros z Hz.
      rewrite sortInsert_perm in Hz.
      apply elem_of_cons in Hz as [-> | Hz]; [lia|].
      rewrite list.Forall_forall in Hy. apply Hy, Hz.
Qed.

Lemma sort_descending (l : list A) :
  StronglySorted (fun a b => (key b <= key a)%Z) (sort (descending key) l).
Proof.
  induction l as [|x l IH]; [constructor|]. apply sortInsert_descending, IH.
Qed.

(** The sort is stable: elements with the same count keep their order. *)
Lemma sortInsert_stable (k : Z) (x : A) (l : list A) :
  StronglySorted (fun a b => (key b <= key a)%Z) l ->
  filter (fun a => key a = k) (sortInsert (descending key) x l)
  = filter (fun a => key a = k) (x :: l).
Proof.
  induction l as [|y l IH]; intros Hs; cbn [sortInsert]; [reflexivity|].
  apply StronglySorted_inv in Hs as [Hs Hy]. unfold descending at 1.
  destruct (Z.leb_spec (key y - key x) 0) as [Hle | Hgt]; [reflexivity|].
  rewrite (filter_cons _ y), (IH Hs), !(filter_cons _ x), (filter_cons _ y).
  destruct (decide (key y = k)) as [Hyk | Hyk]; [|reflexivity].
  destruct (decide (key x = k)) as [Hxk | Hxk]; [lia | reflexivity].
Qed.

Lemma sort_stable (k : Z) (l : list A) :
  filter (fun a => key a = k) (sort (descending key) l) = filter (fun a => key a = k) l.
Proof.
  induction l as [|x l IH]; [reflexivity|].
  cbn [sort fold_right]. fold (sort (descending key) l).
  rewrite sortInsert_stable by apply sort_descending.
  rewrite !(filter_cons _ x), IH. reflexivity.
Qed.

End SortFacts.

(** ** The global hoister *)

Section HoistGlobalsFacts.

Import Ast HoistGlobals.

Lemma has_true (s : gset jsstring) (x : jsstring) : has s x = true <-> x ∈ s.
Proof. unfold has. apply bool_decide_eq_true. Qed.

Lemma has_false (s : gset jsstring) (x : jsstring) : has s x = false <-> x ∉ s.
Proof. unfold has. apply bool_decide_eq_false. Qed.

Lemma names_pushReference (u : list GlobalInfo) (n : jsstring) (p : IdentifierPath) :
  map name (pushReference u n p) =
    if bool_decide (n ∈ map name u) then map name u else map name u ++ [n].
Proof.
  induction u as [|i u IH].
  - reflexivity.
  - cbn [pushReference map].
    destruct (bool_decide_reflect (name i = n)) as [Heq | Hne].
    + rewrite bool_decide_eq_true_2; [reflexivity | rewrite Heq; left].
    + cbn [map]. rewrite IH.
      destruct (bool_decide_reflect (n ∈ map name u)) as [Hin | Hnin].
      * rewrite bool_decide_eq_true_2; [reflexivity | right; assumption].
      * rewrite bool_decide_eq_false_2; [reflexivity|].
        intros [Heq | Hin]%elem_of_cons; [congruence | contradiction].
Qed.

Lemma elem_of_pushReference (u : list GlobalInfo) (n : jsstring) (p : IdentifierPath)
    (i' : GlobalInfo) :
  NoDup (map name u) ->
  i' ∈ pushReference u n p ->
  (i' ∈ u /\ name i' <> n) \/
  (name i' = n /\
   ((exists i, i ∈ u /\ name i = n /\ references i' = references i ++ [p]) \/
    ((n ∉ map name u) /\ references i' = [p]))).
Proof.
  induction u as [|i u IH]; intros Hnd.
  - intros ->%list_elem_of_singleton. right. split; [reflexivity|].
    right. split; [apply not_elem_of_nil | reflexivity].
  - cbn [pushReference]. cbn [map] in Hnd. apply NoDup_cons in Hnd as [Hi Hnd].
    destruct (bool_decide_reflect (name i = n)) as [Heq | Hne].
    + intros [-> | Hin]%elem_of_cons.
      * right. split; [assumption|]. left. exists i. repeat split; [left | assumption].
      * left. split; [right; assumption|].
        intros Hn. apply Hi. rewrite Heq, <- Hn.
        apply list_elem_of_fmap. exists i'. split; [reflexivity | assumption].
    + intros [-> | Hin]%elem_of_cons.
      * left. split; [left | assumption].
      * destruct (IH Hnd Hin) as [[Hu Hn] | [Hn [(i0 & Hi0 & Hn0 & Hr) | [Hnin Hr]]]].
        -- left. split; [right; assumption | assumption].
        -- right. split; [assumption|]. left. exists i0.
           repeat split; [right; assumption | assumption | assumption].
        -- right. split; [assumption|]. right. split; [|assumption].
           cbn [map]. intros [Heq | Hin']%elem_of_cons; [congruence | contradiction].
Qed.

Lemma filter_none {A} (P : A -> Prop) `{forall x, Decision (P x)} (l : list A) :
  (forall x, x ∈ l -> ~ P x) -> filter P l = [].
Proof.
  induction l as [|x l IH]; intros Hall; [reflexivity|].
  rewrite filter_cons_False; [|apply Hall; left].
  apply IH. intros y Hy. apply Hall. right. assumption.
Qed.

(** What [globalUsage] holds once the references [l] have been pushed. *)
Definition usageOf (l : list IdentifierPath) (u : list GlobalInfo) : Prop :=
  NoDup (map name u) /\
  (forall p, p ∈ l -> pname p ∈ map name u) /\
  (forall i, i ∈ u -> references i = filter (fun p => pname p = name i) l).

Lemma usageOf_push (l : list IdentifierPath) (u : list GlobalInfo) (p : IdentifierPath) :
  usageOf l u -> usageOf (l ++ [p]) (pushReference u (pname p) p).
Proof.
  intros (Hnd & Hall & Hrefs). repeat split.
  - rewrite names_pushReference. case_bool_decide as Hin; [assumption|].
    apply NoDup_app. repeat split; [assumption | | apply NoDup_singleton].
    intros x Hx ->%list_elem_of_singleton. contradiction.
  - intros q Hq. rewrite names_pushReference.
    apply elem_of_app in Hq as [Hq | ->%list_elem_of_singleton].
    + specialize (Hall q Hq). case_bool_decide; [assumption|].
      apply elem_of_app. left. assumption.
    + case_bool_decide as Hin; [assumption|]. apply elem_of_app. right. left.
  - intros i Hi. rewrite filter_app.
    destruct (elem_of_pushReference _ _ _ _ Hnd Hi)
      as [[Hu Hn] | [Hn [(i0 & Hi0 & Hn0 & Hr) | [Hnin Hr]]]].
    + rewrite (Hrefs i Hu). rewrite (filter_cons_False _ p []); [|congruence].
      rewrite filter_nil, app_nil_r. reflexivity.
    + rewrite Hr, (Hrefs i0 Hi0), Hn, Hn0.
      rewrite (filter_cons_True _ p []); [|reflexivity].
      rewrite filter_nil. reflexivity.
    + rewrite Hr, Hn. rewrite (filter_cons_True _ p []); [|reflexivity].
      rewrite filter_nil.
      replace (filter (fun q => pname q = pname p) l) with (@nil IdentifierPath);
        [reflexivity|].
      symmetry. apply filter_none.
      intros q Hq Heq. apply Hnin. rewrite <- Heq. apply Hall. assumption.
Qed.

Lemma collectUsage_filter (T Y : gset jsstring) (l : list IdentifierPath)
    (u : list GlobalInfo) :
  fold_left
    (fun globalUsage path =>
       if negb (has T (pname path)) || has Y (pname path)
       then globalUsage
       else pushReference globalUsage (pname path) path)
    l u
  = fold_left (fun globalUsage path => pushReference globalUsage (pname path) path)
      (filter (fun p => pname p ∈ T /\ pname p ∉ Y) l) u.
Proof.
  revert u. induction l as [|p l IH]; intros u; [reflexivity|].
  cbn [fold_left]. rewrite IH.
  destruct (has T (pname p)) eqn:HT; destruct (has Y (pname p)) eqn:HY; cbn [negb orb].
  - rewrite filter_cons_False; [reflexivity|].
    intros [_ H]. apply H, has_true. assumption.
  - rewrite filter_cons_True; [reflexivity|].
    split; [apply has_true | apply has_false]; assumption.
  - rewrite filter_cons_False; [reflexivity|].
    intros [H _]. apply has_false in HT. contradiction.
  - rewrite filter_cons_False; [reflexivity|].
    intros [H _]. apply has_false in HT. contradiction.
Qed.

Lemma usageOf_fold (l : list IdentifierPath) :
  usageOf l
    (fold_left (fun globalUsage path => pushReference globalUsage (pname path) path) l []).
Proof.
  induction l as [|p l IH] using rev_ind.
  - repeat split; [apply NoDup_nil_2 | intros p Hp; inversion Hp | intros i Hi; inversion Hi].
  - rewrite fold_left_app. cbn [fold_left]. apply usageOf_push. assumption.
Qed.

Lemma elem_of_decisions (usage : list GlobalInfo) (acc : list GlobalDecision)
    (d : GlobalDecision) :
  d ∈ fold_left decideGlobal usage acc ->
  d ∈ acc \/ (info d ∈ usage /\ 2 <= length (references (info d))).
Proof.
  revert acc. induction usage as [|i usage IH]; intros acc; cbn [fold_left].
  - intros H. left. assumption.
  - intros H. apply IH in H as [H | [H1 H2]].
    + unfold decideGlobal in H.
      destruct (Nat.ltb_spec (length (references i)) 2); [left; assumption|].
      destruct (num_gt _ 0); [|left; assumption].
      apply elem_of_app in H as [H | ->%list_elem_of_singleton]; [left; assumption|].
      right. split; [left | assumption].
    + right. split; [right; assumption | assumption].
Qed.

(** C1, as the code has it: a global is hoisted only when it is recorded in
    the program scope's globals, never appears as the operand of a [typeof],
    is not one of the contextual keywords, and occurs at least twice as the
    object of a member expression, dot or computed. In particular no
    identifier that is ever a [typeof] argument is hoisted. *)
Theorem hoistGlobals_only_when (file : File) (g : jsstring) :
  hoisted g file ->
  g ∈ globals file /\
  ~ typeofGuarded g (program file) /\
(g ∉ RESERVED_KEYWORDS) /\
  2 <= length (memberObjectUses g (program file)).
Proof.
  intros (h & Hh & Hg). unfold hoistGlobals in Hh.
  case_bool_decide as Hempty; [inversion Hh|].
  cbn [hoistedGlobals] in Hh.
  apply elem_of_number in Hh as (d & j & Hd & ->). cbn [globalName] in Hg.
  apply elem_of_sort in Hd.
  apply elem_of_decisions in Hd. destruct Hd as [Hd | Hd]; [inversion Hd|].
  destruct Hd as [Hinfo Hlen].
  unfold collectUsage in Hinfo. rewrite collectUsage_filter in Hinfo.
  match type of Hinfo with context [fold_left _ ?l []] =>
    destruct (usageOf_fold l) as (_ & _ & Hrefs) end.
  specialize (Hrefs _ Hinfo). rewrite Hg in Hrefs.
  rewrite !list_filter_filter in Hrefs.
  assert (Hne : exists p, p ∈ references (info d)).
  { destruct (references (info d)) as [|p r]; [simpl in Hlen; lia|]. exists p. left. }
  destruct Hne as (p & Hp). rewrite Hrefs in Hp.
  apply list_elem_of_filter in Hp as (((Hpn & HT & HY) & HM) & Hp).
  apply andb_true_iff in HM as [HM HR]. apply negb_true_iff, has_false in HR.
  rewrite Hpn in HT, HY, HR.
  assert (Htypeof : ~ typeofGuarded g (program file)).
  { intros (q & Hq & Hqn & Hqt). apply HY.
    apply elem_of_list_to_set, list_elem_of_fmap. exists q. split; [congruence|].
    apply list_elem_of_filter. split; assumption. }
  repeat split.
  - apply elem_of_list_to_set in HT. assumption.
  - assumption.
  - assumption.
  - rewrite Hrefs in Hlen. unfold memberObjectUses.
    erewrite list_filter_iff; [exact Hlen|].
    intros q. cbn beta. split.
    + intros [Hqn HqM]. repeat split; [assumption | congruence | congruence |].
      rewrite HqM, Hqn. apply andb_true_iff. split; [reflexivity|].
      apply negb_true_iff, has_false. assumption.
    + intros ((Hqn & _) & HqM). apply andb_true_iff in HqM as [HqM _].
      split; assumption.
Qed.

End HoistGlobalsFacts.

Section HoistGlobalsExamples.

Import Ast HoistGlobals.

Lemma computedAccessFile_hoisted :
  hoistedGlobals (hoistGlobals computedAccessFile) =
    [{| hname := js "__niu_global_0__";
        globalName := js "localStorage";
        occurrences := 3 |}].
Proof. vm_compute. reflexivity. Qed.

Lemma hoistGlobals_only_when_localStorage :
  hoisted (js "localStorage") computedAccessFile /\
  (js "localStorage" ∈ globals computedAccessFile /\
   ~ typeofGuarded (js "localStorage") (program computedAccessFile) /\
   (js "localStorage" ∉ RESERVED_KEYWORDS) /\
   2 <= length (memberObjectUses (js "localStorage") (program computedAccessFile))).
Proof.
  assert (H : hoisted (js "localStorage") computedAccessFile).
  { eexists. rewrite computedAccessFile_hoisted. split; [left | reflexivity]. }
  split; [exact H | exact (hoistGlobals_only_when _ _ H)].
Defined.

(** C1, as the specification has it, fails: three computed accesses
    [localStorage[a]; localStorage[b]; localStorage[c]] get the global hoisted
    although it is never the object of a dot access. *)
Lemma hoistGlobals_computed_access_counterexample :
  ~ (hoisted (js "localStorage") computedAccessFile ->
     js "localStorage" ∈ globals computedAccessFile /\
     ~ typeofGuarded (js "localStorage") (program computedAccessFile) /\
     2 <= length (dotObjectUses (js "localStorage") (program computedAccessFile))).
Proof.
  intros H.
  assert (Hh : hoisted (js "localStorage") computedAccessFile).
  { eexists. rewrite computedAccessFile_hoisted. split; [left | reflexivity]. }
  destruct (H Hh) as (_ & _ & Hlen).
  vm_compute in Hlen. lia.
Qed.

Example typeofGuardedFile_unchanged :
  hoistGlobals typeofGuardedFile = {| ast := typeofGuardedFile; hoistedGlobals := [] |}.
Proof. vm_compute. reflexivity. Qed.

Example computedAccessFile_rewritten :
  program (ast (hoistGlobals computedAccessFile)) =
    [VariableDeclaration (js "const")
       [variableDeclarator (Identifier (js "__niu_global_0__"))
                           (Some (Identifier (js "localStorage")))];
     ExpressionStatement
       (MemberExpression (Identifier (js "__niu_global_0__")) (Identifier (js "a")) true);
     ExpressionStatement
       (MemberExpression (Identifier (js "__niu_global_0__")) (Identifier (js "b")) true);
     ExpressionStatement
       (MemberExpression (Identifier (js "__niu_global_0__")) (Identifier (js "c")) true)].
Proof. vm_compute. reflexivity. Qed.

End HoistGlobalsExamples.

(** ** JavaScript strings *)

Section StringFacts.

Lemma codePoints_cons_single (c : N) (s : jsstring) :
  isHighSurrogate c = false -> codePoints (c :: s) = [c] :: codePoints s.
Proof. intros Hc. destruct s as [|lo s]; simpl; [|rewrite Hc]; reflexivity. Qed.

Lemma codePoints_cons_cons (hi lo : N) (s : jsstring) :
  codePoints (hi :: lo :: s) =
    if isHighSurrogate hi && isLowSurrogate lo
    then [hi; lo] :: codePoints s
    else [hi] :: codePoints (lo :: s).
Proof. reflexivity. Qed.

(** A character that is no surrogate stays a code point of its own. *)
Lemma codePoints_app_single (c : N) (s t : jsstring) :
  notSurrogate c ->
  codePoints (s ++ c :: t) = codePoints s ++ [c] :: codePoints t.
Proof.
  intros [Hhi Hlo].
  remember (length s) as n eqn:Hn. revert s Hn.
  induction n as [n IH] using lt_wf_ind. intros s Hn.
  destruct s as [|hi [|lo s]].
  - apply codePoints_cons_single. assumption.
  - change ([hi] ++ c :: t) with (hi :: c :: t).
    rewrite codePoints_cons_cons, Hlo, andb_false_r.
    rewrite codePoints_cons_single by assumption. reflexivity.
  - change ((hi :: lo :: s) ++ c :: t) with (hi :: lo :: (s ++ c :: t)).
    rewrite !codePoints_cons_cons.
    destruct (isHighSurrogate hi && isLowSurrogate lo).
    + rewrite (IH (length s)); [reflexivity | simpl in Hn; lia | reflexivity].
    + change (lo :: s ++ c :: t) with ((lo :: s) ++ c :: t).
      rewrite (IH (length (lo :: s))); [reflexivity | simpl in *; lia | reflexivity].
Qed.

Lemma codePoints_elem (p : jsstring) (s : jsstring) (c : N) :
  p ∈ codePoints s -> c ∈ p -> c ∈ s.
Proof.
  remember (length s) as n eqn:Hn. revert s Hn.
  induction n as [n IH] using lt_wf_ind. intros s Hn.
  destruct s as [|hi [|lo s]].
  - intros H. inversion H.
  - intros ->%list_elem_of_singleton Hc. assumption.
  - rewrite codePoints_cons_cons. destruct (isHighSurrogate hi && isLowSurrogate lo).
    + intros [-> | Hp]%elem_of_cons Hc.
      * apply elem_of_cons in Hc as [-> | ->%list_elem_of_singleton];
          [left | right; left].
      * right. right. eapply (IH (length s)); [simpl in Hn; lia | reflexivity | eassumption | assumption].
    + intros [-> | Hp]%elem_of_cons Hc.
      * apply list_elem_of_singleton in Hc as ->. left.
      * right. eapply (IH (length (lo :: s))); [simpl in *; lia | reflexivity | eassumption | assumption].
Qed.

Lemma codePoints_single (c : N) (s : jsstring) :
  notSurrogate c -> [c] ∈ codePoints s <-> c ∈ s.
Proof.
  intros Hc. split.
  - intros H. eapply codePoints_elem; [eassumption | left].
  - intros (s1 & s2 & ->)%list_elem_of_split.
    rewrite codePoints_app_single by assumption.
    apply elem_of_app. right. left.
Qed.





End StringFacts.

(** ** The duplicate-literal hoister: delimiter and emission *)

Section DelimiterFacts.

Import Ast HoistDuplicateLiterals.

Lemma find_map_ext {A B} (g : A -> B) (f : B -> bool) (f' : A -> bool) (l : list A) :
  (forall x, x ∈ l -> f (g x) = f' x) ->
  find f (map g l) = g <$> find f' l.
Proof.
  induction l as [|x l IH]; intros Hext; [reflexivity|].
  cbn [map find]. rewrite (Hext x) by left.
  destruct (f' x); [reflexivity|].
  apply IH. intros y Hy. apply Hext. right. assumption.
Qed.

Lemma find_some_elem {A} (f : A -> bool) (l : list A) (x : A) :
  find f l = Some x -> x ∈ l /\ f x = true.
Proof.
  intros H. apply find_some in H as [Hin Hf].
  split; [apply list_elem_of_In|]; assumption.
Qed.

Lemma safeDelimiter_true (c : N) :
  safeDelimiter c = true -> notSurrogate c /\ quoteCodePoint [c] = [c].
Proof.
  unfold safeDelimiter, notSurrogate.
  intros [[Hhi Hlo]%andb_true_iff Hq%bool_decide_eq_true]%andb_true_iff.
  apply negb_true_iff in Hhi, Hlo. auto.
Qed.

Lemma has_allChars (strings : list jsstring) (c : N) :
  notSurrogate c ->
  has (list_to_set (flat_map codePoints strings)) [c]
  = occursIn c strings.
Proof.
  intros Hc. apply eq_true_iff_eq. unfold has, occursIn.
  rewrite bool_decide_eq_true, elem_of_list_to_set, list_elem_of_In, in_flat_map.
  rewrite existsb_exists. split.
  - intros (s & Hs & Hp). exists s. split; [assumption|].
    apply existsb_exists. exists c. split; [|apply N.eqb_refl].
    apply list_elem_of_In, codePoints_single; [assumption|].
    apply list_elem_of_In. assumption.
  - intros (s & Hs & (c' & Hc' & ->%N.eqb_eq)%existsb_exists).
    exists s. split; [assumption|].
    apply list_elem_of_In, codePoints_single; [assumption|].
    apply list_elem_of_In. assumption.
Qed.

Lemma preferred_codePoints : codePoints preferred = map (fun c => [c]) preferred.
Proof. vm_compute. reflexivity. Qed.

Lemma preferred_safe : forallb safeDelimiter preferred = true.
Proof. vm_compute. reflexivity. Qed.

Lemma printable_safe :
  forallb (fun c => isEscapeTrigger c || safeDelimiter c) printableAscii = true.
Proof. vm_compute. reflexivity. Qed.

Lemma printable_fromCharCode :
  map String_fromCharCode (seq 32 95) = map (fun c => [c]) printableAscii.
Proof. unfold printableAscii. rewrite map_map. reflexivity. Qed.

Lemma needsEscaping_single (c : N) : needsEscaping [c] = isEscapeTrigger c.
Proof.
  unfold needsEscaping, isEscapeTrigger, charCodeAt0, codeIs. cbn [head].
  assert (Hd : forall k, bool_decide ([c] = [k]) = (c =? k)%N).
  { intros k. destruct (N.eqb_spec c k) as [-> | Hne].
    - apply bool_decide_eq_true_2. reflexivity.
    - apply bool_decide_eq_false_2. congruence. }
  change (js "'") with [39%N]. rewrite !Hd.
  destruct (c =? 34)%N, (c =? 39)%N, (c =? 92)%N, (c =? 13)%N, (c =? 10)%N,
    (c =? 0x2028)%N, (c =? 0x2029)%N; reflexivity.
Qed.

Lemma findDelimiter_delimiterSpec (strings : list jsstring) :
  findDelimiter strings = (fun c => [c]) <$> delimiterSpec strings.
Proof.
  unfold findDelimiter, delimiterSpec.
  rewrite preferred_codePoints, printable_fromCharCode.
  rewrite (find_map_ext _ _ (fun c => negb (occursIn c strings))).
  2:{ intros c Hc. rewrite has_allChars; [reflexivity|].
      pose proof preferred_safe as Hs. rewrite forallb_forall in Hs.
      apply safeDelimiter_true, Hs, list_elem_of_In, Hc. }
  destruct (find _ preferred) as [c|]; [reflexivity|].
  apply find_map_ext. intros c Hc. rewrite needsEscaping_single.
  pose proof printable_safe as Hs. rewrite forallb_forall in Hs.
  specialize (Hs c ltac:(apply list_elem_of_In, Hc)).
  destruct (isEscapeTrigger c); [reflexivity|]. cbn [orb negb andb] in *.
  rewrite has_allChars; [reflexivity|]. apply safeDelimiter_true, Hs.
Qed.


Lemma stringDeclaration_cases (stringBindings : list HoistedBinding) :
  stringDeclaration stringBindings =
    match findDelimiter (values stringBindings) with
    | Some delimiter =>
        if (7 <=? length stringBindings)%nat
        then
          VariableDeclaration (js "let")
            [variableDeclarator
               (ArrayPattern (map (fun b => Identifier (bname b)) stringBindings))
               (Some (CallExpression
                        (MemberExpression
                           (StringLiteral (join delimiter (values stringBindings)))
                           (Identifier (js "split")) false)
                        [StringLiteral delimiter]))]
        else VariableDeclaration (js "const") (map declarator stringBindings)
    | None => VariableDeclaration (js "const") (map declarator stringBindings)
    end.
Proof.
  unfold stringDeclaration, isSplitProfitable. fold (values stringBindings).
  destruct (Nat.ltb_spec 0 (length stringBindings)) as [Hpos | Hzero].
  - destruct (findDelimiter (values stringBindings)) as [d|].
    + rewrite bool_decide_eq_true_2 by discriminate. rewrite andb_true_r.
      destruct (7 <=? length stringBindings)%nat; reflexivity.
    + rewrite andb_false_r. reflexivity.
  - rewrite andb_false_r.
    destruct (Nat.leb_spec 7 (length stringBindings)); [lia|].
    destruct (findDelimiter (values stringBindings)); reflexivity.
Qed.

End DelimiterFacts.

Section EmissionFacts.

Import Ast HoistDuplicateLiterals.

(** C8: the delimiter is the first character of the preference string that
    occurs in none of the strings; when all of them occur it is the first
    printable ASCII character (32 to 126) that is no escape trigger and occurs
    in none; when there is no such character either, no delimiter is found
    and the strings are declared in one multi-declarator [const]. *)
Theorem findDelimiter_preference (strings : list jsstring) :
  findDelimiter strings = (fun c => [c]) <$> delimiterSpec strings /\
  forall stringBindings,
    findDelimiter (values stringBindings) = None ->
    stringDeclaration stringBindings =
      VariableDeclaration (js "const") (map declarator stringBindings).
Proof.
  split; [apply findDelimiter_delimiterSpec|].
  intros stringBindings Hnone.
  rewrite stringDeclaration_cases, Hnone. reflexivity.
Qed.

Lemma findDelimiter_preference_allPrintable :
  findDelimiter
    (values [{| bname := js "a"; bvalue := StringLiteral allPrintable; boccurrences := 2 |}])
    = None /\
  stringDeclaration
    [{| bname := js "a"; bvalue := StringLiteral allPrintable; boccurrences := 2 |}]
  = VariableDeclaration (js "const")
      [variableDeclarator (Identifier (js "a")) (Some (StringLiteral allPrintable))].
Proof.
  assert (H : findDelimiter
    (values [{| bname := js "a"; bvalue := StringLiteral allPrintable; boccurrences := 2 |}])
    = None) by (vm_compute; reflexivity).
  split; [exact H|].
  exact (proj2 (findDelimiter_preference []) _ H).
Defined.






(** The declaration of the strings is the first one the pass puts in front
    of the program. *)
Lemma emitDeclarations_strings (hoistedLiteralBindings : list HoistedBinding) :
  List.filter (fun b => isStringLiteral (bvalue b)) hoistedLiteralBindings <> [] ->
  exists rest,
    emitDeclarations hoistedLiteralBindings =
      stringDeclaration
        (List.filter (fun b => isStringLiteral (bvalue b)) hoistedLiteralBindings)
      :: rest.
Proof.
  intros Hne. unfold emitDeclarations.
  destruct hoistedLiteralBindings as [|b bs]; [contradiction Hne; reflexivity|].
  cbn [length Nat.ltb Nat.leb].
  destruct (List.filter _ (b :: bs)) as [|s ss]; [congruence|].
  cbn [length Nat.ltb Nat.leb app]. eexists. reflexivity.
Qed.


End EmissionFacts.

(** ** The duplicate-literal hoister: the first declaration *)

Section FirstSlotFacts.

Import Ast HoistDuplicateLiterals.

Lemma recoupsOverhead_false (c : StringCandidate) :
  recoupsOverhead c = false <->
  num_le (num_sub (cprofit c) FIRST_DECL_OVERHEAD) 0 = true.
Proof.
  unfold recoupsOverhead. destruct (cprofit c) as [|z]; cbn [num_sub num_gt num_le].
  - split; reflexivity.
  - rewrite Z.gtb_ltb, Z.ltb_ge, Z.leb_le. reflexivity.
Qed.

Lemma firstSlot_after (l : list StringCandidate)
    (decisions : list SelectiveStringHoistDecision) (skipped : list StringCandidate) :
  decisions <> [] ->
  fold_left firstSlotStep l (decisions, skipped) = (decisions ++ map decisionOf l, skipped).
Proof.
  revert decisions. induction l as [|c l IH]; intros decisions Hne.
  - rewrite app_nil_r. reflexivity.
  - cbn [fold_left map]. unfold firstSlotStep at 2.
    destruct decisions as [|d decisions]; [congruence|]. cbn [length Nat.eqb].
    rewrite IH by (destruct decisions; discriminate).
    rewrite <- app_assoc. reflexivity.
Qed.

Lemma firstSlot_before (l : list StringCandidate) (skipped : list StringCandidate) :
  fold_left firstSlotStep l ([], skipped) =
    (map decisionOf (snd (firstAccepted l)),
     skipped ++ List.filter profitableAlone (fst (firstAccepted l))).
Proof.
  revert skipped. induction l as [|c l IH]; intros skipped.
  - cbn. rewrite app_nil_r. reflexivity.
  - cbn [fold_left firstAccepted]. unfold firstSlotStep at 2. cbn [length Nat.eqb].
    destruct (recoupsOverhead c) eqn:Hc.
    + assert (Hle : num_le (num_sub (cprofit c) FIRST_DECL_OVERHEAD) 0 = false).
      { destruct (num_le _ 0) eqn:H; [|reflexivity].
        apply recoupsOverhead_false in H. congruence. }
      rewrite Hle. cbn [app]. rewrite firstSlot_after by discriminate.
      cbn [fst snd List.filter map app]. rewrite app_nil_r. reflexivity.
    + apply recoupsOverhead_false in Hc. rewrite Hc.
      destruct (firstAccepted l) as [tried accepted] eqn:Hl.
      cbn [fst snd List.filter]. fold (profitableAlone c).
      destruct (profitableAlone c).
      * rewrite IH. cbn [fst snd]. rewrite <- app_assoc. reflexivity.
      * rewrite IH. reflexivity.
Qed.

Lemma firstAccepted_split (l : list StringCandidate) :
  l = fst (firstAccepted l) ++ snd (firstAccepted l) /\
  Forall (fun c => recoupsOverhead c = false) (fst (firstAccepted l)) /\
  match snd (firstAccepted l) with
  | c :: _ => recoupsOverhead c = true
  | [] => True
  end.
Proof.
  induction l as [|c l (IH1 & IH2 & IH3)]; [repeat split; constructor|].
  cbn [firstAccepted]. destruct (recoupsOverhead c) eqn:Hc.
  - repeat split; [constructor | assumption].
  - destruct (firstAccepted l) as [tried accepted]. cbn [fst snd] in *.
    repeat split; [rewrite IH1 at 1; reflexivity | constructor; assumption | assumption].
Qed.


Example firstSlotExample_decisions :
  map cprofit firstSlotExample = [Num 4; Num 14] /\
  map svalue (decideStrings firstSlotExample) = [js "a"; js "hello"].
Proof. vm_compute. split; reflexivity. Qed.

(** The scenarios of the specification: three copies of ["abc"] stay, four
    are hoisted; ten [obj.something] are rewritten, ten [obj.x] are not. *)
Example string_break_even :
  stringDecisionsOf [(js "abc", literalUsage [0; 1; 2])] = [] /\
  map svalue (stringDecisionsOf [(js "abc", literalUsage [0; 1; 2; 3])]) = [js "abc"].
Proof. vm_compute. split; reflexivity. Qed.

Example dot_access_scenarios :
  map (fun d => (svalue d, sHoistPropertyAccess d))
      (stringDecisionsOf [(js "something", dotUsage (seq 0 10))])
  = [(js "something", true)] /\
  stringDecisionsOf [(js "x", dotUsage (seq 0 10))] = [].
Proof. vm_compute. split; reflexivity. Qed.

End FirstSlotFacts.

(** ** The mangler: names *)

Section IndexToNameFacts.

Import MangleIdentifiers.

Lemma CHARS_length : length CHARS = 54.
Proof. reflexivity. Qed.

Lemma CHARS_NoDup : NoDup CHARS.
Proof. apply (bool_decide_eq_true_1 (NoDup CHARS)). vm_compute. reflexivity. Qed.

Lemma indexOf_nth (l : list N) (i : nat) (c : N) :
  NoDup l -> nth_error l i = Some c -> indexOf c l = i.
Proof.
  revert i. induction l as [|x l IH]; intros i Hnd Hi.
  - destruct i; discriminate.
  - apply NoDup_cons in Hnd as [Hx Hnd]. destruct i as [|i]; cbn [nth_error indexOf] in *.
    + injection Hi as ->. rewrite N.eqb_refl. reflexivity.
    + destruct (N.eqb_spec x c) as [-> | _].
      * exfalso. apply Hx, list_elem_of_In. eapply nth_error_In. eassumption.
      * f_equal. apply IH; assumption.
Qed.

Lemma nth_indexOf (l : list N) (c : N) :
  c ∈ l -> nth_error l (indexOf c l) = Some c.
Proof.
  induction l as [|x l IH]; intros Hc; [inversion Hc|].
  cbn [indexOf]. destruct (N.eqb_spec x c) as [-> | Hne]; [reflexivity|].
  apply elem_of_cons in Hc as [-> | Hc]; [congruence|]. apply IH. assumption.
Qed.

Lemma indexOf_lt (l : list N) (c : N) : c ∈ l -> indexOf c l < length l.
Proof.
  intros Hc. apply nth_error_Some. rewrite nth_indexOf by assumption. discriminate.
Qed.

Lemma charAt_lt (i : nat) :
  i < base -> exists c, charAt i = [c] /\ c ∈ CHARS /\ indexOf c CHARS = i.
Proof.
  intros Hi. unfold charAt.
  destruct (nth_error CHARS i) as [c|] eqn:Hc.
  - exists c. repeat split.
    + apply list_elem_of_In. eapply nth_error_In. eassumption.
    + apply indexOf_nth; [apply CHARS_NoDup | assumption].
  - apply nth_error_None in Hc. rewrite CHARS_length in Hc. unfold base in Hi. lia.
Qed.

Lemma indexToName_loop_unfold (remaining : nat) (result : jsstring) :
  indexToName_loop remaining result =
    if (remaining <? base)%nat then charAt remaining ++ result
    else indexToName_loop (remaining / base - 1) (charAt (remaining mod base) ++ result).
Proof.
  rewrite indexToName_loop_equation_1. unfold indexToName_loop_unfold_clause_1.
  destruct (lt_dec remaining base) as [Hlt | Hge].
  - apply Nat.ltb_lt in Hlt. rewrite Hlt. reflexivity.
  - apply Nat.ltb_nlt in Hge. rewrite Hge. reflexivity.
Qed.

Lemma div_base_lt (r : nat) : base <= r -> r / base - 1 < r.
Proof.
  intros Hr. unfold base in *.
  assert (r / 54 <= r) by (apply Nat.Div0.div_le_upper_bound; lia). lia.
Qed.

Lemma indexToName_loop_app (remaining : nat) (result : jsstring) :
  indexToName_loop remaining result = indexToName_loop remaining [] ++ result.
Proof.
  revert result. induction remaining as [r IH] using lt_wf_ind. intros result.
  rewrite (indexToName_loop_unfold r result), (indexToName_loop_unfold r []).
  destruct (Nat.ltb_spec r base) as [Hlt | Hge].
  - rewrite app_nil_r. reflexivity.
  - rewrite (IH _ (div_base_lt r Hge) (_ ++ result)).
    rewrite (IH _ (div_base_lt r Hge) (_ ++ [])).
    rewrite app_nil_r, app_assoc. reflexivity.
Qed.

(** [indexToName] is the loop started on the index itself. *)
Lemma indexToName_loop_index (index : nat) :
  indexToName index = indexToName_loop index [].
Proof.
  unfold indexToName. rewrite (indexToName_loop_unfold index []).
  destruct (Nat.ltb_spec index base) as [Hlt | Hge]; [rewrite app_nil_r; reflexivity|].
  rewrite app_nil_r. unfold base in *.
  replace ((index - 54) mod 54) with (index mod 54).
  2:{ replace index with ((index - 54) + 1 * 54) at 1 by lia.
      rewrite Nat.Div0.mod_add. reflexivity. }
  replace ((index - 54) / 54) with (index / 54 - 1).
  2:{ replace index with ((index - 54) + 1 * 54) at 1 by lia.
      rewrite Nat.div_add by lia. lia. }
  reflexivity.
Qed.

Lemma indexToName_step (index : nat) :
  base <= index ->
  indexToName index = indexToName (index / base - 1) ++ charAt (index mod base).
Proof.
  intros Hge. rewrite !indexToName_loop_index.
  rewrite (indexToName_loop_unfold index []).
  destruct (Nat.ltb_spec index base) as [Hlt | _]; [lia|].
  rewrite indexToName_loop_app, app_nil_r. reflexivity.
Qed.

Lemma indexToName_small (index : nat) : index < base -> indexToName index = charAt index.
Proof. intros Hlt. unfold indexToName. apply Nat.ltb_lt in Hlt. rewrite Hlt. reflexivity. Qed.

Lemma nameValue_app (s : jsstring) (c : N) :
  nameValue (s ++ [c]) = nameValue s * base + S (indexOf c CHARS).
Proof. unfold nameValue. rewrite fold_left_app. reflexivity. Qed.

Lemma nameValue_indexToName (index : nat) : nameValue (indexToName index) = S index.
Proof.
  induction index as [i IH] using lt_wf_ind.
  destruct (Nat.lt_ge_cases i base) as [Hlt | Hge].
  - rewrite indexToName_small by assumption.
    destruct (charAt_lt i Hlt) as (c & -> & _ & Hc).
    change [c] with ([] ++ [c]). rewrite nameValue_app, Hc. reflexivity.
  - rewrite indexToName_step by assumption.
    assert (Hmod : i mod base < base) by (apply Nat.mod_upper_bound; discriminate).
    destruct (charAt_lt _ Hmod) as (c & -> & _ & Hc).
    rewrite nameValue_app, Hc, (IH _ (div_base_lt i Hge)).
    pose proof (Nat.div_mod_eq i base) as Hdm.
    assert (1 <= i / base).
    { apply Nat.div_le_lower_bound; [discriminate | lia]. }
    nia.
Qed.

Lemma indexToName_inj (i j : nat) : indexToName i = indexToName j -> i = j.
Proof.
  intros H. apply (f_equal nameValue) in H.
  rewrite !nameValue_indexToName in H. congruence.
Qed.

Lemma indexToName_overCHARS (index : nat) : overCHARS (indexToName index).
Proof.
  induction index as [i IH] using lt_wf_ind.
  destruct (Nat.lt_ge_cases i base) as [Hlt | Hge].
  - rewrite indexToName_small by assumption.
    destruct (charAt_lt i Hlt) as (c & -> & Hin & _).
    split; [discriminate | apply Forall_singleton; assumption].
  - rewrite indexToName_step by assumption.
    assert (Hmod : i mod base < base) by (apply Nat.mod_upper_bound; discriminate).
    destruct (charAt_lt _ Hmod) as (c & -> & Hin & _).
    destruct (IH _ (div_base_lt i Hge)) as [Hne Hall].
    split.
    + intros H. apply app_eq_nil in H as [_ H]. discriminate.
    + apply Forall_app. split; [assumption | apply Forall_singleton; assumption].
Qed.

Lemma nameValue_pos (s : jsstring) : s <> [] -> 1 <= nameValue s.
Proof.
  destruct s as [|c s _] using rev_ind; [congruence|]. intros _.
  rewrite nameValue_app. lia.
Qed.

Lemma indexToName_nameToIndex (s : jsstring) :
  overCHARS s -> indexToName (nameToIndex s) = s.
Proof.
  intros [Hne Hall]. unfold nameToIndex.
  induction s as [|c s IH] using rev_ind; [congruence|].
  apply Forall_app in Hall as [Hall Hc]. rewrite Forall_singleton in Hc.
  pose proof (indexOf_lt _ _ Hc) as Hlt. rewrite CHARS_length in Hlt.
  pose proof (nth_indexOf _ _ Hc) as Hnth.
  rewrite nameValue_app.
  destruct s as [|c' s'].
  - cbn [nameValue fold_left]. rewrite indexToName_small by (unfold base; lia).
    replace (0 * base + S (indexOf c CHARS) - 1) with (indexOf c CHARS) by lia.
    unfold charAt. rewrite Hnth. reflexivity.
  - specialize (IH ltac:(discriminate) Hall).
    pose proof (nameValue_pos (c' :: s') ltac:(discriminate)) as Hpos.
    set (v := nameValue (c' :: s')) in *.
    set (d := indexOf c CHARS) in *.
    assert (Hge : base <= v * base + S d - 1) by (unfold base; nia).
    rewrite indexToName_step by assumption.
    replace (v * base + S d - 1) with (d + v * base) by lia.
    rewrite Nat.div_add by discriminate. rewrite Nat.Div0.mod_add.
    rewrite (Nat.div_small d base), (Nat.mod_small d base) by (unfold base; lia).
    cbn [Nat.add]. rewrite IH. unfold charAt. fold d in Hnth. rewrite Hnth. reflexivity.
Qed.

End IndexToNameFacts.

Section IndexToNameBijection.

Import MangleIdentifiers.

(** C2, as the code has it: [indexToName] is a bijection from the natural
    numbers onto the non-empty strings over the 54 characters of [CHARS]
    (letters, [$] and [_], no digits), and the first 54 indices (0 to 53)
    give the single characters of [CHARS] in their order. *)
Theorem indexToName_bijection :
  (forall i j, indexToName i = indexToName j -> i = j) /\
  (forall i, overCHARS (indexToName i)) /\
  (forall s, overCHARS s -> exists i, indexToName i = s) /\
  CHARS = js "etaonirshldcumfpgwybvkxjqzETAONIRSHLDCUMFPGWYBVKXJQZ$_" /\
  length CHARS = 54 /\
  (forall i c, nth_error CHARS i = Some c -> indexToName i = [c]).
Proof.
  repeat split.
  - apply indexToName_inj.
  - apply indexToName_overCHARS.
  - apply indexToName_overCHARS.
  - intros s Hs. exists (nameToIndex s). apply indexToName_nameToIndex. assumption.
  - intros i c Hc.
    assert (Hlt : i < base).
    { unfold base. rewrite <- CHARS_length. apply nth_error_Some. congruence. }
    rewrite indexToName_small by assumption. unfold charAt. rewrite Hc. reflexivity.
Qed.

(** C2, as the specification has it, fails: index 54 is among the first 55
    and its name has two characters; and [e0], which the pass's own test of
    identifiers accepts, is the name of no index. *)
Lemma indexToName_54_counterexample :
  indexToName 54 = js "ee" /\
  ~ (forall i, i < 55 -> length (indexToName i) = 1) /\
  HoistDuplicateLiterals.isValidIdentifier (js "e0") = true /\
  forall i, indexToName i <> js "e0".
Proof.
  split; [vm_compute; reflexivity|]. split; [|split; [reflexivity|]].
  - intros H. specialize (H 54 ltac:(lia)). vm_compute in H. discriminate.
  - intros i Heq. destruct (indexToName_overCHARS i) as [_ Hall].
    rewrite Heq in Hall. apply Forall_cons in Hall as [_ Hall].
    apply Forall_cons in Hall as [Hin _].
    assert (Hnot : bool_decide (48%N ∈ CHARS) = false) by (vm_compute; reflexivity).
    apply bool_decide_eq_false in Hnot. apply Hnot, Hin.
Qed.

End IndexToNameBijection.

(** ** The mangler: the scoped name generator *)

Section GeneratorFacts.

Import MangleIdentifiers.

#[local] Instance indexToName_Inj : Inj (=) (=) indexToName.
Proof. intros i j. apply indexToName_inj. Qed.

Lemma next_some (fuel : nat) (reserved : gset jsstring) (index : nat)
    (name : jsstring) (index' : nat) :
  next fuel reserved index = Some (name, index') ->
  index < index' /\ name = indexToName (index' - 1) /\
  (name ∉ RESERVED_WORDS) /\ (name ∉ reserved).
Proof.
  revert index. induction fuel as [|fuel IH]; intros index; [discriminate|].
  cbn [next].
  destruct (has RESERVED_WORDS (indexToName index)) eqn:H1;
    [|destruct (has reserved (indexToName index)) eqn:H2];
    cbn [orb].
  - intros H. apply IH in H as (Hlt & Hn & Hr). repeat split; [lia | tauto | tauto | tauto].
  - intros H. apply IH in H as (Hlt & Hn & Hr). repeat split; [lia | tauto | tauto | tauto].
  - intros [= <- <-]. apply bool_decide_eq_false in H1, H2.
    repeat split; [lia | f_equal; lia | assumption | assumption].
Qed.

Lemma next_none (fuel : nat) (reserved : gset jsstring) (index : nat) :
  next fuel reserved index = None ->
  forall k, k < fuel -> indexToName (index + k) ∈ RESERVED_WORDS ∪ reserved.
Proof.
  revert index. induction fuel as [|fuel IH]; intros index Hnone k Hk; [lia|].
  cbn [next] in Hnone.
  destruct (has RESERVED_WORDS (indexToName index)
            || has reserved (indexToName index)) eqn:Hb;
    [|discriminate].
  destruct k as [|k].
  - rewrite Nat.add_0_r. apply elem_of_union.
    apply orb_true_iff in Hb as [Hb | Hb]; apply bool_decide_eq_true in Hb; tauto.
  - replace (index + S k) with (S index + k) by lia. apply IH; [assumption | lia].
Qed.

(** The do-while loop of [next] ends: among [nextFuel reserved] consecutive
    indices one has a name that is neither a reserved word nor reserved. *)
Lemma next_total (reserved : gset jsstring) (index : nat) :
  exists name index', next (nextFuel reserved) reserved index = Some (name, index').
Proof.
  destruct (next (nextFuel reserved) reserved index) as [[name index']|] eqn:Hn;
    [eauto|].
  exfalso. pose proof (next_none _ _ _ Hn) as Hall.
  set (l := indexToName <$> seq index (nextFuel reserved)).
  assert (Hnd : NoDup l).
  { apply NoDup_fmap_2; [apply indexToName_Inj | apply NoDup_seq]. }
  assert (Hsub : (list_to_set l : gset jsstring) ⊆ RESERVED_WORDS ∪ reserved).
  { intros x Hx. apply elem_of_list_to_set in Hx.
    apply list_elem_of_fmap in Hx as (i & -> & Hi).
    apply elem_of_seq in Hi. replace i with (index + (i - index)) by lia.
    apply Hall. lia. }
  apply subseteq_size in Hsub.
  rewrite size_list_to_set in Hsub by assumption.
  unfold l in Hsub. rewrite length_fmap, length_seq in Hsub.
  rewrite size_union_alt in Hsub.
  assert (size (reserved ∖ RESERVED_WORDS) <= size reserved)
    by (apply subseteq_size, subseteq_difference_l; reflexivity).
  unfold nextFuel in Hsub. lia.
Qed.

Lemma ascendingFrom_weaken (n m : nat) (l : list nat) :
  n <= m -> ascendingFrom m l -> ascendingFrom n l.
Proof. destruct l as [|i l]; [trivial|]. cbn. intros Hle [Hi Hl]. split; [lia | assumption]. Qed.

Lemma ascendingFrom_bounds (n : nat) (l : list nat) :
  ascendingFrom n l -> Forall (fun i => n <= i) l /\ NoDup l.
Proof.
  revert n. induction l as [|i l IH]; intros n; [split; constructor|].
  cbn. intros [Hi Hl]. destruct (IH _ Hl) as [Hall Hnd]. split.
  - constructor; [assumption|]. eapply Forall_impl; [exact Hall|]. cbn. lia.
  - apply NoDup_cons. split; [|assumption].
    intros Hin. rewrite Forall_forall in Hall. specialize (Hall _ Hin). lia.
Qed.

(** The loop over [sortedBindings] ends, and gives the bindings the names of
    ascending indices, none a reserved word, none reserved. *)
Lemma assignNames_turns (reserved : gset jsstring) (sortedBindings : list BindingInfo)
    (renameMap : RenameMap) (index : nat) :
  exists indices,
    length indices = length sortedBindings /\
    ascendingFrom index indices /\
    Forall (fun i => (indexToName i ∉ RESERVED_WORDS) /\ (indexToName i ∉ reserved))
           indices /\
    assignNames reserved sortedBindings renameMap index
    = Some (fold_left assign (zip sortedBindings indices) renameMap).
Proof.
  revert renameMap index.
  induction sortedBindings as [|info rest IH]; intros renameMap index.
  - exists []. repeat split; constructor.
  - cbn [assignNames].
    destruct (next_total reserved index) as (name & index' & Hnext). rewrite Hnext.
    apply next_some in Hnext as (Hlt & -> & Hrw & Hres).
    destruct (IH (renameMap_set renameMap (binding info) (indexToName (index' - 1))) index')
      as (indices & Hlen & Hasc & Hall & Heq).
    exists ((index' - 1) :: indices). repeat split.
    + cbn [length]. rewrite Hlen. reflexivity.
    + lia.
    + replace (S (index' - 1)) with index' by lia. assumption.
    + constructor; [split; assumption | assumption].
    + rewrite Heq. reflexivity.
Qed.

Lemma renameMap_get_set (renameMap : RenameMap) (b b' : Binding) (n : jsstring) :
  renameMap_get (renameMap_set renameMap b n) b' =
    if (bid b =? bid b')%nat then Some n else renameMap_get renameMap b'.
Proof.
  induction renameMap as [|[b0 n0] rm IH]; cbn [renameMap_set renameMap_get].
  - reflexivity.
  - destruct (Nat.eqb_spec (bid b0) (bid b)) as [Heq | Hne]; cbn [renameMap_get].
    + rewrite Heq. destruct (Nat.eqb_spec (bid b) (bid b')); reflexivity.
    + rewrite IH. destruct (Nat.eqb_spec (bid b0) (bid b')) as [Heq' | Hne'];
        [|reflexivity].
      destruct (Nat.eqb_spec (bid b) (bid b')); [congruence | reflexivity].
Qed.

Lemma renameMap_get_assign (turns : list (BindingInfo * nat)) (renameMap : RenameMap)
    (b : Binding) :
  renameMap_get (fold_left assign turns renameMap) b =
    match lastAssigned b turns with
    | Some n => Some n
    | None => renameMap_get renameMap b
    end.
Proof.
  revert renameMap. induction turns as [|[info i] turns IH]; intros renameMap.
  - reflexivity.
  - cbn [fold_left lastAssigned]. rewrite IH.
    destruct (lastAssigned b turns); [reflexivity|].
    unfold assign. cbn [fst snd]. rewrite renameMap_get_set.
    destruct (bid (binding info) =? bid b)%nat; reflexivity.
Qed.

Lemma lastAssigned_some (b : Binding) (turns : list (BindingInfo * nat)) (n : jsstring) :
  lastAssigned b turns = Some n ->
  exists info i, (info, i) ∈ turns /\ bid (binding info) = bid b /\ n = indexToName i.
Proof.
  induction turns as [|[info i] turns IH]; [discriminate|].
  cbn [lastAssigned]. destruct (lastAssigned b turns) as [n'|].
  - intros [= <-]. destruct (IH eq_refl) as (info' & i' & Hin & Hb & Hn).
    exists info', i'. repeat split; [right; assumption | assumption | assumption].
  - destruct (Nat.eqb_spec (bid (binding info)) (bid b)) as [Heq | Hne]; [|discriminate].
    intros [= <-]. exists info, i. repeat split; [left | assumption].
Qed.

Lemma lastAssigned_is_some (b : Binding) (turns : list (BindingInfo * nat))
    (info : BindingInfo) (i : nat) :
  (info, i) ∈ turns -> bid (binding info) = bid b ->
  exists n, lastAssigned b turns = Some n.
Proof.
  induction turns as [|[info' i'] turns IH]; intros Hin Hb; [inversion Hin|].
  cbn [lastAssigned]. destruct (lastAssigned b turns) as [n'|] eqn:Hl; [eauto|].
  apply elem_of_cons in Hin as [[= <- <-] | Hin].
  - rewrite Hb, Nat.eqb_refl. eauto.
  - destruct (IH Hin Hb) as (n & Hn). discriminate.
Qed.

Lemma zip_same_index (bindings : list BindingInfo) (indices : list nat)
    (a b : BindingInfo) (i : nat) :
  NoDup indices -> (a, i) ∈ zip bindings indices -> (b, i) ∈ zip bindings indices ->
  a = b.
Proof.
  intros Hnd (ka & Ha)%list_elem_of_lookup (kb & Hb)%list_elem_of_lookup.
  apply lookup_zip_with_Some in Ha as (a' & ia & [= <- <-] & Ha & Hia).
  apply lookup_zip_with_Some in Hb as (b' & ib & [= <- <-] & Hb & Hib).
  assert (ka = kb) by (eapply NoDup_lookup; eassumption). subst kb. congruence.
Qed.

Lemma elem_of_zip_l (bindings : list BindingInfo) (indices : list nat) (a : BindingInfo) :
  length indices = length bindings -> a ∈ bindings ->
  exists i, (a, i) ∈ zip bindings indices.
Proof.
  intros Hlen (k & Hk)%list_elem_of_lookup.
  destruct (lookup_lt_is_Some_2 indices k) as (i & Hi).
  { rewrite Hlen. eapply lookup_lt_Some. eassumption. }
  exists i. apply list_elem_of_lookup. exists k.
  apply lookup_zip_with_Some. exists a, i. repeat split; assumption.
Qed.

(** C10: [indexToName] is injective, and the generator of a scope, whose
    index only advances, gives two different bindings of the scope two
    different names (and it does give every binding a name). *)
Theorem scoped_generator_distinct (reserved : gset jsstring)
    (sortedBindings : list BindingInfo) (renameMap : RenameMap) :
  (forall i j, i <> j -> indexToName i <> indexToName j) /\
  exists renameMap',
    assignNames reserved sortedBindings renameMap 0 = Some renameMap' /\
    forall a b, a ∈ sortedBindings -> b ∈ sortedBindings ->
      bid (binding a) <> bid (binding b) ->
      exists na nb,
        renameMap_get renameMap' (binding a) = Some na /\
        renameMap_get renameMap' (binding b) = Some nb /\
        na <> nb.
Proof.
  split; [intros i j Hne Heq; apply Hne, indexToName_inj, Heq|].
  destruct (assignNames_turns reserved sortedBindings renameMap 0)
    as (indices & Hlen & Hasc & _ & Heq).
  eexists. split; [exact Heq|].
  intros a b Ha Hb Hne.
  apply ascendingFrom_bounds in Hasc as [_ Hnd].
  destruct (elem_of_zip_l _ _ _ Hlen Ha) as (ia & Hia).
  destruct (elem_of_zip_l _ _ _ Hlen Hb) as (ib & Hib).
  destruct (lastAssigned_is_some (binding a) _ _ _ Hia eq_refl) as (na & Hna).
  destruct (lastAssigned_is_some (binding b) _ _ _ Hib eq_refl) as (nb & Hnb).
  exists na, nb. rewrite !renameMap_get_assign, Hna, Hnb.
  repeat split.
  apply lastAssigned_some in Hna as (a' & ia' & Hina & Hbida & ->).
  apply lastAssigned_some in Hnb as (b' & ib' & Hinb & Hbidb & ->).
  intros Hsame%indexToName_inj. subst ib'.
  assert (a' = b') by (eapply zip_same_index; eassumption). subst b'. congruence.
Qed.

End GeneratorFacts.

(** ** The mangler: reserved names of a scope *)

Section ReservedFacts.

Import MangleIdentifiers.

Lemma Scope_chain_ind (P : Scope -> Prop) :
  (forall u bs, P (mkScope u bs None)) ->
  (forall u bs p, P p -> P (mkScope u bs (Some p))) ->
  forall s, P s.
Proof.
  intros Hroot Hchild. fix IH 1. intros [u bs [p|]].
  - apply Hchild, IH.
  - apply Hroot.
Qed.

Lemma isInsideScope_true (path : NodePath) (s : Scope) :
  isInsideScope path s = true <-> lexicallyInside path s.
Proof.
  unfold isInsideScope, lexicallyInside. rewrite existsb_exists. split.
  - intros (u & Hu & ->%Nat.eqb_eq). apply list_elem_of_In. assumption.
  - intros Hin. exists (uid s). split; [apply list_elem_of_In, Hin | apply Nat.eqb_refl].
Qed.

Lemma isReferencedInScope_true (b : Binding) (s : Scope) :
  existsb (fun refPath => isInsideScope refPath s) (referencePaths b)
  || existsb (fun violationPath => isInsideScope violationPath s) (constantViolations b)
  = true <-> referencedInside b s.
Proof.
  rewrite orb_true_iff, !existsb_exists. unfold referencedInside. split.
  - intros [(p & Hp & Hin) | (p & Hp & Hin)]; exists p;
      (split; [|apply isInsideScope_true, Hin]);
      [left | right]; apply list_elem_of_In, Hp.
  - intros (p & [Hp | Hp] & Hin); [left | right]; exists p;
      (split; [apply list_elem_of_In, Hp | apply isInsideScope_true, Hin]).
Qed.

Lemma elem_of_reserveBinding (s : Scope) (renameMap : RenameMap)
    (reserved : gset jsstring) (entry : jsstring * Binding) (n : jsstring) :
  n ∈ reserveBinding s renameMap reserved entry <->
  n ∈ reserved \/
  (renameMap_get renameMap (snd entry) = Some n /\ referencedInside (snd entry) s).
Proof.
  unfold reserveBinding.
  destruct (renameMap_get renameMap (snd entry)) as [newName|].
  - pose proof (isReferencedInScope_true (snd entry) s) as Href.
    destruct (_ || _).
    + rewrite elem_of_union, elem_of_singleton. split.
      * intros [-> | Hin]; [right; split; [reflexivity | apply Href; reflexivity] | left; assumption].
      * intros [Hin | [[= ->] _]]; [right; assumption | left; reflexivity].
    + split; [intros Hin; left; assumption|].
      intros [Hin | [_ Hr]]; [assumption|]. apply Href in Hr. discriminate.
  - split; [intros Hin; left; assumption|].
    intros [Hin | [Hsome _]]; [assumption | discriminate].
Qed.

Lemma elem_of_reserveBindings (s : Scope) (renameMap : RenameMap)
    (entries : list (jsstring * Binding)) (reserved : gset jsstring) (n : jsstring) :
  n ∈ fold_left (reserveBinding s renameMap) entries reserved <->
  n ∈ reserved \/
  exists entry, entry ∈ entries /\
    renameMap_get renameMap (snd entry) = Some n /\ referencedInside (snd entry) s.
Proof.
  revert reserved. induction entries as [|e entries IH]; intros reserved; cbn [fold_left].
  - split; [intros Hin; left; assumption|].
    intros [Hin | (entry & Hentry & _)]; [assumption | inversion Hentry].
  - rewrite IH, elem_of_reserveBinding. split.
    + intros [[Hin | Hhere] | (entry & Hentry & Hrest)].
      * left. assumption.
      * right. exists e. split; [left | assumption].
      * right. exists entry. split; [right; assumption | assumption].
    + intros [Hin | (entry & Hentry & Hrest)].
      * left. left. assumption.
      * apply elem_of_cons in Hentry as [-> | Hentry].
        -- left. right. assumption.
        -- right. exists entry. split; assumption.
Qed.

Lemma elem_of_reserveFrom (s : Scope) (renameMap : RenameMap) (currentScope : Scope)
    (reserved : gset jsstring) (n : jsstring) :
  n ∈ reserveFrom s renameMap currentScope reserved <->
  n ∈ reserved \/
  exists A entry, A ∈ ancestorsFrom currentScope /\ entry ∈ bindings A /\
    renameMap_get renameMap (snd entry) = Some n /\ referencedInside (snd entry) s.
Proof.
  revert reserved. induction currentScope as [u bs | u bs p IH] using Scope_chain_ind;
    intros reserved; cbn [reserveFrom ancestorsFrom].
  - rewrite elem_of_reserveBindings. split.
    + intros [Hin | (entry & Hentry & Hrest)]; [left; assumption|].
      right. exists (mkScope u bs None), entry. split; [left | split; assumption].
    + intros [Hin | (A & entry & ->%list_elem_of_singleton & Hentry & Hrest)];
        [left; assumption|].
      right. exists entry. split; assumption.
  - rewrite IH, elem_of_reserveBindings. split.
    + intros [[Hin | (entry & Hentry & Hrest)] | (A & entry & HA & Hentry & Hrest)].
      * left. assumption.
      * right. exists (mkScope u bs (Some p)), entry. split; [left | split; assumption].
      * right. exists A, entry. split; [right; assumption | split; assumption].
    + intros [Hin | (A & entry & HA & Hentry & Hrest)]; [left; left; assumption|].
      apply elem_of_cons in HA as [-> | HA].
      * left. right. exists entry. split; assumption.
      * right. exists A, entry. split; [assumption | split; assumption].
Qed.

(** C5: the names reserved for a scope [S] are exactly the names [n] for
    which some scope above [S] holds a binding already renamed to [n] that
    has a read or a write lexically inside [S] or inside a descendant of
    [S]. *)
Theorem reserved_names_exactly (S : Scope) (renameMap : RenameMap) (n : jsstring) :
  n ∈ getReservedNamesForScope S renameMap <->
  exists A entry path,
    A ∈ ancestors S /\
    entry ∈ bindings A /\
    renameMap_get renameMap (snd entry) = Some n /\
    (path ∈ referencePaths (snd entry) \/ path ∈ constantViolations (snd entry)) /\
    lexicallyInside path S.
Proof.
  unfold getReservedNamesForScope, ancestors. destruct (parent S) as [p|].
  - rewrite elem_of_reserveFrom. split.
    + intros [Hin | (A & entry & HA & Hentry & Hget & path & Hpath & Hinside)];
        [apply not_elem_of_empty in Hin; contradiction|].
      exists A, entry, path. repeat split; assumption.
    + intros (A & entry & path & HA & Hentry & Hget & Hpath & Hinside).
      right. exists A, entry. repeat split; try assumption.
      exists path. split; assumption.
  - split; [intros Hin; apply not_elem_of_empty in Hin; contradiction|].
    intros (A & _ & _ & HA & _). inversion HA.
Qed.

Example functionScope_reserved :
  getReservedNamesForScope functionScope [(outerX, js "e"); (outerY, js "t")]
  = {[ js "e" ]}.
Proof. vm_compute. reflexivity. Qed.

End ReservedFacts.

(** ** The mangler: the renaming loop and the placeholders *)

Section PlaceholderFacts.

Import MangleIdentifiers.

Lemma generated_set (renameMap : RenameMap) (b : Binding) (i : nat) :
  generated renameMap -> generated (renameMap_set renameMap b (indexToName i)).
Proof.
  induction renameMap as [|[b0 n0] rm IH]; intros Hgen entry; cbn [renameMap_set].
  - intros ->%list_elem_of_singleton. exists i. reflexivity.
  - destruct (bid b0 =? bid b)%nat.
    + intros [-> | Hin]%elem_of_cons; [exists i; reflexivity|].
      apply Hgen. right. assumption.
    + intros [-> | Hin]%elem_of_cons; [apply (Hgen (b0, n0)); left|].
      apply IH; [|assumption]. intros e He. apply Hgen. right. assumption.
Qed.

Lemma generated_assign (turns : list (BindingInfo * nat)) (renameMap : RenameMap) :
  generated renameMap -> generated (fold_left assign turns renameMap).
Proof.
  revert renameMap. induction turns as [|turn turns IH]; intros renameMap Hgen;
    [assumption|].
  cbn [fold_left]. apply IH, generated_set, Hgen.
Qed.

Lemma mangleScopes_total (scopeInfos : list ScopeInfo) (renameMap : RenameMap) :
  generated renameMap ->
  exists renameMap', mangleScopes scopeInfos renameMap = Some renameMap' /\
                     generated renameMap'.
Proof.
  revert renameMap. induction scopeInfos as [|scopeInfo rest IH]; intros renameMap Hgen.
  - exists renameMap. split; [reflexivity | assumption].
  - cbn [mangleScopes]. unfold mangleScope.
    destruct (assignNames_turns
                (getReservedNamesForScope (scope scopeInfo) renameMap)
                (Ast.sort byReferences (sbindings scopeInfo)) renameMap 0)
      as (indices & _ & _ & _ & ->).
    apply IH, generated_assign, Hgen.
Qed.

Lemma rename_fold_store (newName : jsstring) (target : NodePath -> option nat)
    (step : Store -> NodePath -> Store) (paths : list NodePath) (store : Store) (r : nat) :
  (forall store p,
     step store p =
       match target p with
       | Some ref => setName store ref newName
       | None => store
       end) ->
  fold_left step paths store r =
    if bool_decide (r ∈ omap target paths) then newName else store r.
Proof.
  intros Hstep. revert store. induction paths as [|p paths IH]; intros store;
    [reflexivity|].
  cbn [fold_left]. rewrite IH, Hstep.
  change (omap target (p :: paths)) with
    (match target p with
     | Some ref => ref :: omap target paths
     | None => omap target paths
     end).
  destruct (target p) as [ref|]; [|reflexivity].
  unfold setName. destruct (Nat.eqb_spec r ref) as [-> | Hne].
  - rewrite (bool_decide_eq_true_2 (ref ∈ ref :: _)) by left.
    destruct (bool_decide _); reflexivity.
  - destruct (bool_decide_reflect (r ∈ omap target paths)) as [Hin | Hnin].
    + rewrite bool_decide_eq_true_2; [reflexivity | right; assumption].
    + rewrite bool_decide_eq_false_2; [reflexivity|].
      intros [-> | Hin]%elem_of_cons; contradiction.
Qed.

Lemma renameReferences_store (newName : jsstring) (refs : list NodePath)
    (store : Store) (r : nat) :
  fold_left (renameReference newName) refs store r =
    if bool_decide (r ∈ omap referenceNode refs) then newName else store r.
Proof.
  apply rename_fold_store. intros st p. unfold renameReference, referenceNode.
  destruct (node p); reflexivity.
Qed.

Lemma renameViolations_store (newName : jsstring) (violations : list NodePath)
    (store : Store) (r : nat) :
  fold_left (renameViolation newName) violations store r =
    if bool_decide (r ∈ omap violationNode violations) then newName else store r.
Proof.
  apply rename_fold_store. intros st p. unfold renameViolation, violationNode.
  destruct (node p) as [ref | [ref | left | ] | ]; reflexivity.
Qed.

Lemma applyRename_store (store : Store) (pr : gmap jsstring jsstring)
    (b : Binding) (n : jsstring) (r : nat) :
  fst (applyRename (store, pr) (b, n)) r =
    if bool_decide (r ∈ written b) then n else store r.
Proof.
  unfold applyRename.
  destruct (startsWith PLACEHOLDER_PREFIX (store (identifier b))); cbn [fst];
    rewrite renameViolations_store, renameReferences_store; unfold written, setName;
    (destruct (bool_decide_reflect (r ∈ omap violationNode (constantViolations b)))
       as [Hv | Hv];
     [rewrite bool_decide_eq_true_2;
        [reflexivity | right; apply elem_of_app; right; assumption]|]);
    (destruct (bool_decide_reflect (r ∈ omap referenceNode (referencePaths b)))
       as [Hr | Hr];
     [rewrite bool_decide_eq_true_2;
        [reflexivity | right; apply elem_of_app; left; assumption]|]);
    (destruct (Nat.eqb_spec r (identifier b)) as [-> | Hi];
     [rewrite bool_decide_eq_true_2; [reflexivity | left]|]);
    (rewrite bool_decide_eq_false_2; [reflexivity|]);
    intros [-> | [Hin | Hin]%elem_of_app]%elem_of_cons; contradiction.
Qed.

Lemma applyRename_map (store : Store) (pr : gmap jsstring jsstring)
    (b : Binding) (n : jsstring) :
  snd (applyRename (store, pr) (b, n)) =
    if startsWith PLACEHOLDER_PREFIX (store (identifier b))
    then <[store (identifier b) := n]> pr
    else pr.
Proof.
  unfold applyRename.
  destruct (startsWith PLACEHOLDER_PREFIX (store (identifier b))); reflexivity.
Qed.

Lemma applyRenames_untouched (l : RenameMap) (state : Store * gmap jsstring jsstring)
    (r : nat) :
  (forall entry, entry ∈ l -> r ∉ written (fst entry)) ->
  fst (fold_left applyRename l state) r = fst state r.
Proof.
  revert state. induction l as [|[b n] l IH]; intros [store pr] Hl; [reflexivity|].
  cbn [fold_left]. rewrite IH by (intros e He; apply Hl; right; assumption).
  rewrite applyRename_store, bool_decide_eq_false_2; [reflexivity|].
  apply (Hl (b, n)). left.
Qed.

Lemma applyRenames_keys (l : RenameMap) (state : Store * gmap jsstring jsstring)
    (k : jsstring) :
  is_Some (snd state !! k) -> is_Some (snd (fold_left applyRename l state) !! k).
Proof.
  revert state. induction l as [|[b n] l IH]; intros [store pr] Hk; [assumption|].
  cbn [fold_left]. apply IH. rewrite applyRename_map.
  destruct (startsWith _ _); [|assumption].
  rewrite lookup_insert_is_Some'. right. assumption.
Qed.

Lemma applyRenames_values (l : RenameMap) (state : Store * gmap jsstring jsstring)
    (k v : jsstring) :
  snd (fold_left applyRename l state) !! k = Some v ->
  snd state !! k = Some v \/ exists b, (b, v) ∈ l.
Proof.
  revert state. induction l as [|[b n] l IH]; intros [store pr] Hk; [left; assumption|].
  cbn [fold_left] in Hk. apply IH in Hk as [Hk | (b' & Hb')].
  - rewrite applyRename_map in Hk. destruct (startsWith _ _); [|left; assumption].
    apply lookup_insert_Some in Hk as [[_ <-] | [_ Hk]].
    + right. exists b. left.
    + left. assumption.
  - right. exists b'. right. assumption.
Qed.

Lemma applyRenames_placeholder (l : RenameMap) (state : Store * gmap jsstring jsstring)
    (b : Binding) (n : jsstring) :
  (b, n) ∈ l ->
  (forall entry, entry ∈ l -> entry <> (b, n) -> identifier b ∉ written (fst entry)) ->
  startsWith PLACEHOLDER_PREFIX (fst state (identifier b)) = true ->
  is_Some (snd (fold_left applyRename l state) !! fst state (identifier b)).
Proof.
  intros (pre & post & -> & Hpre)%list_elem_of_split_l Hshare Hprefix.
  rewrite fold_left_app. cbn [fold_left].
  apply applyRenames_keys.
  assert (Hsame : fst (fold_left applyRename pre state) (identifier b)
                  = fst state (identifier b)).
  { apply applyRenames_untouched. intros e He. apply Hshare.
    - apply elem_of_app. left. assumption.
    - intros ->. contradiction. }
  destruct (fold_left applyRename pre state) as [store pr]. cbn [fst] in Hsame.
  rewrite applyRename_map, Hsame, Hprefix.
  rewrite lookup_insert_is_Some'. left. reflexivity.
Qed.

(** After the last traversal an Identifier of the tree whose name is a key
    of [placeholderRenames] carries one of its values. *)
Lemma renamePlaceholders_swept (pr : gmap jsstring jsstring) (refs : list nat)
    (store : Store) (ref : nat) :
  ref ∈ refs ->
  is_Some (pr !! fold_left (renamePlaceholder pr) refs store ref) ->
  exists k, pr !! k = Some (fold_left (renamePlaceholder pr) refs store ref).
Proof.
  revert ref. induction refs as [|r refs IH] using rev_ind; intros ref Hin;
    [inversion Hin|].
  rewrite fold_left_app. cbn [fold_left].
  set (store0 := fold_left (renamePlaceholder pr) refs store) in *.
  unfold renamePlaceholder.
  destruct (Nat.eq_dec ref r) as [-> | Hne].
  - destruct (pr !! store0 r) as [newName|] eqn:Hr.
    + intros _. exists (store0 r). unfold setName. rewrite Nat.eqb_refl. assumption.
    + rewrite Hr. intros [x Hx]. discriminate.
  - apply elem_of_app in Hin as [Hin | ->%list_elem_of_singleton]; [|congruence].
    destruct (pr !! store0 r) as [newName|].
    + unfold setName. destruct (Nat.eqb_spec ref r); [congruence|]. apply IH, Hin.
    + apply IH, Hin.
Qed.

End PlaceholderFacts.

Section CollectedFacts.

Import MangleIdentifiers.

Lemma collectScope_keeps (scopeInfos : list ScopeInfo) (s : Scope) (si : ScopeInfo) :
  si ∈ scopeInfos -> si ∈ collectScope scopeInfos s.
Proof.
  intros Hin. unfold collectScope. destruct (0 <? _)%nat; [|assumption].
  apply elem_of_app. left. assumption.
Qed.

Lemma collectScopes_keep (l : list Scope) (scopeInfos : list ScopeInfo) (si : ScopeInfo) :
  si ∈ scopeInfos -> si ∈ fold_left collectScope l scopeInfos.
Proof.
  revert scopeInfos. induction l as [|s l IH]; intros scopeInfos Hin; [assumption|].
  cbn [fold_left]. apply IH, collectScope_keeps, Hin.
Qed.

(** A binding that belongs to a traversed scope is collected. *)
Lemma collectScopes_collected (l : list Scope) (scopeInfos : list ScopeInfo)
    (s : Scope) (entry : jsstring * Binding) :
  s ∈ l -> entry ∈ bindings s -> bscope (snd entry) = uid s ->
  exists si, si ∈ fold_left collectScope l scopeInfos /\
             bindingInfo entry ∈ sbindings si.
Proof.
  revert scopeInfos. induction l as [|s' l IH]; intros scopeInfos Hs Hentry Hscope;
    [inversion Hs|].
  cbn [fold_left]. apply elem_of_cons in Hs as [<- | Hs]; [|apply IH; assumption].
  assert (Hin : bindingInfo entry ∈
    map bindingInfo
      (List.filter (fun e => (bscope (snd e) =? uid s)%nat) (bindings s))).
  { apply list_elem_of_fmap. exists entry. split; [reflexivity|].
    apply list_elem_of_In, filter_In. split; [apply list_elem_of_In, Hentry|].
    apply Nat.eqb_eq, Hscope. }
  eexists. split.
  - apply collectScopes_keep. unfold collectScope.
    destruct (Nat.ltb_spec 0 (length (map bindingInfo
      (List.filter (fun e => (bscope (snd e) =? uid s)%nat) (bindings s)))))
      as [_ | Hzero].
    + apply elem_of_app. right. left.
    + destruct (map bindingInfo _) as [|x xs]; [inversion Hin | simpl in Hzero; lia].
  - exact Hin.
Qed.

Lemma mangleScope_names (renameMap renameMap' : RenameMap) (scopeInfo : ScopeInfo) :
  mangleScope renameMap scopeInfo = Some renameMap' ->
  (forall b, is_Some (renameMap_get renameMap b) -> is_Some (renameMap_get renameMap' b)) /\
  (forall info, info ∈ sbindings scopeInfo ->
     is_Some (renameMap_get renameMap' (binding info))).
Proof.
  unfold mangleScope.
  destruct (assignNames_turns
              (getReservedNamesForScope (scope scopeInfo) renameMap)
              (Ast.sort byReferences (sbindings scopeInfo)) renameMap 0)
    as (indices & Hlen & _ & _ & ->).
  intros [= <-]. split.
  - intros b Hb. rewrite renameMap_get_assign.
    destruct (lastAssigned b _); [eauto | assumption].
  - intros info Hinfo. apply elem_of_sort with (cmp := byReferences) in Hinfo.
    destruct (elem_of_zip_l _ _ _ Hlen Hinfo) as (i & Hi).
    destruct (lastAssigned_is_some (binding info) _ _ _ Hi eq_refl) as (n & Hn).
    rewrite renameMap_get_assign, Hn. eauto.
Qed.

Lemma mangleScopes_names (scopeInfos : list ScopeInfo) (renameMap renameMap' : RenameMap) :
  mangleScopes scopeInfos renameMap = Some renameMap' ->
  (forall b, is_Some (renameMap_get renameMap b) -> is_Some (renameMap_get renameMap' b)) /\
  (forall si info, si ∈ scopeInfos -> info ∈ sbindings si ->
     is_Some (renameMap_get renameMap' (binding info))).
Proof.
  revert renameMap. induction scopeInfos as [|si0 rest IH]; intros renameMap.
  - intros [= <-]. split; [auto|]. intros si info Hsi. inversion Hsi.
  - cbn [mangleScopes]. destruct (mangleScope renameMap si0) as [rm1|] eqn:H1;
      [|discriminate].
    intros Hrest. destruct (mangleScope_names _ _ _ H1) as [Hkeep1 Hnew1].
    destruct (IH _ Hrest) as [Hkeep Hnew]. split.
    + intros b Hb. apply Hkeep, Hkeep1, Hb.
    + intros si info [-> | Hsi]%elem_of_cons Hinfo.
      * apply Hkeep, Hnew1, Hinfo.
      * eapply Hnew; eassumption.
Qed.

End CollectedFacts.

Section PlaceholderSweep.

Import MangleIdentifiers.

Lemma decimal_go_digit (fuel n : nat) (d : N) (acc : jsstring) :
  isDigit d ->
  exists c rest, decimal_go fuel n (d :: acc) = c :: rest /\ isDigit c.
Proof.
  revert n d acc. induction fuel as [|fuel IH]; intros n d acc Hd.
  - exists d, acc. split; [reflexivity | assumption].
  - cbn [decimal_go]. destruct (n <? 10)%nat.
    + eexists _, _. split; [reflexivity|].
      unfold isDigit. pose proof (Nat.mod_upper_bound n 10). lia.
    + apply IH. unfold isDigit. pose proof (Nat.mod_upper_bound n 10). lia.
Qed.

Lemma String_of_nat_digit (i : nat) :
  exists c rest, String_of_nat i = c :: rest /\ isDigit c.
Proof.
  unfold String_of_nat. cbn [decimal_go].
  assert (Hd : isDigit (N.of_nat (48 + i mod 10))).
  { unfold isDigit. pose proof (Nat.mod_upper_bound i 10). lia. }
  destruct (i <? 10)%nat.
  - eexists _, _. split; [reflexivity | exact Hd].
  - apply decimal_go_digit, Hd.
Qed.

Lemma digit_not_in_CHARS (c : N) : isDigit c -> c ∉ CHARS.
Proof.
  intros Hc Hin.
  assert (Hall : forallb (fun c => (c <? 48)%N || (57 <? c)%N) CHARS = true)
    by (vm_compute; reflexivity).
  rewrite forallb_forall in Hall. specialize (Hall c ltac:(apply list_elem_of_In, Hin)).
  unfold isDigit in Hc. apply orb_true_iff in Hall as [H | H]; apply N.ltb_lt in H; lia.
Qed.

Lemma numbered_not_overCHARS (before after : jsstring) (i : nat) :
  ~ overCHARS (before ++ String_of_nat i ++ after).
Proof.
  intros [_ Hall]. destruct (String_of_nat_digit i) as (c & rest & Heq & Hc).
  rewrite Heq in Hall. apply Forall_app in Hall as [_ Hall].
  apply Forall_app in Hall as [Hall _]. apply Forall_cons in Hall as [Hin _].
  exact (digit_not_in_CHARS c Hc Hin).
Qed.

(** The placeholders of the two hoisting passes begin with [__niu_] and are
    no names the mangler generates. *)
Lemma placeholders_numbered (i : nat) :
  startsWith PLACEHOLDER_PREFIX (HoistGlobals.placeholderName i) = true /\
  startsWith PLACEHOLDER_PREFIX (HoistDuplicateLiterals.placeholderName i) = true /\
  ~ overCHARS (HoistGlobals.placeholderName i) /\
  ~ overCHARS (HoistDuplicateLiterals.placeholderName i).
Proof.
  repeat split; try reflexivity; apply numbered_not_overCHARS.
Qed.

(** C4, as the code has it: the pass ends and gives a name to every binding
    that belongs to a traversed scope; the names it assigns are non-empty
    strings over [CHARS]; and after its last traversal an Identifier of the
    tree whose name is the old name of a renamed [__niu_] binding carries an
    assigned name. Hence, when the pass has renamed a binding whose declaring
    Identifier carried a placeholder [__niu_global_i__] or
    [__niu_literal_i__] (an Identifier that no other binding's turn writes
    to), no Identifier of the tree carries that placeholder afterwards. A
    name that begins with [__niu_] and is not bound is left as it is. *)
Theorem placeholders_renamed_away (input : MangleInput) :
  exists result,
    mangleIdentifiers input = Some result /\
    (forall s entry,
       s ∈ scopes input -> entry ∈ bindings s -> bscope (snd entry) = uid s ->
       is_Some (renameMap_get (renameMap result) (snd entry))) /\
    (forall entry, entry ∈ renameMap result -> overCHARS (snd entry)) /\
    (forall ref, ref ∈ identifiers input ->
       is_Some (placeholderRenames result !! store result ref) ->
       overCHARS (store result ref)) /\
    (forall b n i,
       (b, n) ∈ renameMap result ->
       names input (identifier b) = HoistGlobals.placeholderName i \/
       names input (identifier b) = HoistDuplicateLiterals.placeholderName i ->
       (forall entry, entry ∈ renameMap result -> entry <> (b, n) ->
          identifier b ∉ written (fst entry)) ->
       forall ref, ref ∈ identifiers input ->
         store result ref <> names input (identifier b)).
Proof.
  unfold mangleIdentifiers.
  destruct (mangleScopes_total (fold_left collectScope (scopes input) []) [])
    as (rm & Hrm & Hgen); [intros e He; inversion He|]. rewrite Hrm.
  destruct (fold_left applyRename rm (names input, ∅)) as [st pr] eqn:Happly.
  eexists. split; [reflexivity|]. cbn [renameMap placeholderRenames store].
  assert (Hnames : forall entry, entry ∈ rm -> overCHARS (snd entry)).
  { intros entry He. destruct (Hgen entry He) as (i & ->). apply indexToName_overCHARS. }
  assert (Hswept : forall ref, ref ∈ identifiers input ->
    is_Some (pr !! (if (0 <? size pr)%nat
                    then fold_left (renamePlaceholder pr) (identifiers input) st
                    else st) ref) ->
    overCHARS ((if (0 <? size pr)%nat
                then fold_left (renamePlaceholder pr) (identifiers input) st
                else st) ref)).
  { intros ref Href Hkey. destruct (Nat.ltb_spec 0 (size pr)) as [Hpos | Hzero].
    - destruct (renamePlaceholders_swept pr _ st ref Href Hkey) as (k & Hk).
      pose proof (applyRenames_values rm (names input, ∅) k
                    (fold_left (renamePlaceholder pr) (identifiers input) st ref)) as Hv.
      rewrite Happly in Hv. destruct (Hv Hk) as [Hempty | (b & Hb)].
      + cbn [snd] in Hempty. rewrite lookup_empty in Hempty. discriminate.
      + apply (Hnames _ Hb).
    - assert (pr = ∅) by (apply map_size_empty_iff; lia). subst pr.
      destruct Hkey as [x Hx]. rewrite lookup_empty in Hx. discriminate. }
  split; [|split; [|split]].
  - intros s entry Hs Hentry Hscope.
    destruct (collectScopes_collected (scopes input) [] s entry Hs Hentry Hscope)
      as (si & Hsi & Hinfo).
    exact (proj2 (mangleScopes_names _ _ _ Hrm) si _ Hsi Hinfo).
  - exact Hnames.
  - exact Hswept.
  - intros b n i Hb Hplaceholder Hshare ref Href Hsame.
    pose proof (applyRenames_placeholder rm (names input, ∅) b n Hb Hshare) as Hkey.
    rewrite Happly in Hkey. cbn [fst snd] in Hkey.
    destruct (placeholders_numbered i) as (Hg & Hl & Hng & Hnl).
    assert (Hprefix : startsWith PLACEHOLDER_PREFIX (names input (identifier b)) = true)
      by (destruct Hplaceholder as [-> | ->]; assumption).
    specialize (Hkey Hprefix). rewrite <- Hsame in Hkey.
    apply Hswept in Hkey; [|assumption]. rewrite Hsame in Hkey.
    destruct Hplaceholder as [Heq | Heq]; rewrite Heq in Hkey; contradiction.
Qed.

(** C4, as the specification has it, fails: the one Identifier of the program
    [__niu_x;] is a free global; the pass leaves its name, which contains
    [__niu_]. *)
Lemma free_placeholder_counterexample :
  exists result,
    mangleIdentifiers freePlaceholderInput = Some result /\
    0 ∈ identifiers freePlaceholderInput /\
    includes (js "__niu_") (store result 0) = true.
Proof.
  exists {| store := names freePlaceholderInput; renameMap := [];
            placeholderRenames := ∅ |}.
  split; [reflexivity|]. split; [left | vm_compute; reflexivity].
Qed.

Lemma placeholders_renamed_away_hoisted :
  exists result,
    mangleIdentifiers hoistedInput = Some result /\
    renameMap result = [(hoistedBinding, js "e")] /\
    forall ref, ref ∈ identifiers hoistedInput ->
      store result ref <> js "__niu_global_0__".
Proof.
  destruct (placeholders_renamed_away hoistedInput)
    as (result & Hres & _ & _ & _ & Haway).
  exists result. split; [exact Hres|].
  assert (Hmap : renameMap result = [(hoistedBinding, js "e")]).
  { vm_compute in Hres. injection Hres as <-. reflexivity. }
  split; [exact Hmap|].
  apply (Haway hoistedBinding (js "e") 0).
  - rewrite Hmap. left.
  - left. reflexivity.
  - intros entry He Hne. rewrite Hmap in He.
    apply list_elem_of_singleton in He. contradiction.
Defined.

Example frequencyInput_names :
  exists result,
    mangleIdentifiers frequencyInput = Some result /\
    renameMap result = [(bindingP, js "e"); (bindingQ, js "t")] /\
    map (store result) (identifiers frequencyInput)
    = [js "t"; js "e"; js "t"; js "e"; js "e"; js "e"; js "e"; js "e"; js "e";
       js "e"; js "e"; js "e"; js "e"].
Proof.
  destruct (mangleIdentifiers frequencyInput) as [result|] eqn:H;
    [|vm_compute in H; discriminate].
  exists result. split; [reflexivity|].
  vm_compute in H. injection H as <-. split; reflexivity.
Qed.

End PlaceholderSweep.

(** * Further properties

    ** The profit calculator: how the profits compose *)

Section ProfitCompositionFacts.
Import ProfitCalculator.
Local Open Scope Z_scope.






End ProfitCompositionFacts.

(** ** The AST and constsToLets *)

Section AstFacts.
Import Ast.

Lemma Expression_nested_ind (P : Expression -> Prop) :
  (forall name, P (Identifier name)) ->
  (forall value, P (StringLiteral value)) ->
  (forall value, P (NumericLiteral value)) ->
  (forall value, P (BooleanLiteral value)) ->
  P NullLiteral ->
  (forall value, P (BigIntLiteral value)) ->
  P ThisExpression ->
  (forall object property computed,
      P object -> P property -> P (MemberExpression object property computed)) ->
  (forall operator argument, P argument -> P (UnaryExpression operator argument)) ->
  (forall operator lhs rhs, P lhs -> P rhs -> P (BinaryExpression operator lhs rhs)) ->
  (forall operator lhs rhs, P lhs -> P rhs -> P (LogicalExpression operator lhs rhs)) ->
  (forall operator lhs rhs, P lhs -> P rhs -> P (AssignmentExpression operator lhs rhs)) ->
  (forall callee arguments,
      P callee -> Forall P arguments -> P (CallExpression callee arguments)) ->
  (forall elements, Forall P elements -> P (ArrayPattern elements)) ->
  forall e, P e.
Proof.
  intros HI HS HN HB HNull HBig HT HM HU HBin HL HA HC HArr.
  fix IH 1. intros e. destruct e.
  - apply HI.
  - apply HS.
  - apply HN.
  - apply HB.
  - apply HNull.
  - apply HBig.
  - apply HT.
  - apply HM; apply IH.
  - apply HU; apply IH.
  - apply HBin; apply IH.
  - apply HL; apply IH.
  - apply HA; apply IH.
  - apply HC; [apply IH|].
    induction arguments as [|a l IHl]; constructor; [apply IH | exact IHl].
  - apply HArr.
    induction elements as [|a l IHl]; constructor; [apply IH | exact IHl].
Qed.

Lemma Statement_nested_ind (P : Statement -> Prop) :
  (forall e, P (ExpressionStatement e)) ->
  (forall kind declarations, P (VariableDeclaration kind declarations)) ->
  (forall argument, P (ReturnStatement argument)) ->
  (forall test consequent alternate,
      P consequent -> match alternate with Some a => P a | None => True end ->
      P (IfStatement test consequent alternate)) ->
  (forall body, Forall P body -> P (BlockStatement body)) ->
  (forall id params body, Forall P body -> P (FunctionDeclaration id params body)) ->
  forall s, P s.
Proof.
  intros HE HV HR HI HB HF.
  fix IH 1. intros s. destruct s.
  - apply HE.
  - apply HV.
  - apply HR.
  - apply HI; [apply IH|]. destruct alternate as [a|]; [apply IH | exact I].
  - apply HB. induction body as [|a l IHl]; constructor; [apply IH | exact IHl].
  - apply HF. induction body as [|a l IHl]; constructor; [apply IH | exact IHl].
Qed.

End AstFacts.

Section ConstsToLetsFacts.
Import Ast ConstsToLets.

Lemma flat_map_map {A B C} (f : B -> list C) (g : A -> B) (l : list A) :
  flat_map f (map g l) = flat_map (fun a => f (g a)) l.
Proof. induction l as [|a l IH]; [reflexivity|]. cbn. rewrite IH. reflexivity. Qed.

Lemma flat_map_Forall_ext {A B} (f g : A -> list B) (l : list A) :
  Forall (fun a => f a = g a) l -> flat_map f l = flat_map g l.
Proof. induction 1 as [|a l Ha _ IH]; [reflexivity|]. cbn. rewrite Ha, IH. reflexivity. Qed.

Lemma map_flat_map {A B C} (f : A -> list B) (g : B -> C) (l : list A) :
  map g (flat_map f l) = flat_map (fun a => map g (f a)) l.
Proof. induction l as [|a l IH]; [reflexivity|]. cbn. rewrite map_app, IH. reflexivity. Qed.

Lemma elem_of_flat_map {A B} (f : A -> list B) (l : list A) (y : B) :
  y ∈ flat_map f l <-> exists x, x ∈ l /\ y ∈ f x.
Proof.
  rewrite list_elem_of_In, in_flat_map. split; intros (x & Hx & Hy); exists x.
  - split; apply list_elem_of_In; assumption.
  - split; apply list_elem_of_In; assumption.
Qed.

Lemma traverseStatement_kinds (s : Statement) :
  declarationKinds (traverseStatement s) = map visitVariableDeclaration (declarationKinds s).
Proof.
  induction s as [e | kind ds | arg | test c a IHc IHa | body IH | i ps body IH]
    using Statement_nested_ind; cbn [traverseStatement declarationKinds map]; try reflexivity.
  - rewrite map_app, IHc. f_equal. destruct a as [a|]; [|reflexivity]. exact IHa.
  - rewrite flat_map_map, map_flat_map. apply flat_map_Forall_ext. exact IH.
  - rewrite flat_map_map, map_flat_map. apply flat_map_Forall_ext. exact IH.
Qed.

Lemma traverseStatement_identifiers (s : Statement) :
  identifiersOfStatement (traverseStatement s) = identifiersOfStatement s.
Proof.
  induction s as [e | kind ds | arg | test c a IHc IHa | body IH | i ps body IH]
    using Statement_nested_ind; cbn [traverseStatement identifiersOfStatement]; try reflexivity.
  - rewrite IHc. do 2 f_equal. destruct a as [a|]; [|reflexivity]. exact IHa.
  - rewrite flat_map_map. apply flat_map_Forall_ext. exact IH.
  - rewrite flat_map_map. do 2 f_equal. apply flat_map_Forall_ext. exact IH.
Qed.

Lemma visitVariableDeclaration_idem (kind : jsstring) :
  visitVariableDeclaration (visitVariableDeclaration kind) = visitVariableDeclaration kind.
Proof.
  unfold visitVariableDeclaration.
  destruct (bool_decide_reflect (kind = js "const")) as [H | H]; [reflexivity|].
  rewrite bool_decide_eq_false_2; [reflexivity | assumption].
Qed.

Lemma map_Forall_id {A} (f : A -> A) (l : list A) :
  Forall (fun a => f a = a) l -> map f l = l.
Proof. induction 1 as [|a l Ha _ IH]; [reflexivity|]. cbn. rewrite Ha, IH. reflexivity. Qed.

Lemma traverseStatement_fixed (s : Statement) :
  (js "const" ∉ declarationKinds s) -> traverseStatement s = s.
Proof.
  induction s as [e | kind ds | arg | test c a IHc IHa | body IH | i ps body IH]
    using Statement_nested_ind; cbn [traverseStatement declarationKinds]; intros Hk;
    try reflexivity.
  - unfold visitVariableDeclaration. rewrite bool_decide_eq_false_2; [reflexivity|].
    intros ->. apply Hk. left.
  - rewrite IHc; [|intros H; apply Hk, elem_of_app; left; exact H].
    destruct a as [a|]; [|reflexivity].
    rewrite IHa; [reflexivity|]. intros H; apply Hk, elem_of_app; right; exact H.
  - f_equal. apply map_Forall_id. rewrite Forall_forall in IH |- *.
    intros s Hs. apply IH; [exact Hs|]. intros H. apply Hk.
    apply elem_of_flat_map. exists s. split; assumption.
  - f_equal. apply map_Forall_id. rewrite Forall_forall in IH |- *.
    intros s Hs. apply IH; [exact Hs|]. intros H. apply Hk.
    apply elem_of_flat_map. exists s. split; assumption.
Qed.

Lemma program_kinds (ast : File) :
  flat_map declarationKinds (program (constsToLets ast)) =
    map visitVariableDeclaration (flat_map declarationKinds (program ast)).
Proof.
  cbn [constsToLets program]. rewrite flat_map_map, map_flat_map.
  apply flat_map_Forall_ext, Forall_forall. intros s _. apply traverseStatement_kinds.
Qed.

Lemma program_without_const (ast : File) :
  (js "const" ∉ flat_map declarationKinds (program ast)) -> constsToLets ast = ast.
Proof.
  destruct ast as [body g]. intros Hk. unfold constsToLets. cbn [program globals] in *.
  f_equal. apply map_Forall_id, Forall_forall. intros s Hs.
  apply traverseStatement_fixed. intros H. apply Hk. apply elem_of_flat_map.
  exists s. split; assumption.
Qed.

Lemma no_const_left (ast : File) :
  js "const" ∉ flat_map declarationKinds (program (constsToLets ast)).
Proof.
  rewrite program_kinds.
  intros (k & Hk & _)%list_elem_of_fmap. unfold visitVariableDeclaration in Hk.
  case_bool_decide as Hc; [discriminate Hk | congruence].
Qed.

(** X4: after constsToLets the declarations are the same in number and order,
    each [const] has become [let], every other kind is as it was, and no
    [const] is left. *)
Theorem constsToLets_kinds (ast : File) :
  flat_map declarationKinds (program (constsToLets ast)) =
    map visitVariableDeclaration (flat_map declarationKinds (program ast)) /\
  (js "const" ∉ flat_map declarationKinds (program (constsToLets ast))).
Proof.
  split; [apply program_kinds|]. rewrite program_kinds.
  intros (kind & Hkind & _)%list_elem_of_fmap. unfold visitVariableDeclaration in Hkind.
  case_bool_decide as Hconst; [discriminate Hkind | congruence].
Qed.

(** X5: constsToLets touches nothing but the kinds: the Identifier paths and
    the globals are as before, and running the pass twice is running it
    once. *)
Theorem constsToLets_only_kinds (ast : File) :
  identifierPaths (program (constsToLets ast)) = identifierPaths (program ast) /\
  globals (constsToLets ast) = globals ast /\
  constsToLets (constsToLets ast) = constsToLets ast.
Proof.
  repeat split.
  - unfold identifierPaths. cbn [constsToLets program]. f_equal.
    rewrite flat_map_map. apply flat_map_Forall_ext, Forall_forall.
    intros s _. apply traverseStatement_identifiers.
  - apply program_without_const, no_const_left.
Qed.

(** X6: a program without [const] comes back from constsToLets as it was. *)
Theorem constsToLets_without_const (ast : File) :
  (js "const" ∉ flat_map declarationKinds (program ast)) -> constsToLets ast = ast.
Proof.
  intros Hkinds. destruct ast as [body g]. unfold constsToLets. cbn [program globals] in *.
  f_equal. apply map_Forall_id, Forall_forall. intros s Hs.
  apply traverseStatement_fixed. intros Hconst. apply Hkinds, elem_of_flat_map.
  exists s. split; assumption.
Qed.

Lemma constsToLets_without_const_letVar :
  (js "const" ∉ flat_map declarationKinds (program letVarFile)) /\
  constsToLets letVarFile = letVarFile.
Proof.
  assert (H : js "const" ∉ flat_map declarationKinds (program letVarFile)).
  { cbn. intros [H | [H | H]%elem_of_cons]%elem_of_cons;
      [discriminate H | discriminate H | inversion H]. }
  split; [exact H | exact (constsToLets_without_const letVarFile H)].
Defined.

End ConstsToLetsFacts.

(** ** Replacing Identifier nodes *)

Section ReplaceFacts.
Import Ast.

Context (subst : nat -> option jsstring).

Lemma number_app {A B} (f : A -> nat -> B) (l1 l2 : list A) (i : nat) :
  number f (l1 ++ l2) i = number f l1 i ++ number f l2 (i + length l1).
Proof.
  revert i. induction l1 as [|a l1 IH]; intros i; cbn [number app length].
  - rewrite Nat.add_0_r. reflexivity.
  - rewrite IH. do 3 f_equal. lia.
Qed.

Lemma lookup_number {A B} (f : A -> nat -> B) (l : list A) (i k : nat) :
  number f l i !! k = (fun a => f a (i + k)) <$> l !! k.
Proof.
  revert i k. induction l as [|a l IH]; intros i k; [reflexivity|].
  destruct k as [|k]; cbn [number].
  - cbn. rewrite Nat.add_0_r. reflexivity.
  - cbn [lookup list_lookup]. rewrite IH. replace (S i + k) with (i + S k) by lia. reflexivity.
Qed.

Lemma replaceInExpression_call (callee : Expression) (arguments : list Expression) (n : nat) :
  replaceInExpression subst (CallExpression callee arguments) n =
    let '(callee', n1) := replaceInExpression subst callee n in
    let '(arguments', n2) := replaceInList (replaceInExpression subst) arguments n1 in
    (CallExpression callee' arguments', n2).
Proof.
  cbn [replaceInExpression]. destruct (replaceInExpression subst callee n) as [c' n1].
  match goal with |- (let '(_, _) := ?a in _) = (let '(_, _) := ?b in _) =>
    replace a with b; [reflexivity|] end.
  generalize n1. induction arguments as [|a l IH]; intros m; [reflexivity|].
  cbn [replaceInList]. destruct (replaceInExpression subst a m) as [a' m1].
  rewrite IH. reflexivity.
Qed.

Lemma replaceInExpression_array (elements : list Expression) (n : nat) :
  replaceInExpression subst (ArrayPattern elements) n =
    let '(elements', n1) := replaceInList (replaceInExpression subst) elements n in
    (ArrayPattern elements', n1).
Proof.
  cbn [replaceInExpression].
  match goal with |- (let '(_, _) := ?a in _) = (let '(_, _) := ?b in _) =>
    replace a with b; [reflexivity|] end.
  generalize n. induction elements as [|a l IH]; intros m; [reflexivity|].
  cbn [replaceInList]. destruct (replaceInExpression subst a m) as [a' m1].
  rewrite IH. reflexivity.
Qed.

Lemma replaceInList_view {A} (f : A -> nat -> A * nat)
    (ids ids' : A -> list (jsstring * option Expression * Key)) (l : list A) :
  Forall (fun a => forall n a' n', f a n = (a', n') ->
            n' = n + length (ids a) /\
            map view (ids' a') = number (renamedView subst) (ids a) n) l ->
  forall n l' n', replaceInList f l n = (l', n') ->
    n' = n + length (flat_map ids l) /\
    map view (flat_map ids' l') = number (renamedView subst) (flat_map ids l) n.
Proof.
  induction 1 as [|a l Ha _ IH]; intros n l' n' Heq; cbn [replaceInList] in Heq.
  - injection Heq as <- <-. cbn. split; [lia | reflexivity].
  - destruct (f a n) as [a' n1] eqn:Hfa.
    destruct (replaceInList f l n1) as [l'' n2] eqn:Hl.
    injection Heq as <- <-.
    destruct (Ha _ _ _ Hfa) as [Hn1 Hva]. destruct (IH _ _ _ Hl) as [Hn2 Hvl].
    cbn [flat_map]. rewrite length_app, map_app, number_app, Hva, Hvl.
    split; [lia | repeat (f_equal; try lia)].
Qed.

Lemma replaceInExpression_view (e : Expression) :
  forall (parent parent' : option Expression) (k : Key) (n : nat) (e' : Expression) (n' : nat),
    parentKind parent = parentKind parent' ->
    replaceInExpression subst e n = (e', n') ->
    n' = n + length (identifiersOfExpression parent k e) /\
    map view (identifiersOfExpression parent' k e') =
      number (renamedView subst) (identifiersOfExpression parent k e) n.
Proof.
  induction e as [name | v | v | v | | v | | o p c IHo IHp | op a IHa
                  | op l r IHl IHr | op l r IHl IHr | op l r IHl IHr
                  | callee args IHc IHargs | els IHels] using Expression_nested_ind;
    intros parent parent' k n e' n' Hk Heq.
  - cbn in Heq. injection Heq as <- <-. cbn. rewrite Hk. split; [lia|].
    destruct (subst n); reflexivity.
  - cbn in Heq. injection Heq as <- <-. cbn. split; [lia | reflexivity].
  - cbn in Heq. injection Heq as <- <-. cbn. split; [lia | reflexivity].
  - cbn in Heq. injection Heq as <- <-. cbn. split; [lia | reflexivity].
  - cbn in Heq. injection Heq as <- <-. cbn. split; [lia | reflexivity].
  - cbn in Heq. injection Heq as <- <-. cbn. split; [lia | reflexivity].
  - cbn in Heq. injection Heq as <- <-. cbn. split; [lia | reflexivity].
  - cbn [replaceInExpression] in Heq.
    destruct (replaceInExpression subst o n) as [o' n1] eqn:Ho.
    destruct (replaceInExpression subst p n1) as [p' n2] eqn:Hp.
    injection Heq as <- <-. cbn [identifiersOfExpression].
    destruct (IHo (Some (MemberExpression o p c)) (Some (MemberExpression o' p' c)) KObject _ _ _ eq_refl Ho) as [Hn1 Hvo].
    destruct (IHp (Some (MemberExpression o p c)) (Some (MemberExpression o' p' c)) KProperty _ _ _ eq_refl Hp) as [Hn2 Hvp].
    rewrite length_app, map_app, number_app, Hvo, Hvp. split; [lia | repeat (f_equal; try lia)].
  - cbn [replaceInExpression] in Heq.
    destruct (replaceInExpression subst a n) as [a' n1] eqn:Ha.
    injection Heq as <- <-. cbn [identifiersOfExpression].
    destruct (IHa (Some (UnaryExpression op a)) (Some (UnaryExpression op a')) KArgument _ _ _ eq_refl Ha) as [Hn3 Hva].
    split; [assumption | exact Hva].
  - cbn [replaceInExpression] in Heq.
    destruct (replaceInExpression subst l n) as [l' n1] eqn:Hl.
    destruct (replaceInExpression subst r n1) as [r' n2] eqn:Hr.
    injection Heq as <- <-. cbn [identifiersOfExpression].
    destruct (IHl (Some (BinaryExpression op l r)) (Some (BinaryExpression op l' r')) KOther _ _ _ eq_refl Hl) as [Hn4 Hvl].
    destruct (IHr (Some (BinaryExpression op l r)) (Some (BinaryExpression op l' r')) KOther _ _ _ eq_refl Hr) as [Hn5 Hvr].
    rewrite length_app, map_app, number_app, Hvl, Hvr. split; [lia | repeat (f_equal; try lia)].
  - cbn [replaceInExpression] in Heq.
    destruct (replaceInExpression subst l n) as [l' n1] eqn:Hl.
    destruct (replaceInExpression subst r n1) as [r' n2] eqn:Hr.
    injection Heq as <- <-. cbn [identifiersOfExpression].
    destruct (IHl (Some (LogicalExpression op l r)) (Some (LogicalExpression op l' r')) KOther _ _ _ eq_refl Hl) as [Hn6 Hvl].
    destruct (IHr (Some (LogicalExpression op l r)) (Some (LogicalExpression op l' r')) KOther _ _ _ eq_refl Hr) as [Hn7 Hvr].
    rewrite length_app, map_app, number_app, Hvl, Hvr. split; [lia | repeat (f_equal; try lia)].
  - cbn [replaceInExpression] in Heq.
    destruct (replaceInExpression subst l n) as [l' n1] eqn:Hl.
    destruct (replaceInExpression subst r n1) as [r' n2] eqn:Hr.
    injection Heq as <- <-. cbn [identifiersOfExpression].
    destruct (IHl (Some (AssignmentExpression op l r)) (Some (AssignmentExpression op l' r')) KOther _ _ _ eq_refl Hl) as [Hn8 Hvl].
    destruct (IHr (Some (AssignmentExpression op l r)) (Some (AssignmentExpression op l' r')) KOther _ _ _ eq_refl Hr) as [Hn9 Hvr].
    rewrite length_app, map_app, number_app, Hvl, Hvr. split; [lia | repeat (f_equal; try lia)].
  - rewrite replaceInExpression_call in Heq.
    destruct (replaceInExpression subst callee n) as [c' n1] eqn:Hc.
    destruct (replaceInList (replaceInExpression subst) args n1) as [args' n2] eqn:Ha.
    injection Heq as <- <-. cbn [identifiersOfExpression].
    destruct (IHc (Some (CallExpression callee args)) (Some (CallExpression c' args')) KOther _ _ _ eq_refl Hc) as [Hn10 Hvc].
    edestruct (replaceInList_view (replaceInExpression subst)
                 (identifiersOfExpression (Some (CallExpression callee args)) KOther)
                 (identifiersOfExpression (Some (CallExpression c' args')) KOther) args)
      as [Hn9 Hva]; [| exact Ha |].
    { eapply Forall_impl; [exact IHargs|]. intros a IH m a' m' Hm.
      apply IH; [reflexivity | exact Hm]. }
    rewrite length_app, map_app, number_app, Hvc, Hva. split; [lia | repeat (f_equal; try lia)].
  - rewrite replaceInExpression_array in Heq.
    destruct (replaceInList (replaceInExpression subst) els n) as [els' n1] eqn:Ha.
    injection Heq as <- <-. cbn [identifiersOfExpression].
    eapply (replaceInList_view (replaceInExpression subst)
              (identifiersOfExpression (Some (ArrayPattern els)) KOther)
              (identifiersOfExpression (Some (ArrayPattern els')) KOther) els); [| exact Ha].
    eapply Forall_impl; [exact IHels|]. intros a IH m a' m' Hm.
    apply IH; [reflexivity | exact Hm].
Qed.

Lemma replaceInOption_view (o : option Expression) (n : nat) (o' : option Expression)
    (n' : nat) :
  replaceInOption (replaceInExpression subst) o n = (o', n') ->
  n' = n + length (visitOption (identifiersOfExpression None KOther) o) /\
  map view (visitOption (identifiersOfExpression None KOther) o') =
    number (renamedView subst) (visitOption (identifiersOfExpression None KOther) o) n.
Proof.
  destruct o as [e|]; cbn [replaceInOption visitOption].
  - destruct (replaceInExpression subst e n) as [e' n1] eqn:He. intros [= <- <-].
    cbn [visitOption]. apply (replaceInExpression_view e None None KOther _ _ _ eq_refl He).
  - intros [= <- <-]. cbn. split; [lia | reflexivity].
Qed.

Lemma replaceInDeclarator_view (d : VariableDeclarator) (n : nat) (d' : VariableDeclarator)
    (n' : nat) :
  replaceInDeclarator subst d n = (d', n') ->
  n' = n + length (identifiersOfDeclarator d) /\
  map view (identifiersOfDeclarator d') = number (renamedView subst) (identifiersOfDeclarator d) n.
Proof.
  unfold replaceInDeclarator, identifiersOfDeclarator.
  destruct (replaceInExpression subst (id d) n) as [id' n1] eqn:Hid.
  destruct (replaceInOption (replaceInExpression subst) (init d) n1) as [init' n2] eqn:Hinit.
  intros [= <- <-]. cbn [id init].
  destruct (replaceInExpression_view (id d) None None KOther _ _ _ eq_refl Hid) as [Hn1 Hv1].
  destruct (replaceInOption_view _ _ _ _ Hinit) as [Hn2 Hv2].
  rewrite length_app, map_app, number_app, Hv1, Hv2. subst.
  split; [lia | repeat (f_equal; try lia)].
Qed.

Lemma replaceInStatement_block (body : list Statement) (n : nat) :
  replaceInStatement subst (BlockStatement body) n =
    let '(body', n1) := replaceInList (replaceInStatement subst) body n in
    (BlockStatement body', n1).
Proof.
  cbn [replaceInStatement].
  match goal with |- (let '(_, _) := ?a in _) = (let '(_, _) := ?b in _) =>
    replace a with b; [reflexivity|] end.
  generalize n. induction body as [|a l IH]; intros m; [reflexivity|].
  cbn [replaceInList]. destruct (replaceInStatement subst a m) as [a' m1].
  rewrite IH. reflexivity.
Qed.

Lemma replaceInStatement_function (i : Expression) (params : list Expression)
    (body : list Statement) (n : nat) :
  replaceInStatement subst (FunctionDeclaration i params body) n =
    let '(id', n1) := replaceInExpression subst i n in
    let '(params', n2) := replaceInList (replaceInExpression subst) params n1 in
    let '(body', n3) := replaceInList (replaceInStatement subst) body n2 in
    (FunctionDeclaration id' params' body', n3).
Proof.
  cbn [replaceInStatement]. destruct (replaceInExpression subst i n) as [i' n1].
  destruct (replaceInList (replaceInExpression subst) params n1) as [ps' n2].
  match goal with |- (let '(_, _) := ?a in _) = (let '(_, _) := ?b in _) =>
    replace a with b; [reflexivity|] end.
  generalize n2. induction body as [|a l IH]; intros m; [reflexivity|].
  cbn [replaceInList]. destruct (replaceInStatement subst a m) as [a' m1].
  rewrite IH. reflexivity.
Qed.

Lemma replaceInStatement_view (s : Statement) :
  forall (n : nat) (s' : Statement) (n' : nat),
    replaceInStatement subst s n = (s', n') ->
    n' = n + length (identifiersOfStatement s) /\
    map view (identifiersOfStatement s') =
      number (renamedView subst) (identifiersOfStatement s) n.
Proof.
  induction s as [e | kind ds | arg | test c a IHc IHa | body IH | i ps body IH]
    using Statement_nested_ind; intros n s' n' Heq.
  - cbn [replaceInStatement] in Heq.
    destruct (replaceInExpression subst e n) as [e' n1] eqn:He. injection Heq as <- <-.
    cbn [identifiersOfStatement].
    apply (replaceInExpression_view e None None KOther _ _ _ eq_refl He).
  - cbn [replaceInStatement] in Heq.
    destruct (replaceInList (replaceInDeclarator subst) ds n) as [ds' n1] eqn:Hds.
    injection Heq as <- <-. cbn [identifiersOfStatement].
    apply (replaceInList_view (replaceInDeclarator subst) identifiersOfDeclarator
             identifiersOfDeclarator ds); [|exact Hds].
    apply Forall_forall. intros d _ m d' m'. apply replaceInDeclarator_view.
  - cbn [replaceInStatement] in Heq.
    destruct (replaceInOption (replaceInExpression subst) arg n) as [arg' n1] eqn:Ha.
    injection Heq as <- <-. cbn [identifiersOfStatement].
    apply replaceInOption_view. exact Ha.
  - cbn [replaceInStatement] in Heq.
    destruct (replaceInExpression subst test n) as [test' n1] eqn:Ht.
    destruct (replaceInStatement subst c n1) as [c' n2] eqn:Hc.
    destruct (replaceInExpression_view test None None KOther _ _ _ eq_refl Ht) as [Hn1 Hv1].
    destruct (IHc _ _ _ Hc) as [Hn2 Hv2].
    destruct a as [a|].
    + destruct (replaceInStatement subst a n2) as [a' n3] eqn:Ha.
      injection Heq as <- <-. destruct (IHa _ _ _ Ha) as [Hn3 Hv3].
      cbn [identifiersOfStatement].
      rewrite !length_app, !map_app, !number_app, Hv1, Hv2, Hv3. subst.
      split; [lia | repeat (f_equal; try lia)].
    + injection Heq as <- <-. cbn [identifiersOfStatement].
      rewrite !length_app, !map_app, !number_app, Hv1, Hv2. subst.
      split; [cbn; lia | repeat (f_equal; try lia)].
  - rewrite replaceInStatement_block in Heq.
    destruct (replaceInList (replaceInStatement subst) body n) as [body' n1] eqn:Hb.
    injection Heq as <- <-. cbn [identifiersOfStatement].
    apply (replaceInList_view (replaceInStatement subst) identifiersOfStatement
             identifiersOfStatement body); [exact IH | exact Hb].
  - rewrite replaceInStatement_function in Heq.
    destruct (replaceInExpression subst i n) as [i' n1] eqn:Hi.
    destruct (replaceInList (replaceInExpression subst) ps n1) as [ps' n2] eqn:Hps.
    destruct (replaceInList (replaceInStatement subst) body n2) as [body' n3] eqn:Hb.
    injection Heq as <- <-. cbn [identifiersOfStatement].
    destruct (replaceInExpression_view i None None KOther _ _ _ eq_refl Hi) as [Hn1 Hv1].
    assert (Hparams : Forall (fun a => forall n a' n',
              replaceInExpression subst a n = (a', n') ->
              n' = n + length (identifiersOfExpression None KOther a) /\
              map view (identifiersOfExpression None KOther a') =
                number (renamedView subst) (identifiersOfExpression None KOther a) n) ps).
    { apply Forall_forall. intros e _ m e' m'. apply replaceInExpression_view. reflexivity. }
    destruct (replaceInList_view (replaceInExpression subst)
                (identifiersOfExpression None KOther) (identifiersOfExpression None KOther)
                ps Hparams _ _ _ Hps) as [Hn2 Hv2].
    destruct (replaceInList_view (replaceInStatement subst) identifiersOfStatement
                identifiersOfStatement body IH _ _ _ Hb) as [Hn3 Hv3].
    rewrite !length_app, !map_app, !number_app, Hv1, Hv2, Hv3. subst.
    split; [lia | repeat (f_equal; try lia)].
Qed.

(** The Identifier paths after [replaceIdentifiers]: as many as before, each
    with the parent kind, key and position it had, and with the name [subst]
    gives its position, or its own name. *)
Lemma identifierPaths_replace (body : list Statement) :
  length (identifierPaths (replaceIdentifiers subst body)) = length (identifierPaths body) /\
  forall (k : nat) (p : IdentifierPath),
    identifierPaths body !! k = Some p ->
    position p = k /\
    exists p', identifierPaths (replaceIdentifiers subst body) !! k = Some p' /\
               pname p' = default (pname p) (subst k) /\
               parentKind (parent p') = parentKind (parent p) /\
               key p' = key p /\
               position p' = k.
Proof.
  unfold replaceIdentifiers, identifierPaths.
  destruct (replaceInList (replaceInStatement subst) body 0) as [body' n'] eqn:Hb.
  destruct (replaceInList_view (replaceInStatement subst) identifiersOfStatement
              identifiersOfStatement body) with (2 := Hb) as [Hn Hv].
  { apply Forall_forall. intros s _. apply replaceInStatement_view. }
  cbn [fst]. split.
  - rewrite !length_number. rewrite <- (length_map view), Hv, length_number. reflexivity.
  - intros k p Hp. rewrite lookup_number in Hp.
    destruct (flat_map identifiersOfStatement body !! k) as [[[name par] ky]|] eqn:Hk;
      [|discriminate Hp].
    cbn in Hp. injection Hp as <-. cbn [position pname parent key]. split; [reflexivity|].
    assert (Hv' : view <$> flat_map identifiersOfStatement body' !! k
                  = Some (renamedView subst (name, par, ky) k)).
    { rewrite <- list_lookup_fmap. change (fmap view) with (map view).
      rewrite Hv, lookup_number, Hk. reflexivity. }
    destruct (flat_map identifiersOfStatement body' !! k) as [[[name' par'] ky']|] eqn:Hk';
      [|discriminate Hv'].
    cbn in Hv'. injection Hv' as Hname Hpar Hky.
    eexists. rewrite lookup_number, Hk'. split; [reflexivity|].
    cbn. repeat split; assumption.
Qed.

Lemma replaceInList_none {A} (f : A -> nat -> A * nat) (count : A -> nat) (l : list A) :
  Forall (fun a => forall n, f a n = (a, n + count a)) l ->
  forall n, replaceInList f l n = (l, n + list_sum (map count l)).
Proof.
  induction 1 as [|a l Ha _ IH]; intros n; cbn [replaceInList map].
  - cbn. rewrite Nat.add_0_r. reflexivity.
  - rewrite Ha, IH. f_equal. unfold list_sum. cbn [map fold_right]. lia.
Qed.

End ReplaceFacts.

(** ** hoistGlobals: what is hoisted and what the program becomes *)

Section HoistGlobalsRewriting.
Import Ast ProfitCalculator HoistGlobals.

Lemma hoistGlobals_unfold (file : File) :
  hoistGlobals file =
    if bool_decide ((list_to_set (globals file) : gset jsstring) = ∅)
    then {| ast := file; hoistedGlobals := [] |}
    else
      let hs := number hoistedOf (decisionsOf file) 0 in
      {| ast := {| program := declarationOf hs
                              ++ replaceIdentifiers (placeholderAt (decisionsOf file) 0)
                                   (program file);
                   globals := globals file |};
         hoistedGlobals := hs |}.
Proof.
  unfold hoistGlobals. case_bool_decide; [reflexivity|]. cbv zeta.
  fold (decisionsOf file). unfold declarationOf. 
  change (fun (d : GlobalDecision) (i : nat) =>
            {| hname := placeholderName i; globalName := name (info d);
               occurrences := length (references (info d)) |}) with hoistedOf.
  destruct (number hoistedOf (decisionsOf file) 0); reflexivity.
Qed.

Lemma decisions_sublist (usage : list GlobalInfo) (acc : list GlobalDecision) :
  map info (fold_left decideGlobal usage acc) `sublist_of` map info acc ++ usage.
Proof.
  revert acc. induction usage as [|i usage IH]; intros acc; cbn [fold_left].
  - rewrite app_nil_r. reflexivity.
  - etransitivity; [apply IH|]. unfold decideGlobal.
    destruct (length (references i) <? 2).
    + apply sublist_app; [reflexivity | apply sublist_cons; reflexivity].
    + destruct (num_gt _ 0).
      * rewrite map_app. cbn [map info]. rewrite <- app_assoc. reflexivity.
      * apply sublist_app; [reflexivity | apply sublist_cons; reflexivity].
Qed.

(** What the decisions are, in terms of the program. *)
Lemma decisionsOf_spec (file : File) :
  NoDup (map (fun d => name (info d)) (decisionsOf file)) /\
  forall d, d ∈ decisionsOf file ->
    references (info d) = memberObjectUses (name (info d)) (program file) /\
    2 <= length (references (info d)).
Proof.
  unfold decisionsOf. cbv zeta. unfold collectUsage. rewrite collectUsage_filter.
  match goal with |- context [fold_left decideGlobal (fold_left _ ?l []) []] =>
    destruct (usageOf_fold l) as (Hnd & _ & Hrefs);
    set (usage := fold_left (fun globalUsage path =>
                               pushReference globalUsage (pname path) path) l []) in *
  end.
  split.
  - rewrite sort_perm. 
    rewrite <- (map_map info name).
    eapply sublist_NoDup; [exact Hnd|].
    apply (fmap_sublist name). apply (decisions_sublist usage []).
  - intros d Hd. apply elem_of_sort, elem_of_decisions in Hd as [Hd | [Hinfo Hlen]];
      [inversion Hd|].
    split; [|exact Hlen].
    specialize (Hrefs _ Hinfo). rewrite !list_filter_filter in Hrefs.
    assert (Hne : exists p, p ∈ references (info d)).
    { destruct (references (info d)) as [|p r]; [simpl in Hlen; lia|]. exists p. left. }
    destruct Hne as (p & Hp). rewrite Hrefs in Hp.
    apply list_elem_of_filter in Hp as (((Hpn & HT & HY) & HM) & Hp).
    apply andb_true_iff in HM as [HM HR]. apply negb_true_iff, has_false in HR.
    rewrite Hrefs. unfold memberObjectUses. apply list_filter_iff.
    intros q. cbn beta. split.
    + intros ((Hqn & _) & HqM). apply andb_true_iff in HqM as [HqM _].
      split; assumption.
    + intros [Hqn HqM]. rewrite Hqn, <- Hpn. repeat split; try assumption.
      rewrite HqM. apply andb_true_iff. split; [reflexivity|].
      apply negb_true_iff, has_false. assumption.
Qed.

Lemma map_number {A B C} (g : B -> C) (f : A -> nat -> B) (l : list A) (i : nat) :
  map g (number f l i) = number (fun a j => g (f a j)) l i.
Proof. revert i. induction l as [|a l IH]; intros i; cbn; [|rewrite IH]; reflexivity. Qed.

Lemma number_const {A B} (f : A -> B) (l : list A) (i : nat) :
  number (fun a _ => f a) l i = map f l.
Proof. revert i. induction l as [|a l IH]; intros i; cbn; [|rewrite IH]; reflexivity. Qed.

Lemma number_index {A B} (f : nat -> B) (l : list A) (i : nat) :
  number (fun _ j => f j) l i = map f (seq i (length l)).
Proof. revert i. induction l as [|a l IH]; intros i; cbn; [|rewrite IH]; reflexivity. Qed.

Lemma StronglySorted_number {A B} (R : A -> A -> Prop) (R' : B -> B -> Prop)
    (f : A -> nat -> B) (l : list A) (i : nat) :
  (forall a b j k, R a b -> R' (f a j) (f b k)) ->
  StronglySorted R l -> StronglySorted R' (number f l i).
Proof.
  intros HR Hs. revert i. induction Hs as [|a l Hs IH Ha]; intros i; cbn [number].
  - constructor.
  - constructor; [apply IH|]. apply list.Forall_forall. intros b Hb.
    apply elem_of_number in Hb as (a' & j & Ha' & ->). apply HR.
    rewrite list.Forall_forall in Ha. apply Ha. exact Ha'.
Qed.

Lemma sumZ_app {A} (f : A -> Z) (l1 l2 : list A) :
  sumZ f (l1 ++ l2) = (sumZ f l1 + sumZ f l2)%Z.
Proof. induction l1 as [|a l1 IH]; cbn; [reflexivity | rewrite IH; lia]. Qed.

Lemma sumZ_perm {A} (f : A -> Z) (l1 l2 : list A) : l1 ≡ₚ l2 -> sumZ f l1 = sumZ f l2.
Proof. induction 1; cbn; lia. Qed.

Lemma sumZ_map {A B} (f : B -> Z) (g : A -> B) (l : list A) :
  sumZ f (map g l) = sumZ (fun a => f (g a)) l.
Proof. induction l as [|a l IH]; cbn; [reflexivity | rewrite IH; reflexivity]. Qed.

Lemma sumZ_number {A B} (f : B -> Z) (g : A -> nat -> B) (l : list A) (i : nat) :
  (forall a j k, f (g a j) = f (g a k)) ->
  sumZ f (number g l i) = sumZ (fun a => f (g a 0)) l.
Proof.
  intros Hf. revert i. induction l as [|a l IH]; intros i; cbn; [reflexivity|].
  rewrite IH, (Hf a i 0). reflexivity.
Qed.

(** X7: the listing of hoisted globals: placeholders numbered in order, no
    global twice, most used first, and the recorded occurrences are the
    member-object uses of the global in the program. *)
Theorem hoistGlobals_listing (file : File) :
  let hs := hoistedGlobals (hoistGlobals file) in
  map hname hs = map placeholderName (seq 0 (length hs)) /\
  NoDup (map globalName hs) /\
  StronglySorted (fun a b => occurrences b <= occurrences a) hs /\
  forall h, h ∈ hs ->
    occurrences h = length (memberObjectUses (globalName h) (program file)) /\
    2 <= occurrences h.
Proof.
  cbv zeta. rewrite hoistGlobals_unfold. case_bool_decide as Hempty.
  - cbn. split; [reflexivity|]. split; [apply NoDup_nil_2|]. split; [constructor|].
    intros h Hh. inversion Hh.
  - cbn [hoistedGlobals]. destruct (decisionsOf_spec file) as [Hnd Hrefs].
    split; [|split; [|split; [|intros h H; split]]].
    + rewrite map_number, length_number. unfold hoistedOf. cbn [hname].
      apply number_index.
    + rewrite map_number. unfold hoistedOf. cbn [globalName].
      rewrite (number_const (fun d => name (info d))). exact Hnd.
    + apply (StronglySorted_number
               (fun a b => (Z.of_nat (length (references (info b)))
                            <= Z.of_nat (length (references (info a))))%Z)).
      * intros a b j k Hab. cbn. lia.
      * unfold decisionsOf. cbv zeta.
        apply (sort_descending (fun d => Z.of_nat (length (references (info d))))).
    + apply elem_of_number in H as (d & j & Hd & ->). cbn.
      destruct (Hrefs d Hd) as [-> _]. reflexivity.
    + apply elem_of_number in H as (d & j & Hd & ->). cbn.
      destruct (Hrefs d Hd) as [_ Hlen]. exact Hlen.
Qed.

Lemma decideGlobal_gain (usage : list GlobalInfo) (acc : list GlobalDecision) :
  let gain := fun d : GlobalDecision =>
    (Z.of_nat (length (references (info d))) * strlen (name (info d))
     - Z.of_nat (length (references (info d))) * 1
     - (1 + 1 + strlen (name (info d))))%Z in
  ((match acc with [] => 0 | _ => 5 end) + 2 * Z.of_nat (length acc) <= sumZ gain acc)%Z ->
  let result := fold_left decideGlobal usage acc in
  ((match result with [] => 0 | _ => 5 end) + 2 * Z.of_nat (length result)
   <= sumZ gain result)%Z.
Proof.
  cbv zeta. revert acc. induction usage as [|i usage IH]; intros acc Hacc; cbn [fold_left].
  - exact Hacc.
  - apply IH. unfold decideGlobal.
    destruct (length (references i) <? 2); [exact Hacc|].
    destruct (num_gt _ 0) eqn:Hgt; [|exact Hacc].
    rewrite sumZ_app, length_app. cbn [sumZ length info].
    unfold calculateGlobalProfit in Hgt.
    destruct (Z.of_nat (length (references i)) <? 2)%Z; [discriminate Hgt|].
    cbn [num_gt] in Hgt. apply Z.gtb_gt in Hgt. unfold getDeclarationCost in Hgt.
    destruct acc as [|d acc]; cbn [length Nat.eqb app sumZ] in *; lia.
Qed.

Lemma decisions_save (usage : list GlobalInfo) :
  let D := fold_left decideGlobal usage [] in
  D <> [] ->
  (6 + sumZ (fun a => 1 + 1 + strlen (name (info a))) D + (Z.of_nat (length D) - 1)
   + sumZ (fun a => Z.of_nat (length (references (info a))) * 1) D
   < sumZ (fun a => Z.of_nat (length (references (info a))) * strlen (name (info a))) D)%Z.
Proof.
  cbv zeta. intros Hne.
  pose proof (decideGlobal_gain usage [] ltac:(cbn; lia)) as Hgain. cbv zeta in Hgain.
  revert Hne Hgain. generalize (fold_left decideGlobal usage []). intros l Hne H.
  assert (Hsum : forall l : list GlobalDecision,
    sumZ (fun d => (Z.of_nat (length (references (info d))) * strlen (name (info d))
                    - Z.of_nat (length (references (info d))) * 1
                    - (1 + 1 + strlen (name (info d))))%Z) l
    = (sumZ (fun a => Z.of_nat (length (references (info a))) * strlen (name (info a))) l
       - sumZ (fun a => Z.of_nat (length (references (info a))) * 1) l
       - sumZ (fun a => 1 + 1 + strlen (name (info a))) l)%Z).
  { induction l0 as [|a l0 IH]; cbn [sumZ]; [reflexivity | rewrite IH; lia]. }
  rewrite Hsum in H. destruct l; [contradiction|]. cbn [length] in *. lia.
Qed.

(** X8: under the cost model of the pass (one byte per new identifier), the
    const declaration and the rewritten references together take fewer bytes
    than the references they replace, whenever something is hoisted. *)
Theorem hoistGlobals_saves (file : File) :
  let hs := hoistedGlobals (hoistGlobals file) in
  hs <> [] ->
  (6 + sumZ declaratorBytes hs + (Z.of_nat (length hs) - 1) + sumZ referenceBytes hs
   < sumZ bytesBefore hs)%Z.
Proof.
  cbv zeta. rewrite hoistGlobals_unfold. case_bool_decide as Hempty; [intros H; contradiction|].
  cbn [hoistedGlobals]. intros Hne.
  rewrite !sumZ_number by reflexivity. rewrite length_number.
  unfold declaratorBytes, referenceBytes, bytesBefore, hoistedOf.
  cbn [globalName occurrences].
  assert (Hlen : decisionsOf file <> []).
  { intros Heq. rewrite Heq in Hne. apply Hne. reflexivity. }
  unfold decisionsOf in *. cbv zeta in *.
  rewrite !(sumZ_perm _ _ _ (sort_perm byReferences _)), length_sort.
  apply decisions_save. intros Heq. apply Hlen. rewrite Heq. reflexivity.
Qed.

Lemma hoistGlobals_saves_localStorage :
  hoistedGlobals (hoistGlobals computedAccessFile) <> [] /\
  (6 + sumZ declaratorBytes (hoistedGlobals (hoistGlobals computedAccessFile))
   + (Z.of_nat (length (hoistedGlobals (hoistGlobals computedAccessFile))) - 1)
   + sumZ referenceBytes (hoistedGlobals (hoistGlobals computedAccessFile))
   < sumZ bytesBefore (hoistedGlobals (hoistGlobals computedAccessFile)))%Z.
Proof.
  assert (H : hoistedGlobals (hoistGlobals computedAccessFile) <> []).
  { vm_compute. discriminate. }
  split; [exact H | exact (hoistGlobals_saves computedAccessFile H)].
Defined.

Lemma placeholderAt_Some (D : list GlobalDecision) (i pos : nat) (x : jsstring) :
  placeholderAt D i pos = Some x ->
  exists j d, D !! j = Some d /\
              existsb (fun p => position p =? pos) (references (info d)) = true /\
              x = placeholderName (i + j).
Proof.
  revert i. induction D as [|d D IH]; intros i; cbn [placeholderAt]; [discriminate|].
  destruct (placeholderAt D (S i) pos) as [later|] eqn:Hlater.
  - intros [= <-]. destruct (IH _ Hlater) as (j & d' & Hj & He & Hx).
    exists (S j), d'. repeat split; [exact Hj | exact He |]. rewrite Hx. f_equal. lia.
  - destruct (existsb _ _) eqn:He; [|discriminate]. intros [= <-].
    exists 0, d. repeat split; [exact He | f_equal; lia].
Qed.

Lemma placeholderAt_None (D : list GlobalDecision) (i pos : nat) :
  placeholderAt D i pos = None ->
  forall d, d ∈ D -> existsb (fun p => position p =? pos) (references (info d)) = false.
Proof.
  revert i. induction D as [|d D IH]; intros i; cbn [placeholderAt].
  - intros _ d Hd. inversion Hd.
  - destruct (placeholderAt D (S i) pos) as [later|] eqn:Hlater; [discriminate|].
    destruct (existsb _ _) eqn:He; [discriminate|]. intros _ d' Hd'.
    apply elem_of_cons in Hd' as [-> | Hd']; [exact He | exact (IH _ Hlater _ Hd')].
Qed.

Lemma identifierPaths_position (body : list Statement) (p : IdentifierPath) :
  p ∈ identifierPaths body -> identifierPaths body !! position p = Some p.
Proof.
  intros (k & Hk)%list_elem_of_lookup. pose proof Hk as Hk'.
  unfold identifierPaths in Hk'. rewrite lookup_number in Hk'.
  destruct (flat_map identifiersOfStatement body !! k) as [[[n par] ky]|]; [|discriminate].
  cbn in Hk'. injection Hk' as <-. exact Hk.
Qed.

(** The replacement at a position, read off the decisions. *)
Lemma placeholderAt_decisions (file : File) (k : nat) (p : IdentifierPath) :
  identifierPaths (program file) !! k = Some p ->
  match placeholderAt (decisionsOf file) 0 k with
  | Some x =>
      exists j d, decisionsOf file !! j = Some d /\ name (info d) = pname p /\
                  isMemberExpressionObject p = true /\ x = placeholderName j
  | None =>
      isMemberExpressionObject p = false \/
      forall d, d ∈ decisionsOf file -> name (info d) <> pname p
  end.
Proof.
  intros Hp. destruct (decisionsOf_spec file) as [Hnd Hrefs].
  assert (Hk : position p = k).
  { unfold identifierPaths in Hp. rewrite lookup_number in Hp.
    destruct (flat_map identifiersOfStatement (program file) !! k) as [[[n par] ky]|];
      [|discriminate].
    cbn in Hp. injection Hp as <-. reflexivity. }
  destruct (placeholderAt (decisionsOf file) 0 k) as [x|] eqn:Hx.
  - apply placeholderAt_Some in Hx as (j & d & Hj & He & ->).
    apply existsb_exists in He as (q & Hq & Hqk). apply Nat.eqb_eq in Hqk.
    apply list_elem_of_In in Hq.
    destruct (Hrefs d (list_elem_of_lookup_2 _ _ _ Hj)) as [Hr _]. rewrite Hr in Hq.
    apply list_elem_of_filter in Hq as [[Hqn HqM] Hq].
    apply identifierPaths_position in Hq. rewrite Hqk, Hp in Hq. injection Hq as ->.
    exists j, d. repeat split; [exact Hj | congruence | exact HqM].
  - destruct (isMemberExpressionObject p) eqn:HM; [|left; reflexivity]. right.
    intros d Hd Hn. pose proof (placeholderAt_None _ _ _ Hx d Hd) as He.
    destruct (Hrefs d Hd) as [Hr _].
    assert (Hin : p ∈ references (info d)).
    { rewrite Hr. apply list_elem_of_filter. split; [split; [congruence | exact HM]|].
      apply list_elem_of_lookup_2 with k. exact Hp. }
    assert (He' : existsb (fun q => position q =? k) (references (info d)) = true).
    { apply existsb_exists. exists p. split; [apply list_elem_of_In; exact Hin|].
      apply Nat.eqb_eq. exact Hk. }
    congruence.
Qed.

(** X9: what hoistGlobals does to the program: the declaration (when something
    is hoisted) is followed by the old body with the same Identifier nodes in
    the same places; a node that is the object of a member expression and
    names a hoisted global carries that global's placeholder, and every
    other Identifier, a typeof operand among them, keeps its name. *)
Theorem hoistGlobals_rewrites (file : File) :
  let result := hoistGlobals file in
  exists body,
    program (ast result) = declarationOf (hoistedGlobals result) ++ body /\
    length (identifierPaths body) = length (identifierPaths (program file)) /\
    forall (k : nat) (p : IdentifierPath),
      identifierPaths (program file) !! k = Some p ->
      exists p', identifierPaths body !! k = Some p' /\
                 parentKind (parent p') = parentKind (parent p) /\
                 key p' = key p /\
                 (isMemberExpressionObject p = true ->
                  forall h, h ∈ hoistedGlobals result -> globalName h = pname p ->
                            pname p' = hname h) /\
                 (isMemberExpressionObject p = false \/
                  (forall h, h ∈ hoistedGlobals result -> globalName h <> pname p) ->
                  pname p' = pname p).
Proof.
  cbv zeta. rewrite hoistGlobals_unfold. case_bool_decide as Hempty.
  - cbn [ast hoistedGlobals declarationOf app]. exists (program file).
    split; [reflexivity|]. split; [reflexivity|]. intros k p Hp. exists p.
    repeat split; try assumption; try reflexivity.
    intros _ h Hh. inversion Hh.
  - cbn [ast hoistedGlobals program].
    exists (replaceIdentifiers (placeholderAt (decisionsOf file) 0) (program file)).
    split; [reflexivity|].
    destruct (identifierPaths_replace (placeholderAt (decisionsOf file) 0) (program file))
      as [Hlen Hpaths].
    split; [exact Hlen|]. intros k p Hp.
    destruct (Hpaths k p Hp) as (Hk & p' & Hp' & Hname & Hpar & Hkey & _).
    exists p'. split; [exact Hp'|]. split; [exact Hpar|]. split; [exact Hkey|].
    pose proof (placeholderAt_decisions file k p Hp) as Hat.
    destruct (decisionsOf_spec file) as [Hnd _].
    destruct (placeholderAt (decisionsOf file) 0 k) as [x|]; cbn [default] in Hname.
    + destruct Hat as (j & d & Hj & Hdn & HM & ->). split.
      * intros _ h Hh Hg. rewrite Hname.
        apply list_elem_of_lookup in Hh as (j' & Hj'). rewrite lookup_number in Hj'.
        destruct (decisionsOf file !! j') as [d'|] eqn:Hd'; [|discriminate].
        cbn in Hj'. injection Hj' as <-. cbn in Hg |- *.
        assert (j = j'); [|subst; reflexivity].
        eapply NoDup_lookup; [exact Hnd | |].
        -- rewrite list_lookup_fmap, Hj. reflexivity.
        -- change (map ?f ?l) with (f <$> l). rewrite list_lookup_fmap, Hd'. cbn. congruence.
      * intros [HM' | Hnone]; [congruence|]. exfalso.
        apply (Hnone (hoistedOf d j)); [|exact Hdn].
        apply list_elem_of_lookup. exists j. rewrite lookup_number, Hj. reflexivity.
    + split; [|intros _; exact Hname].
      intros HM h Hh Hg. exfalso. destruct Hat as [HM' | Hnone]; [congruence|].
      apply elem_of_number in Hh as (d & j & Hd & ->). exact (Hnone d Hd Hg).
Qed.

Lemma replaceInExpression_unchanged (subst : nat -> option jsstring) (e : Expression) :
  (forall i, subst i = None) -> forall n, fst (replaceInExpression subst e n) = e.
Proof.
  intros Hnone.
  induction e as [name | v | v | v | | v | | o p c IHo IHp | op a IHa
                  | op l r IHl IHr | op l r IHl IHr | op l r IHl IHr
                  | callee args IHc IHargs | els IHels] using Expression_nested_ind;
    intros n; try reflexivity.
  - cbn. rewrite Hnone. reflexivity.
  - cbn [replaceInExpression]. specialize (IHo n).
    destruct (replaceInExpression subst o n) as [o' n1]. specialize (IHp n1).
    destruct (replaceInExpression subst p n1) as [p' n2]. cbn in *. congruence.
  - cbn [replaceInExpression]. specialize (IHa n).
    destruct (replaceInExpression subst a n) as [a' n1]. cbn in *. congruence.
  - cbn [replaceInExpression]. specialize (IHl n).
    destruct (replaceInExpression subst l n) as [l' n1]. specialize (IHr n1).
    destruct (replaceInExpression subst r n1) as [r' n2]. cbn in *. congruence.
  - cbn [replaceInExpression]. specialize (IHl n).
    destruct (replaceInExpression subst l n) as [l' n1]. specialize (IHr n1).
    destruct (replaceInExpression subst r n1) as [r' n2]. cbn in *. congruence.
  - cbn [replaceInExpression]. specialize (IHl n).
    destruct (replaceInExpression subst l n) as [l' n1]. specialize (IHr n1).
    destruct (replaceInExpression subst r n1) as [r' n2]. cbn in *. congruence.
  - rewrite replaceInExpression_call. specialize (IHc n).
    destruct (replaceInExpression subst callee n) as [c' n1].
    assert (Hl : forall m, fst (replaceInList (replaceInExpression subst) args m) = args).
    { induction IHargs as [|a l Ha _ IHl']; intros m; [reflexivity|].
      cbn [replaceInList]. specialize (Ha m).
      destruct (replaceInExpression subst a m) as [a' m1]. specialize (IHl' m1).
      destruct (replaceInList (replaceInExpression subst) l m1). cbn in *. congruence. }
    specialize (Hl n1). destruct (replaceInList (replaceInExpression subst) args n1).
    cbn in *. congruence.
  - rewrite replaceInExpression_array.
    assert (Hl : forall m, fst (replaceInList (replaceInExpression subst) els m) = els).
    { induction IHels as [|a l Ha _ IHl']; intros m; [reflexivity|].
      cbn [replaceInList]. specialize (Ha m).
      destruct (replaceInExpression subst a m) as [a' m1]. specialize (IHl' m1).
      destruct (replaceInList (replaceInExpression subst) l m1). cbn in *. congruence. }
    specialize (Hl n). destruct (replaceInList (replaceInExpression subst) els n).
    cbn in *. congruence.
Qed.

Lemma replaceInList_unchanged {A} (f : A -> nat -> A * nat) (l : list A) :
  Forall (fun a => forall n, fst (f a n) = a) l ->
  forall n, fst (replaceInList f l n) = l.
Proof.
  induction 1 as [|a l Ha _ IH]; intros n; [reflexivity|].
  cbn [replaceInList]. specialize (Ha n). destruct (f a n) as [a' n1].
  specialize (IH n1). destruct (replaceInList f l n1). cbn in *. congruence.
Qed.

Lemma replaceInStatement_unchanged (subst : nat -> option jsstring) (s : Statement) :
  (forall i, subst i = None) -> forall n, fst (replaceInStatement subst s n) = s.
Proof.
  intros Hnone.
  assert (HE : forall e n, fst (replaceInExpression subst e n) = e).
  { intros e n. apply replaceInExpression_unchanged. exact Hnone. }
  assert (HO : forall (o : option Expression) n,
             fst (replaceInOption (replaceInExpression subst) o n) = o).
  { intros [e|] n; [|reflexivity]. cbn. specialize (HE e n).
    destruct (replaceInExpression subst e n). cbn in *. congruence. }
  induction s as [e | kind ds | arg | test c a IHc IHa | body IH | i ps body IH]
    using Statement_nested_ind; intros n.
  - cbn. specialize (HE e n). destruct (replaceInExpression subst e n). cbn in *. congruence.
  - cbn [replaceInStatement].
    pose proof (replaceInList_unchanged (replaceInDeclarator subst) ds) as Hds.
    specialize (Hds ltac:(apply Forall_forall; intros [di dn] _ m;
      unfold replaceInDeclarator; cbn [id init];
      pose proof (HE di m); destruct (replaceInExpression subst di m) as [? m1];
      pose proof (HO dn m1); destruct (replaceInOption (replaceInExpression subst) dn m1);
      cbn in *; congruence) n).
    destruct (replaceInList (replaceInDeclarator subst) ds n). cbn in *. congruence.
  - cbn. specialize (HO arg n).
    destruct (replaceInOption (replaceInExpression subst) arg n). cbn in *. congruence.
  - cbn [replaceInStatement]. specialize (HE test n).
    destruct (replaceInExpression subst test n) as [t' n1]. specialize (IHc n1).
    destruct (replaceInStatement subst c n1) as [c' n2].
    destruct a as [a|].
    + specialize (IHa n2). destruct (replaceInStatement subst a n2). cbn in *. congruence.
    + cbn in *. congruence.
  - rewrite replaceInStatement_block.
    pose proof (replaceInList_unchanged (replaceInStatement subst) body IH n) as Hb.
    destruct (replaceInList (replaceInStatement subst) body n). cbn in *. congruence.
  - rewrite replaceInStatement_function. pose proof (HE i n) as Hi.
    destruct (replaceInExpression subst i n) as [i' n1].
    pose proof (replaceInList_unchanged (replaceInExpression subst) ps
                  ltac:(apply Forall_forall; intros e _ m; apply HE) n1) as Hps.
    destruct (replaceInList (replaceInExpression subst) ps n1) as [ps' n2].
    pose proof (replaceInList_unchanged (replaceInStatement subst) body IH n2) as Hb.
    destruct (replaceInList (replaceInStatement subst) body n2). cbn in *. congruence.
Qed.

(** X10: when no global is hoisted the file comes back as it was. *)
Theorem hoistGlobals_nothing_hoisted (file : File) :
  hoistedGlobals (hoistGlobals file) = [] -> ast (hoistGlobals file) = file.
Proof.
  rewrite hoistGlobals_unfold. case_bool_decide as Hempty; [reflexivity|].
  cbn [hoistedGlobals ast]. intros Hnil.
  assert (HD : decisionsOf file = []).
  { destruct (decisionsOf file); [reflexivity | discriminate Hnil]. }
  rewrite HD. cbn [number declarationOf app]. destruct file as [body g].
  cbn [program globals]. f_equal. unfold replaceIdentifiers.
  apply replaceInList_unchanged, Forall_forall. intros s _ n.
  apply replaceInStatement_unchanged. reflexivity.
Qed.

Lemma hoistGlobals_nothing_hoisted_typeof :
  hoistedGlobals (hoistGlobals typeofGuardedFile) = [] /\
  ast (hoistGlobals typeofGuardedFile) = typeofGuardedFile.
Proof.
  assert (H : hoistedGlobals (hoistGlobals typeofGuardedFile) = []).
  { vm_compute. reflexivity. }
  split; [exact H | exact (hoistGlobals_nothing_hoisted typeofGuardedFile H)].
Defined.

End HoistGlobalsRewriting.

(** ** hoistDuplicateLiterals: the decisions and the bindings *)

Section StringDecisionFacts.
Import Ast ProfitCalculator HoistDuplicateLiterals.
Local Open Scope Z_scope.

Lemma stringCandidate_spec (value : jsstring) (usage : StringUsageCollected)
    (c : StringCandidate) :
  stringCandidate (value, usage) = Some c ->
  cvalue c = value /\ cusage c = usage /\
  num_gt (cprofit c) (-2) = true /\
  2 <= effectiveOccurrences c /\
  rewrittenNodes (decisionOf c) = effectiveOccurrences c /\
  (hoistPropertyAccess (selectiveResult c) = true -> 2 < strlen value) /\
  (hoistObjectProperties (selectiveResult c) = true -> 3 < strlen value).
Proof.
  unfold stringCandidate. cbv zeta.
  destruct (_ <? 2); [discriminate|].
  destruct (num_gt _ (-2)) eqn:Hgt; [|discriminate].
  destruct (2 <=? _) eqn:Heff; [|discriminate].
  intros [= <-]. cbn [cvalue cusage effectiveOccurrences cprofit selectiveResult].
  apply Z.leb_le in Heff.
  repeat split; try assumption.
  - unfold rewrittenNodes, decisionOf.
    cbn [sHoistLiterals sHoistPropertyAccess sHoistObjectProperties susage
         uLiteralNodes uPropertyAccessNodes uObjectPropertyNodes selectiveResult cusage].
    unfold len. rewrite !length_app, !Nat2Z.inj_add.
    repeat match goal with |- context [if ?b then _ else _] => destruct b end; lia.
  - unfold calculateSelectiveStringProfit. cbv zeta.
    destruct (_ <? 2); cbn [hoistPropertyAccess]; [discriminate|].
    intros [H _]%andb_true_iff. unfold isPropertyAccessProfitable in H.
    apply Z.gtb_gt in H. lia.
  - unfold calculateSelectiveStringProfit. cbv zeta.
    destruct (_ <? 2); cbn [hoistObjectProperties]; [discriminate|].
    intros [H _]%andb_true_iff. unfold isObjectPropertyProfitable in H.
    apply Z.gtb_gt in H. lia.
Qed.

Lemma List_filter_sublist {A} (f : A -> bool) (l : list A) : List.filter f l `sublist_of` l.
Proof.
  induction l as [|a l IH]; cbn [List.filter]; [reflexivity|].
  destruct (f a); [apply sublist_skip | apply sublist_cons]; exact IH.
Qed.

Lemma elem_of_List_filter {A} (f : A -> bool) (l : list A) (x : A) :
  x ∈ List.filter f l <-> x ∈ l /\ f x = true.
Proof. rewrite !list_elem_of_In. apply filter_In. Qed.

Lemma elem_of_selectCandidates (cs : list StringCandidate) (c : StringCandidate) :
  c ∈ selectCandidates cs -> c ∈ cs.
Proof.
  unfold selectCandidates. cbv zeta.
  destruct (7 <=? length (List.filter _ cs))%nat.
  - intros [H _]%elem_of_List_filter. exact H.
  - destruct (7 <=? _ + _)%nat.
    + intros [H | H]%elem_of_app; apply elem_of_List_filter in H as [H _]; exact H.
    + intros [H _]%elem_of_List_filter. exact H.
Qed.

(** The decisions are the accepted candidates and, behind them, the
    candidates passed over whose own profit is positive, sorted. *)
Lemma decideStrings_perm (l : list StringCandidate) :
  decideStrings l = [] \/
  decideStrings l ≡ₚ
    map decisionOf (List.filter profitableAlone (fst (firstAccepted l))
                    ++ snd (firstAccepted l)).
Proof.
  unfold decideStrings. rewrite firstSlot_before. cbn [app].
  destruct (snd (firstAccepted l)) as [|c accepted]; [left; reflexivity|]. right.
  cbn [map length Nat.ltb Nat.leb]. rewrite sort_perm, map_app.
  apply Permutation_app_comm.
Qed.

Lemma elem_of_decideStrings (l : list StringCandidate) (d : SelectiveStringHoistDecision) :
  d ∈ decideStrings l -> exists c, c ∈ l /\ d = decisionOf c.
Proof.
  destruct (decideStrings_perm l) as [-> | Hperm]; [intros H; inversion H|].
  rewrite Hperm. intros (c & -> & Hc)%list_elem_of_fmap. exists c. split; [|reflexivity].
  destruct (firstAccepted_split l) as (Hsplit & _). rewrite Hsplit.
  apply elem_of_app in Hc as [Hc | Hc]; apply elem_of_app.
  - left. apply elem_of_List_filter in Hc as [Hc _]. exact Hc.
  - right. exact Hc.
Qed.

Lemma elem_of_stringDecisionsOf (stringUsage : list (jsstring * StringUsageCollected))
    (d : SelectiveStringHoistDecision) :
  d ∈ stringDecisionsOf stringUsage ->
  exists value usage c, (value, usage) ∈ stringUsage /\
                        stringCandidate (value, usage) = Some c /\ d = decisionOf c.
Proof.
  unfold stringDecisionsOf. cbv zeta.
  intros (c & Hc & ->)%elem_of_decideStrings.
  apply elem_of_sort, elem_of_selectCandidates, list_elem_of_omap in Hc
    as ([value usage] & Hentry & Hcand).
  exists value, usage, c. repeat split; assumption.
Qed.

(** X11: every string the pass decides to hoist is a key of [stringUsage]
    with at least two occurrences that will be rewritten, a profit above
    [-2], and its recorded occurrences are the nodes the replacement loop
    rewrites; dot accesses are rewritten only for names longer than two
    characters and identifier keys only for names longer than three. *)
Theorem string_decisions_sound (stringUsage : list (jsstring * StringUsageCollected))
    (d : SelectiveStringHoistDecision) :
  d ∈ stringDecisionsOf stringUsage ->
  (exists usage, (svalue d, usage) ∈ stringUsage) /\
  2 <= soccurrences d /\
  soccurrences d = rewrittenNodes d /\
  num_gt (sprofit d) (-2) = true /\
  (sHoistPropertyAccess d = true -> 2 < strlen (svalue d)) /\
  (sHoistObjectProperties d = true -> 3 < strlen (svalue d)).
Proof.
  intros (value & usage & c & Hin & Hc & ->)%elem_of_stringDecisionsOf.
  destruct (stringCandidate_spec _ _ _ Hc) as (Hv & Hu & Hp & Hocc & Hrw & HP & HK).
  rewrite Hrw. cbn [decisionOf svalue soccurrences sprofit sHoistPropertyAccess
                     sHoistObjectProperties].
  rewrite Hv. repeat split; try assumption.
  exists usage. exact Hin.
Qed.

Lemma string_decisions_sound_abc :
  abcDecision ∈ stringDecisionsOf abcUsage /\
  (exists usage, (svalue abcDecision, usage) ∈ abcUsage) /\
  (2 <= soccurrences abcDecision)%Z /\
  soccurrences abcDecision = rewrittenNodes abcDecision /\
  num_gt (sprofit abcDecision) (-2) = true.
Proof.
  assert (H : abcDecision ∈ stringDecisionsOf abcUsage).
  { replace (stringDecisionsOf abcUsage) with [abcDecision] by (vm_compute; reflexivity).
    left. }
  split; [exact H|].
  destruct (string_decisions_sound abcUsage abcDecision H) as (H1 & H2 & H3 & H4 & _).
  repeat split; assumption.
Defined.

Lemma values_sublist (stringUsage : list (jsstring * StringUsageCollected)) :
  map cvalue (omap stringCandidate stringUsage) `sublist_of` map fst stringUsage.
Proof.
  induction stringUsage as [|[value usage] l IH]; [reflexivity|].
  cbn [omap list_omap map fst].
  destruct (stringCandidate (value, usage)) as [c|] eqn:Hc.
  - apply stringCandidate_spec in Hc as (Hv & _). cbn [map]. rewrite Hv.
    apply sublist_skip, IH.
  - apply sublist_cons, IH.
Qed.

Lemma NoDup_filters {A B} (g : A -> B) (f1 f2 : A -> bool) (l : list A) :
  (forall x, f1 x = true -> f2 x = true -> False) ->
  NoDup (map g l) -> NoDup (map g (List.filter f1 l ++ List.filter f2 l)).
Proof.
  intros Hex. induction l as [|a l IH]; cbn [map List.filter]; [intros; constructor|].
  intros [Ha Hnd]%NoDup_cons. specialize (IH Hnd).
  assert (Hnot : g a ∉ map g (List.filter f1 l ++ List.filter f2 l)).
  { intros (x & Hx & Hin)%list_elem_of_fmap. apply Ha. apply list_elem_of_fmap.
    exists x. split; [exact Hx|].
    apply elem_of_app in Hin as [Hin | Hin]; apply elem_of_List_filter in Hin as [Hin _];
      exact Hin. }
  destruct (f1 a) eqn:H1; destruct (f2 a) eqn:H2.
  - exfalso. exact (Hex a H1 H2).
  - cbn [app map]. apply NoDup_cons. split; assumption.
  - rewrite <- Permutation_middle. cbn [map]. apply NoDup_cons. split; assumption.
  - exact IH.
Qed.

Lemma selectCandidates_NoDup (cs : list StringCandidate) :
  NoDup (map cvalue cs) -> NoDup (map cvalue (selectCandidates cs)).
Proof.
  intros Hnd. unfold selectCandidates. cbv zeta.
  assert (Hp : NoDup (map cvalue (List.filter (fun c => num_gt (cprofit c) 0) cs))).
  { eapply sublist_NoDup; [exact Hnd|]. apply (fmap_sublist cvalue), List_filter_sublist. }
  destruct (7 <=? length (List.filter _ cs))%nat; [exact Hp|].
  destruct (7 <=? _ + _)%nat; [|exact Hp].
  apply NoDup_filters; [|exact Hnd].
  intros c H1 [H2 _]%andb_true_iff. destruct (cprofit c) as [|z]; [discriminate|].
  cbn in H1, H2. lia.
Qed.

Lemma decideStrings_NoDup (l : list StringCandidate) :
  NoDup (map cvalue l) -> NoDup (map svalue (decideStrings l)).
Proof.
  intros Hnd. destruct (decideStrings_perm l) as [-> | ->]; [constructor|].
  rewrite map_map. cbn [decisionOf svalue].
  eapply sublist_NoDup; [exact Hnd|]. apply (fmap_sublist cvalue).
  destruct (firstAccepted_split l) as (Hsplit & _). rewrite Hsplit at 3.
  apply sublist_app; [apply List_filter_sublist | reflexivity].
Qed.

(** X12: no string is hoisted twice: the keys of [stringUsage] are distinct,
    as the keys of a Map are, and so are the values of the decisions. *)
Theorem string_decisions_distinct (stringUsage : list (jsstring * StringUsageCollected)) :
  NoDup (map fst stringUsage) -> NoDup (map svalue (stringDecisionsOf stringUsage)).
Proof.
  intros Hnd. unfold stringDecisionsOf. cbv zeta.
  apply decideStrings_NoDup. rewrite sort_perm. apply selectCandidates_NoDup.
  eapply sublist_NoDup; [exact Hnd | apply values_sublist].
Qed.

Lemma string_decisions_distinct_seven :
  NoDup (map fst sevenStrings) /\ NoDup (map svalue (stringDecisionsOf sevenStrings)).
Proof.
  assert (H : NoDup (map fst sevenStrings)).
  { apply (bool_decide_eq_true_1 (NoDup (map fst sevenStrings))). vm_compute. reflexivity. }
  split; [exact H | exact (string_decisions_distinct sevenStrings H)].
Defined.

Lemma elem_of_decideLiteral (stringDecisions : list SelectiveStringHoistDecision)
    (otherLiterals : list LiteralInfo) (acc : list HoistDecision) (d : HoistDecision) :
  d ∈ fold_left (decideLiteral stringDecisions) otherLiterals acc ->
  d ∈ acc \/
  exists info first,
    info ∈ otherLiterals /\
    d = {| dvalue := lvalue info; dnodes := nodes info;
           doccurrences := len (nodes info);
           dprofit := calculateLiteralProfit (len (nodes info))
                        (getLiteralRepresentationLength (lvalue info)) 1 first |} /\
    (2 <= length (nodes info))%nat /\
    (isNumber (lvalue info) = true -> 2 < getLiteralRepresentationLength (lvalue info)) /\
    0 < dprofit d.
Proof.
  revert acc. induction otherLiterals as [|info l IH]; intros acc; cbn [fold_left].
  - intros H. left. exact H.
  - intros H. apply IH in H as [H | (i & first & Hi & Hrest)].
    + unfold decideLiteral in H.
      destruct (Nat.ltb_spec (length (nodes info)) 2); [left; exact H|].
      destruct (isNumber (lvalue info) && _) eqn:Hnum; [left; exact H|].
      cbv zeta in H. destruct (_ >? 0) eqn:Hgt; [|left; exact H].
      apply elem_of_app in H as [H | ->%list_elem_of_singleton]; [left; exact H|].
      right. eexists info, _. split; [left|]. split; [reflexivity|].
      split; [assumption|]. split.
      * intros Hn. rewrite Hn in Hnum. cbn in Hnum. apply Z.leb_gt in Hnum. lia.
      * cbn [dprofit]. apply Z.gtb_gt in Hgt. lia.
    + right. exists i, first. split; [right; exact Hi | exact Hrest].
Qed.

(** X13: a literal that is no string is hoisted only from two occurrences on,
    never when it is a number of at most two characters, and only when its
    occurrences outweigh its declarator and its references: with [n]
    occurrences of a text of [R] characters, [1 + 1 + 1 + R + n < n * R]. *)
Theorem literal_decisions_sound (stringDecisions : list SelectiveStringHoistDecision)
    (otherLiterals : list LiteralInfo) (d : HoistDecision) :
  d ∈ hoistDecisionsOf stringDecisions otherLiterals ->
  (exists info, info ∈ otherLiterals /\ dvalue d = lvalue info /\ dnodes d = nodes info) /\
  doccurrences d = len (dnodes d) /\
  2 <= doccurrences d /\
  (isNumber (dvalue d) = true -> 2 < getLiteralRepresentationLength (dvalue d)) /\
  0 < dprofit d /\
  1 + 1 + 1 + getLiteralRepresentationLength (dvalue d) + doccurrences d * 1
  < doccurrences d * getLiteralRepresentationLength (dvalue d).
Proof.
  unfold hoistDecisionsOf. rewrite elem_of_sort.
  intros [H | (info & first & Hinfo & -> & Hlen & Hnum & Hprofit)]%elem_of_decideLiteral;
    [inversion H|].
  cbn [dvalue dnodes doccurrences dprofit] in *.
  split; [exists info; repeat split; exact Hinfo|].
  split; [reflexivity|]. split; [unfold len; lia|]. split; [exact Hnum|].
  split; [exact Hprofit|].
  unfold calculateLiteralProfit, getDeclarationCost in Hprofit. cbv zeta in Hprofit.
  destruct first; lia.
Qed.

Lemma literal_decisions_sound_null :
  nullDecision ∈ hoistDecisionsOf [] nullLiterals /\
  (2 <= doccurrences nullDecision)%Z /\
  (0 < dprofit nullDecision)%Z /\
  (1 + 1 + 1 + getLiteralRepresentationLength (dvalue nullDecision)
   + doccurrences nullDecision * 1
   < doccurrences nullDecision * getLiteralRepresentationLength (dvalue nullDecision))%Z.
Proof.
  assert (H : nullDecision ∈ hoistDecisionsOf [] nullLiterals).
  { replace (hoistDecisionsOf [] nullLiterals) with [nullDecision] by (vm_compute; reflexivity).
    left. }
  split; [exact H|].
  destruct (literal_decisions_sound [] nullLiterals nullDecision H)
    as (_ & _ & H2 & _ & H4 & H5).
  repeat split; assumption.
Defined.

End StringDecisionFacts.

Section BindingFacts.
Import Ast ProfitCalculator HoistDuplicateLiterals.

Lemma decimal_go_value (fuel n : nat) (acc : jsstring) :
  n < fuel ->
  exists ds, decimal_go fuel n acc = ds ++ acc /\ digitsValue ds = n.
Proof.
  revert n acc. induction fuel as [|fuel IH]; intros n acc Hn; [lia|].
  cbn [decimal_go]. destruct (Nat.ltb_spec n 10) as [Hlt | Hge].
  - exists [N.of_nat (48 + n mod 10)]. split; [reflexivity|].
    unfold digitsValue. cbn [fold_left]. rewrite Nat.mod_small by exact Hlt. lia.
  - assert (Hdiv : n / 10 < fuel).
    { pose proof (Nat.div_lt n 10). lia. }
    destruct (IH (n / 10) (N.of_nat (48 + n mod 10) :: acc) Hdiv) as (ds & Heq & Hv).
    exists (ds ++ [N.of_nat (48 + n mod 10)]). split.
    + rewrite Heq, <- app_assoc. reflexivity.
    + unfold digitsValue in *. rewrite fold_left_app, Hv. cbn [fold_left].
      pose proof (Nat.div_mod_eq n 10). lia.
Qed.

Lemma digitsValue_String_of_nat (n : nat) : digitsValue (String_of_nat n) = n.
Proof.
  unfold String_of_nat. destruct (decimal_go_value (S n) n [] ltac:(lia)) as (ds & Heq & Hv).
  rewrite Heq, app_nil_r. exact Hv.
Qed.

#[local] Instance String_of_nat_inj : Inj eq eq String_of_nat.
Proof.
  intros i j H. rewrite <- (digitsValue_String_of_nat i), <- (digitsValue_String_of_nat j), H.
  reflexivity.
Qed.

#[local] Instance placeholderName_inj : Inj eq eq placeholderName.
Proof.
  intros i j H. unfold placeholderName in H.
  apply app_inv_head, app_inv_tail in H. apply String_of_nat_inj. exact H.
Qed.


#[local] Instance global_placeholderName_inj : Inj eq eq HoistGlobals.placeholderName.
Proof.
  intros i j H. unfold HoistGlobals.placeholderName in H.
  apply app_inv_head, app_inv_tail in H. apply String_of_nat_inj. exact H.
Qed.

(** X14: the placeholder names never collide: two numbers give two names in
    either pass, and no name of one pass is a name of the other. *)
Theorem placeholder_names_distinct (i j : nat) :
  (placeholderName i = placeholderName j <-> i = j) /\
  (HoistGlobals.placeholderName i = HoistGlobals.placeholderName j <-> i = j) /\
  placeholderName i <> HoistGlobals.placeholderName j.
Proof.
  split; [split; [apply placeholderName_inj | congruence]|].
  split; [split; [apply global_placeholderName_inj | congruence]|].
  unfold placeholderName, HoistGlobals.placeholderName. intros H.
  vm_compute in H. discriminate H.
Qed.

Lemma getUsage_Some (stringUsage : list (jsstring * StringUsageCollected))
    (value : jsstring) (usage : StringUsageCollected) :
  (value, usage) ∈ stringUsage -> getUsage stringUsage value <> None.
Proof.
  intros Hin. unfold getUsage.
  destruct (find _ stringUsage) as [e|] eqn:Hfind; [discriminate|].
  apply list_elem_of_In in Hin. pose proof (find_none _ _ Hfind _ Hin) as Hf.
  cbn in Hf. apply bool_decide_eq_false in Hf. congruence.
Qed.

Lemma stringBindings_number (stringUsage : list (jsstring * StringUsageCollected))
    (l : list SelectiveStringHoistDecision) (i : nat) :
  (forall d, d ∈ l -> getUsage stringUsage (svalue d) <> None) ->
  omap (fun b => b) (number (stringBinding stringUsage) l i) = number bindingOfString l i.
Proof.
  revert i. induction l as [|d l IH]; intros i Hall; [reflexivity|].
  cbn [number omap list_omap]. unfold stringBinding at 1.
  destruct (getUsage stringUsage (svalue d)) eqn:Hget.
  - f_equal. apply IH. intros d' Hd'. apply Hall. right. exact Hd'.
  - exfalso. apply (Hall d); [left | exact Hget].
Qed.

Lemma map_add_seq (a b n : nat) : map (fun j => a + j) (seq b n) = seq (a + b) n.
Proof.
  revert b. induction n as [|n IH]; intros b; [reflexivity|].
  cbn [seq map]. rewrite IH. f_equal. f_equal. lia.
Qed.

(** The bindings of the result, from the two sorted decision arrays. *)
Lemma hoistedLiteralBindings_eq (stringUsage : list (jsstring * StringUsageCollected))
    (otherLiterals : list LiteralInfo) :
  let stringDecisions := stringDecisionsOf stringUsage in
  hoistedLiteralBindings (hoistDuplicateLiterals stringUsage otherLiterals) =
    number bindingOfString stringDecisions 0
    ++ number (literalBinding (length stringDecisions))
         (hoistDecisionsOf stringDecisions otherLiterals) 0.
Proof.
  cbv zeta. unfold hoistDuplicateLiterals. cbv zeta. cbn [hoistedLiteralBindings].
  fold (hoistDecisionsOf (stringDecisionsOf stringUsage) otherLiterals).
  rewrite stringBindings_number; [reflexivity|].
  intros d (value & usage & c & Hin & Hc & ->)%elem_of_stringDecisionsOf.
  cbn [decisionOf svalue]. apply stringCandidate_spec in Hc as (-> & _).
  eapply getUsage_Some. exact Hin.
Qed.

Lemma bindings_names (sds : list SelectiveStringHoistDecision) (hds : list HoistDecision) :
  map bname (number bindingOfString sds 0 ++ number (literalBinding (length sds)) hds 0)
  = map placeholderName (seq 0 (length sds + length hds)).
Proof.
  rewrite map_app, !map_number. unfold bindingOfString, literalBinding. cbn [bname].
  rewrite (number_index placeholderName).
  rewrite (number_index (fun j => placeholderName (length sds + j))).
  rewrite seq_app, map_app. f_equal. cbn [Nat.add].
  rewrite <- (map_map (fun j => length sds + j) placeholderName). f_equal.
  rewrite map_add_seq. f_equal. lia.
Qed.

Lemma bindings_values (sds : list SelectiveStringHoistDecision) (hds : list HoistDecision) :
  map bvalue (number bindingOfString sds 0 ++ number (literalBinding (length sds)) hds 0)
  = map (fun d => StringLiteral (svalue d)) sds
    ++ map (fun d => createLiteralNode (dvalue d)) hds.
Proof.
  rewrite map_app, !map_number. unfold bindingOfString, literalBinding. cbn [bvalue].
  rewrite (number_const (fun d => StringLiteral (svalue d))).
  rewrite (number_const (fun d => createLiteralNode (dvalue d))). reflexivity.
Qed.

(** X15: the bindings the pass returns: one for each decision, the strings
    first, named [__niu_literal_0__], [__niu_literal_1__], ... in that order
    without a gap, so that no two bindings share a name; each carries the
    literal and the occurrences of its decision. *)
Theorem hoisted_bindings_listing (stringUsage : list (jsstring * StringUsageCollected))
    (otherLiterals : list LiteralInfo) :
  let stringDecisions := stringDecisionsOf stringUsage in
  let hoistDecisions := hoistDecisionsOf stringDecisions otherLiterals in
  let bindings := hoistedLiteralBindings (hoistDuplicateLiterals stringUsage otherLiterals) in
  map bname bindings = map placeholderName (seq 0 (length bindings)) /\
  NoDup (map bname bindings) /\
  map bvalue bindings =
    map (fun d => StringLiteral (svalue d)) stringDecisions
    ++ map (fun d => createLiteralNode (dvalue d)) hoistDecisions /\
  map boccurrences bindings = map soccurrences stringDecisions ++ map doccurrences hoistDecisions.
Proof.
  cbv zeta. rewrite hoistedLiteralBindings_eq. cbv zeta.
  set (sds := stringDecisionsOf stringUsage).
  set (hds := hoistDecisionsOf sds otherLiterals).
  split; [|split; [|split]].
  - rewrite bindings_names, length_app, !length_number. reflexivity.
  - rewrite bindings_names. apply (NoDup_fmap_2 placeholderName), NoDup_seq.
  - apply bindings_values.
  - rewrite map_app, !map_number. unfold bindingOfString, literalBinding.
    cbn [boccurrences].
    rewrite (number_const soccurrences), (number_const doccurrences). reflexivity.
Qed.

Lemma declaredIdentifiers_const (bs : list HoistedBinding) :
  declaredIdentifiers (VariableDeclaration (js "const") (map declarator bs)) =
    map (fun b => Identifier (bname b)) bs.
Proof.
  cbn [declaredIdentifiers]. induction bs as [|b bs IH]; [reflexivity|].
  cbn [map flat_map declarator id app]. rewrite IH. reflexivity.
Qed.

(** X16: the declarations put in front of the program declare every binding
    exactly once, the strings first: at most two statements, whose declared
    identifiers are the names of the string bindings followed by the names of
    the other bindings; without bindings nothing is declared. *)
Theorem emitDeclarations_declares (hoistedLiteralBindings : list HoistedBinding) :
  let stringBindings :=
    List.filter (fun b => isStringLiteral (bvalue b)) hoistedLiteralBindings in
  let otherBindings :=
    List.filter (fun b => negb (isStringLiteral (bvalue b))) hoistedLiteralBindings in
  flat_map declaredIdentifiers (emitDeclarations hoistedLiteralBindings) =
    map (fun b => Identifier (bname b)) (stringBindings ++ otherBindings) /\
  length (emitDeclarations hoistedLiteralBindings) <= 2 /\
  (hoistedLiteralBindings = [] <-> emitDeclarations hoistedLiteralBindings = []).
Proof.
  cbv zeta. unfold emitDeclarations.
  set (sb := List.filter (fun b => isStringLiteral (bvalue b)) hoistedLiteralBindings).
  set (ob := List.filter (fun b => negb (isStringLiteral (bvalue b))) hoistedLiteralBindings).
  assert (Hs : declaredIdentifiers (stringDeclaration sb) =
               map (fun b => Identifier (bname b)) sb).
  { rewrite stringDeclaration_cases.
    destruct (findDelimiter (values sb)); [|apply declaredIdentifiers_const].
    destruct (7 <=? length sb); [|apply declaredIdentifiers_const].
    cbn. rewrite app_nil_r. reflexivity. }
  destruct hoistedLiteralBindings as [|b bs] eqn:Hbs.
  - cbn. repeat split; try lia; reflexivity.
  - cbn [length Nat.ltb Nat.leb].
    assert (Hne : sb <> [] \/ ob <> []).
    { subst sb ob. cbn [List.filter]. destruct (isStringLiteral (bvalue b));
        [left | right]; discriminate. }
    rewrite map_app.
    destruct sb as [|s sb']; destruct ob as [|o ob']; cbn [length Nat.ltb Nat.leb app flat_map].
    + destruct Hne; congruence.
    + rewrite declaredIdentifiers_const, app_nil_r.
      repeat split; try lia; discriminate.
    + rewrite Hs, app_nil_r. cbn [map app]. rewrite app_nil_r.
      repeat split; try lia; discriminate.
    + rewrite Hs, declaredIdentifiers_const, app_nil_r.
      repeat split; try lia; discriminate.
Qed.

End BindingFacts.

(** ** hoistDuplicateLiterals: the split declaration *)

Section SplitFacts.
Import Ast HoistDuplicateLiterals.

Lemma splitFrom_piece (c : N) (v rest current : jsstring) :
  (c ∉ v) ->
  splitFrom [c] 0 (v ++ rest) current = splitFrom [c] 0 rest (current ++ v).
Proof.
  revert current. induction v as [|x v IH]; intros current Hc.
  - rewrite app_nil_r. reflexivity.
  - cbn [app splitFrom startsWith].
    assert (Hx : (c =? x)%N = false).
    { apply N.eqb_neq. intros ->. apply Hc. left. }
    rewrite Hx. cbn [andb]. rewrite IH.
    + rewrite <- app_assoc. reflexivity.
    + intros H. apply Hc. right. exact H.
Qed.

Lemma splitFrom_separator (c : N) (rest current : jsstring) :
  splitFrom [c] 0 (c :: rest) current = current :: splitFrom [c] 0 rest [].
Proof. cbn [splitFrom startsWith length Nat.sub]. rewrite N.eqb_refl. reflexivity. Qed.

Lemma split_join (c : N) (strings : list jsstring) :
  strings <> [] ->
  (forall s, s ∈ strings -> c ∉ s) ->
  String_split (join [c] strings) [c] = strings.
Proof.
  intros Hne Hfree. unfold String_split.
  induction strings as [|v vs IH]; [congruence|].
  destruct vs as [|v2 vs].
  - cbn [join]. rewrite <- (app_nil_r v) at 1. rewrite splitFrom_piece by (apply Hfree; left).
    reflexivity.
  - change (join [c] (v :: v2 :: vs)) with (v ++ [c] ++ join [c] (v2 :: vs)).
    rewrite splitFrom_piece by (apply Hfree; left). cbn [app].
    rewrite splitFrom_separator. f_equal. apply IH; [discriminate|].
    intros s Hs. apply Hfree. right. exact Hs.
Qed.

Lemma findDelimiter_free (strings : list jsstring) (d : jsstring) :
  findDelimiter strings = Some d ->
  exists c, d = [c] /\ forall s, s ∈ strings -> c ∉ s.
Proof.
  rewrite findDelimiter_delimiterSpec. unfold delimiterSpec.
  assert (Hocc : forall c, occursIn c strings = false -> forall s, s ∈ strings -> c ∉ s).
  { intros c Hc s Hs Hin. unfold occursIn in Hc.
    assert (existsb (fun s => existsb (N.eqb c) s) strings = true); [|congruence].
    apply existsb_exists. exists s. split; [apply list_elem_of_In; exact Hs|].
    apply existsb_exists. exists c. split; [apply list_elem_of_In; exact Hin|].
    apply N.eqb_refl. }
  destruct (find _ preferred) as [c|] eqn:H1.
  - intros [= <-]. exists c. split; [reflexivity|].
    apply find_some_elem in H1 as [_ Hf]. apply negb_true_iff in Hf. exact (Hocc c Hf).
  - destruct (find _ printableAscii) as [c|] eqn:H2; [|discriminate].
    intros [= <-]. exists c. split; [reflexivity|].
    apply find_some_elem in H2 as [_ Hf]. apply andb_true_iff in Hf as [_ Hf].
    apply negb_true_iff in Hf. exact (Hocc c Hf).
Qed.

(** X17: splitting the joined string at the delimiter gives the strings back:
    the delimiter findDelimiter answers occurs in none of them. *)
Theorem split_join_round_trip (strings : list jsstring) (delimiter : jsstring) :
  strings <> [] ->
  findDelimiter strings = Some delimiter ->
  String_split (join delimiter strings) delimiter = strings.
Proof.
  intros Hne (c & -> & Hfree)%findDelimiter_free. apply split_join; assumption.
Qed.

Lemma split_join_round_trip_seven :
  values (hoistedLiteralBindings (hoistDuplicateLiterals sevenStrings [])) <> [] /\
  findDelimiter (values (hoistedLiteralBindings (hoistDuplicateLiterals sevenStrings [])))
    = Some (js ",") /\
  String_split
    (join (js ",") (values (hoistedLiteralBindings (hoistDuplicateLiterals sevenStrings []))))
    (js ",")
  = values (hoistedLiteralBindings (hoistDuplicateLiterals sevenStrings [])).
Proof.
  assert (H1 : values (hoistedLiteralBindings (hoistDuplicateLiterals sevenStrings [])) <> []).
  { vm_compute. discriminate. }
  assert (H2 : findDelimiter
                 (values (hoistedLiteralBindings (hoistDuplicateLiterals sevenStrings [])))
               = Some (js ",")).
  { vm_compute. reflexivity. }
  split; [exact H1|]. split; [exact H2|].
  exact (split_join_round_trip _ _ H1 H2).
Defined.

Lemma boundStrings_const (bs : list HoistedBinding) :
  Forall (fun b => isStringLiteral (bvalue b) = true) bs ->
  boundStrings (VariableDeclaration (js "const") (map declarator bs)) =
    map (fun b => (Identifier (bname b), stringValue (bvalue b))) bs.
Proof.
  intros Hall.
  assert (Hgen : omap (fun d => match init d with
                                | Some (StringLiteral v) => Some (id d, v)
                                | _ => None
                                end) (map declarator bs)
                 = map (fun b => (Identifier (bname b), stringValue (bvalue b))) bs).
  { induction Hall as [|b bs Hb _ IH]; [reflexivity|].
    cbn [map omap list_omap declarator init id]. destruct (bvalue b); try discriminate Hb.
    cbn [stringValue]. rewrite IH. reflexivity. }
  rewrite <- Hgen. cbn [boundStrings]. destruct bs as [|b [|b2 bs]]; reflexivity.
Qed.

(** X18: whichever form the string declaration takes, it binds every name to
    its own string: the split form's array pattern receives, in order, the
    strings the const form would assign. *)
Theorem string_declaration_binds (stringBindings : list HoistedBinding) :
  stringBindings <> [] ->
  Forall (fun b => isStringLiteral (bvalue b) = true) stringBindings ->
  boundStrings (stringDeclaration stringBindings) =
    map (fun b => (Identifier (bname b), stringValue (bvalue b))) stringBindings.
Proof.
  intros Hne Hall. rewrite stringDeclaration_cases.
  destruct (findDelimiter (values stringBindings)) as [d|] eqn:Hd;
    [|apply boundStrings_const; exact Hall].
  destruct (7 <=? length stringBindings); [|apply boundStrings_const; exact Hall].
  cbn [boundStrings]. rewrite bool_decide_eq_true_2 by reflexivity.
  destruct (findDelimiter_free _ _ Hd) as (c & -> & Hfree).
  rewrite split_join; [| |exact Hfree].
  - unfold values. clear. induction stringBindings as [|b bs IH]; [reflexivity|].
    cbn [map zip zip_with]. rewrite <- IH. reflexivity.
  - unfold values. destruct stringBindings; [congruence | discriminate].
Qed.

Lemma string_declaration_binds_seven :
  hoistedLiteralBindings (hoistDuplicateLiterals sevenStrings []) <> [] /\
  Forall (fun b => isStringLiteral (bvalue b) = true)
         (hoistedLiteralBindings (hoistDuplicateLiterals sevenStrings [])) /\
  isSplitForm (stringDeclaration (hoistedLiteralBindings
                                    (hoistDuplicateLiterals sevenStrings []))) = true /\
  boundStrings (stringDeclaration (hoistedLiteralBindings
                                     (hoistDuplicateLiterals sevenStrings []))) =
    map (fun b => (Identifier (bname b), stringValue (bvalue b)))
        (hoistedLiteralBindings (hoistDuplicateLiterals sevenStrings [])).
Proof.
  assert (H1 : hoistedLiteralBindings (hoistDuplicateLiterals sevenStrings []) <> []).
  { vm_compute. discriminate. }
  assert (H2 : Forall (fun b => isStringLiteral (bvalue b) = true)
                 (hoistedLiteralBindings (hoistDuplicateLiterals sevenStrings []))).
  { vm_compute. repeat constructor. }
  split; [exact H1|]. split; [exact H2|]. split; [vm_compute; reflexivity|].
  exact (string_declaration_binds _ H1 H2).
Defined.

End SplitFacts.

(** ** The mangler: names, scopes and the renaming loop *)

Section NameLengthFacts.
Import MangleIdentifiers.

Lemma charAt_length (i : nat) : i < base -> length (charAt i) = 1.
Proof. intros Hlt. destruct (charAt_lt i Hlt) as (c & -> & _). reflexivity. Qed.

Lemma indexToName_length_step (index : nat) :
  length (indexToName index) =
    if (index <? base)%nat then 1 else S (length (indexToName (index / base - 1))).
Proof.
  destruct (Nat.ltb_spec index base) as [Hlt | Hge].
  - rewrite indexToName_small by exact Hlt. apply charAt_length, Hlt.
  - rewrite indexToName_step by exact Hge. rewrite length_app, charAt_length; [lia|].
    apply Nat.mod_upper_bound. unfold base. lia.
Qed.

Lemma indexToName_length_mono (i j : nat) :
  i <= j -> length (indexToName i) <= length (indexToName j).
Proof.
  revert i. induction j as [j IH] using lt_wf_ind. intros i Hij.
  rewrite (indexToName_length_step i), (indexToName_length_step j).
  destruct (Nat.ltb_spec i base) as [Hi | Hi]; destruct (Nat.ltb_spec j base) as [Hj | Hj];
    try lia.
  apply le_n_S, IH.
  - apply div_base_lt. exact Hj.
  - assert (i / base <= j / base) by (apply Nat.Div0.div_le_mono; exact Hij). lia.
Qed.

(** X19: the length of a generated name: [indexToName index] has at most [k]
    characters exactly when [index] is below [54 + 54^2 + ... + 54^k]; so the
    first 54 names have one character, the next 2916 two, and a larger index
    never gives a shorter name. *)
Theorem indexToName_length (k index : nat) :
  length (indexToName index) <= k <-> index < namesUpTo k.
Proof.
  revert index. induction k as [|k IH]; intros index.
  - cbn [namesUpTo]. rewrite indexToName_length_step.
    destruct (index <? base)%nat; lia.
  - cbn [namesUpTo]. rewrite indexToName_length_step.
    destruct (Nat.ltb_spec index base) as [Hlt | Hge].
    + split; [intros _ | lia]. unfold base in *. nia.
    + rewrite <- Nat.succ_le_mono, IH.
      assert (Hb : base <> 0) by (unfold base; lia).
      pose proof (Nat.div_mod_eq index base) as Hdm.
      pose proof (Nat.mod_upper_bound index base Hb) as Hmod.
      assert (Hq : 1 <= index / base).
      { apply Nat.div_le_lower_bound; lia. }
      split; intros H; nia.
Qed.

End NameLengthFacts.

Section MangleFacts.
Import MangleIdentifiers.

Lemma CHARS_identifierStart (c : N) :
  c ∈ CHARS -> HoistDuplicateLiterals.isIdentifierStart c = true.
Proof.
  intros Hc.
  assert (Hall : forallb HoistDuplicateLiterals.isIdentifierStart CHARS = true)
    by (vm_compute; reflexivity).
  rewrite forallb_forall in Hall. apply Hall, list_elem_of_In, Hc.
Qed.

Lemma indexToName_valid (index : nat) :
  HoistDuplicateLiterals.isValidIdentifier (indexToName index) = true.
Proof.
  destruct (indexToName_overCHARS index) as [Hne Hall].
  destruct (indexToName index) as [|c rest]; [congruence|].
  apply Forall_cons in Hall as [Hc Hrest]. cbn [HoistDuplicateLiterals.isValidIdentifier].
  rewrite (CHARS_identifierStart c Hc). cbn [andb]. apply forallb_forall.
  intros x Hx. unfold HoistDuplicateLiterals.isIdentifierPart.
  rewrite CHARS_identifierStart; [reflexivity|].
  rewrite list.Forall_forall in Hrest. apply Hrest, list_elem_of_In, Hx.
Qed.

(** Every name in the rename map came out of [next]: it is a generated name
    and no reserved word. *)
Lemma renameMap_set_values (P : jsstring -> Prop) (renameMap : RenameMap) (b : Binding)
    (n : jsstring) :
  P n -> Forall (fun entry => P (snd entry)) renameMap ->
  Forall (fun entry => P (snd entry)) (renameMap_set renameMap b n).
Proof.
  intros Hn. induction renameMap as [|[b0 n0] rm IH]; intros Hall; cbn [renameMap_set].
  - constructor; [exact Hn | constructor].
  - apply Forall_cons in Hall as [H0 Hall]. destruct (bid b0 =? bid b)%nat.
    + constructor; [exact Hn | exact Hall].
    + constructor; [exact H0 | apply IH, Hall].
Qed.

Lemma assign_values (P : jsstring -> Prop) (turns : list (BindingInfo * nat))
    (renameMap : RenameMap) :
  Forall (fun turn => P (indexToName (snd turn))) turns ->
  Forall (fun entry => P (snd entry)) renameMap ->
  Forall (fun entry => P (snd entry)) (fold_left assign turns renameMap).
Proof.
  revert renameMap. induction turns as [|turn turns IH]; intros renameMap Ht Hrm;
    [exact Hrm|].
  apply Forall_cons in Ht as [H0 Ht]. cbn [fold_left]. apply IH; [exact Ht|].
  unfold assign. apply renameMap_set_values; assumption.
Qed.

Lemma zip_indices (P : nat -> Prop) (bindings : list BindingInfo) (indices : list nat) :
  Forall P indices -> Forall (fun turn => P (snd turn)) (zip bindings indices).
Proof.
  intros Hall. apply list.Forall_forall. intros [info i] Hin.
  apply list_elem_of_lookup in Hin as (k & Hk).
  apply lookup_zip_with_Some in Hk as (a & i' & [= <- <-] & _ & Hi).
  rewrite list.Forall_forall in Hall. apply Hall. eapply list_elem_of_lookup_2, Hi.
Qed.

Lemma mangleScopes_values (P : jsstring -> Prop) (scopeInfos : list ScopeInfo)
    (renameMap renameMap' : RenameMap) :
  (forall i, (indexToName i ∉ RESERVED_WORDS) -> P (indexToName i)) ->
  Forall (fun entry => P (snd entry)) renameMap ->
  mangleScopes scopeInfos renameMap = Some renameMap' ->
  Forall (fun entry => P (snd entry)) renameMap'.
Proof.
  intros HP. revert renameMap. induction scopeInfos as [|si rest IH]; intros renameMap Hrm.
  - intros [= <-]. exact Hrm.
  - cbn [mangleScopes]. destruct (mangleScope renameMap si) as [rm1|] eqn:H1; [|discriminate].
    apply IH. unfold mangleScope in H1.
    destruct (assignNames_turns
                (getReservedNamesForScope (scope si) renameMap)
                (Ast.sort byReferences (sbindings si)) renameMap 0)
      as (indices & _ & _ & Hlegal & Heq).
    rewrite Heq in H1. injection H1 as <-. apply assign_values; [|exact Hrm].
    apply (zip_indices (fun i => P (indexToName i))).
    eapply Forall_impl; [exact Hlegal|]. intros i [Hi _]. apply HP, Hi.
Qed.

(** The pass always returns: its result, from the rename map of the scopes
    and the two renaming traversals. *)
Lemma mangleIdentifiers_result (input : MangleInput) :
  exists rm st pr,
    mangleScopes (fold_left collectScope (scopes input) []) [] = Some rm /\
    fold_left applyRename rm (names input, ∅) = (st, pr) /\
    mangleIdentifiers input =
      Some {| store := if (0 <? size pr)%nat
                       then fold_left (renamePlaceholder pr) (identifiers input) st
                       else st;
              renameMap := rm;
              placeholderRenames := pr |}.
Proof.
  destruct (mangleScopes_total (fold_left collectScope (scopes input) []) [])
    as (rm & Hrm & _); [intros e He; inversion He|].
  destruct (fold_left applyRename rm (names input, ∅)) as [st pr] eqn:Happly.
  exists rm, st, pr. split; [exact Hrm|]. split; [exact Happly|].
  unfold mangleIdentifiers. rewrite Hrm, Happly. reflexivity.
Qed.

(** X20: every name the mangler assigns is a legal identifier: it matches the
    identifier pattern and is none of the reserved words. *)
Theorem assigned_names_legal (input : MangleInput) :
  exists result,
    mangleIdentifiers input = Some result /\
    forall b n, (b, n) ∈ renameMap result ->
      (n ∉ RESERVED_WORDS) /\ HoistDuplicateLiterals.isValidIdentifier n = true.
Proof.
  destruct (mangleIdentifiers_result input) as (rm & st & pr & Hrm & _ & Hres).
  eexists. split; [exact Hres|]. cbn [renameMap]. intros b n Hin.
  pose proof (mangleScopes_values
    (fun n => (n ∉ RESERVED_WORDS) /\ HoistDuplicateLiterals.isValidIdentifier n = true)
    (fold_left collectScope (scopes input) []) [] rm) as Hall.
  specialize (Hall ltac:(intros i Hi; split; [exact Hi | apply indexToName_valid])
                   ltac:(constructor) Hrm).
  rewrite list.Forall_forall in Hall. exact (Hall (b, n) Hin).
Qed.



Lemma StronglySorted_lookup {A} (R : A -> A -> Prop) (l : list A) (k k' : nat) (x y : A) :
  StronglySorted R l -> l !! k = Some x -> l !! k' = Some y -> k < k' -> R x y.
Proof.
  intros Hs. revert k k'. induction Hs as [|a l Hs IH Ha]; intros k k' Hx Hy Hlt;
    [discriminate|].
  destruct k' as [|k']; [lia|]. destruct k as [|k].
  - injection Hx as <-. rewrite list.Forall_forall in Ha. apply Ha.
    eapply list_elem_of_lookup_2, Hy.
  - apply (IH k k'); [exact Hx | exact Hy | lia].
Qed.

Lemma ascendingFrom_lookup (n : nat) (l : list nat) (k k' i j : nat) :
  ascendingFrom n l -> l !! k = Some i -> l !! k' = Some j -> k < k' -> i < j.
Proof.
  revert n k k'. induction l as [|a l IH]; intros n k k' Hasc Hi Hj Hlt; [discriminate|].
  cbn in Hasc. destruct Hasc as [Ha Hasc]. destruct k' as [|k']; [lia|]. destruct k as [|k].
  - injection Hi as <-. apply ascendingFrom_bounds in Hasc as [Hall _].
    rewrite list.Forall_forall in Hall.
    specialize (Hall j ltac:(eapply list_elem_of_lookup_2, Hj)). lia.
  - apply (IH (S a) k k'); [exact Hasc | exact Hi | exact Hj | lia].
Qed.

Lemma lastAssigned_unique (turns : list (BindingInfo * nat)) (k : nat)
    (info : BindingInfo) (i : nat) :
  NoDup (map (fun turn => bid (binding (fst turn))) turns) ->
  turns !! k = Some (info, i) ->
  lastAssigned (binding info) turns = Some (indexToName i).
Proof.
  revert k. induction turns as [|[info0 i0] turns IH]; intros k Hnd Hk; [discriminate|].
  cbn [map fst] in Hnd. apply NoDup_cons in Hnd as [Hnot Hnd]. cbn [lastAssigned].
  destruct k as [|k].
  - injection Hk as <- <-.
    destruct (lastAssigned (binding info0) turns) as [n|] eqn:Hl.
    + exfalso. apply lastAssigned_some in Hl as (info' & i' & Hin & Hbid & _).
      apply Hnot. apply list_elem_of_fmap. exists (info', i'). split; [symmetry; exact Hbid|].
      exact Hin.
    + rewrite Nat.eqb_refl. reflexivity.
  - rewrite (IH k Hnd Hk). reflexivity.
Qed.

(** X22: within a scope, a binding with more references never gets a longer
    name than one with fewer: the bindings take their names in the order of
    the sort, and the names come out in order of length. *)
Theorem more_references_shorter_name (renameMap : RenameMap) (scopeInfo : ScopeInfo) :
  NoDup (map (fun info => bid (binding info)) (sbindings scopeInfo)) ->
  exists renameMap',
    mangleScope renameMap scopeInfo = Some renameMap' /\
    forall a b, a ∈ sbindings scopeInfo -> b ∈ sbindings scopeInfo ->
      (references b < references a)%Z ->
      exists na nb,
        renameMap_get renameMap' (binding a) = Some na /\
        renameMap_get renameMap' (binding b) = Some nb /\
        length na <= length nb.
Proof.
  intros Hnd. unfold mangleScope.
  set (sorted := Ast.sort byReferences (sbindings scopeInfo)).
  destruct (assignNames_turns
              (getReservedNamesForScope (scope scopeInfo) renameMap)
              sorted renameMap 0)
    as (indices & Hlen & Hasc & _ & Heq).
  eexists. split; [exact Heq|]. intros a b Ha Hb Hrefs.
  assert (Hsorted : StronglySorted (fun x y => (references y <= references x)%Z) sorted).
  { apply (sort_descending references). }
  assert (Hnd' : NoDup (map (fun turn => bid (binding (fst turn))) (zip sorted indices))).
  { rewrite <- (map_map fst (fun info => bid (binding info))).
    change (map fst (zip sorted indices)) with (fst <$> zip sorted indices).
    rewrite fst_zip by lia. unfold sorted. rewrite sort_perm. exact Hnd. }
  apply (elem_of_sort byReferences) in Ha, Hb. fold sorted in Ha, Hb.
  apply list_elem_of_lookup in Ha as (ka & Hka). apply list_elem_of_lookup in Hb as (kb & Hkb).
  destruct (lookup_lt_is_Some_2 indices ka) as (ia & Hia).
  { rewrite Hlen. eapply lookup_lt_Some, Hka. }
  destruct (lookup_lt_is_Some_2 indices kb) as (ib & Hib).
  { rewrite Hlen. eapply lookup_lt_Some, Hkb. }
  assert (Hta : zip sorted indices !! ka = Some (a, ia)).
  { apply lookup_zip_with_Some. exists a, ia. repeat split; assumption. }
  assert (Htb : zip sorted indices !! kb = Some (b, ib)).
  { apply lookup_zip_with_Some. exists b, ib. repeat split; assumption. }
  exists (indexToName ia), (indexToName ib).
  rewrite !renameMap_get_assign.
  rewrite (lastAssigned_unique _ _ _ _ Hnd' Hta), (lastAssigned_unique _ _ _ _ Hnd' Htb).
  split; [reflexivity|]. split; [reflexivity|].
  apply indexToName_length_mono.
  destruct (Nat.lt_trichotomy ka kb) as [Hlt | [Heqk | Hgt]].
  - pose proof (ascendingFrom_lookup _ _ _ _ _ _ Hasc Hia Hib Hlt). lia.
  - subst kb. rewrite Hka in Hkb. injection Hkb as <-. lia.
  - pose proof (StronglySorted_lookup _ _ _ _ _ _ Hsorted Hkb Hka Hgt) as Hle.
    cbn in Hle. lia.
Qed.

Lemma more_references_shorter_name_frequency :
  NoDup (map (fun info => bid (binding info))
             (sbindings {| scope := mkScope 0 [(js "Q", bindingQ); (js "P", bindingP)] None;
                           sbindings := [bindingInfo (js "Q", bindingQ);
                                         bindingInfo (js "P", bindingP)] |})) /\
  exists renameMap',
    mangleScope []
      {| scope := mkScope 0 [(js "Q", bindingQ); (js "P", bindingP)] None;
         sbindings := [bindingInfo (js "Q", bindingQ); bindingInfo (js "P", bindingP)] |}
    = Some renameMap' /\
    exists na nb,
      renameMap_get renameMap' bindingP = Some na /\
      renameMap_get renameMap' bindingQ = Some nb /\
      length na <= length nb.
Proof.
  assert (Hnd : NoDup (map (fun info => bid (binding info))
             (sbindings {| scope := mkScope 0 [(js "Q", bindingQ); (js "P", bindingP)] None;
                           sbindings := [bindingInfo (js "Q", bindingQ);
                                         bindingInfo (js "P", bindingP)] |}))).
  { cbn. apply NoDup_cons. split; [|apply NoDup_singleton].
    intros H%list_elem_of_singleton. discriminate H. }
  split; [exact Hnd|].
  destruct (more_references_shorter_name [] _ Hnd) as (rm' & Hrm & Hall).
  exists rm'. split; [exact Hrm|].
  apply (Hall (bindingInfo (js "P", bindingP)) (bindingInfo (js "Q", bindingQ))).
  - right. left.
  - left.
  - vm_compute. reflexivity.
Defined.

Lemma applyRenames_keys_prefix (l : RenameMap) (state : Store * gmap jsstring jsstring) :
  (forall k, is_Some (snd state !! k) -> startsWith PLACEHOLDER_PREFIX k = true) ->
  forall k, is_Some (snd (fold_left applyRename l state) !! k) ->
            startsWith PLACEHOLDER_PREFIX k = true.
Proof.
  revert state. induction l as [|[b n] l IH]; intros [st pr] Hkeys; [exact Hkeys|].
  cbn [fold_left]. apply IH.
  destruct (applyRename (st, pr) (b, n)) as [st' pr'] eqn:Happly.
  pose proof (applyRename_map st pr b n) as Hmap. rewrite Happly in Hmap. cbn [snd] in *.
  rewrite Hmap. intros k Hk.
  destruct (startsWith PLACEHOLDER_PREFIX (st (identifier b))) eqn:Hp; [|apply Hkeys, Hk].
  apply lookup_insert_is_Some' in Hk as [<- | Hk]; [exact Hp | apply Hkeys, Hk].
Qed.

Lemma renamePlaceholders_unchanged (pr : gmap jsstring jsstring) (refs : list nat)
    (store : Store) (ref : nat) :
  pr !! store ref = None ->
  fold_left (renamePlaceholder pr) refs store ref = store ref.
Proof.
  revert store. induction refs as [|r refs IH]; intros store Hnone; [reflexivity|].
  cbn [fold_left].
  assert (Hsame : renamePlaceholder pr store r ref = store ref).
  { unfold renamePlaceholder. destruct (pr !! store r) as [newName|] eqn:Hr; [|reflexivity].
    unfold setName. destruct (Nat.eqb_spec ref r) as [-> | Hne]; [congruence | reflexivity]. }
  rewrite IH; [exact Hsame | rewrite Hsame; exact Hnone].
Qed.

(** The store the pass returns agrees with the store after the renaming loop
    on every node whose name there does not begin with [__niu_]. *)
Lemma sweep_unchanged (input : MangleInput) (rm : RenameMap) (st : Store)
    (pr : gmap jsstring jsstring) (ref : nat) :
  fold_left applyRename rm (names input, ∅) = (st, pr) ->
  startsWith PLACEHOLDER_PREFIX (st ref) = false ->
  (if (0 <? size pr)%nat
   then fold_left (renamePlaceholder pr) (identifiers input) st
   else st) ref = st ref.
Proof.
  intros Happly Hprefix. destruct (0 <? size pr)%nat; [|reflexivity].
  apply renamePlaceholders_unchanged.
  destruct (pr !! st ref) as [v|] eqn:Hlook; [|reflexivity]. exfalso.
  pose proof (applyRenames_keys_prefix rm (names input, ∅)) as Hkeys.
  rewrite Happly in Hkeys. cbn [snd] in Hkeys.
  rewrite (Hkeys ltac:(intros k [x Hx]; rewrite lookup_empty in Hx; discriminate)
                 (st ref) ltac:(eexists; exact Hlook)) in Hprefix.
  discriminate.
Qed.

(** X23: an Identifier that is no declaration, read or write of a renamed
    binding, such as a free global or a property name, keeps its name, unless
    that name begins with [__niu_]. *)
Theorem unbound_identifiers_keep_names (input : MangleInput) :
  exists result,
    mangleIdentifiers input = Some result /\
    forall ref,
      (forall b n, (b, n) ∈ renameMap result -> ref ∉ written b) ->
      startsWith PLACEHOLDER_PREFIX (names input ref) = false ->
      store result ref = names input ref.
Proof.
  destruct (mangleIdentifiers_result input) as (rm & st & pr & Hrm & Happly & Hres).
  eexists. split; [exact Hres|]. cbn [renameMap store]. intros ref Hfree Hprefix.
  assert (Hst : st ref = names input ref).
  { pose proof (applyRenames_untouched rm (names input, ∅) ref) as H.
    rewrite Happly in H. apply H. intros [b n] Hin. exact (Hfree b n Hin). }
  rewrite (sweep_unchanged input rm st pr ref Happly); [exact Hst|].
  rewrite Hst. exact Hprefix.
Qed.



Lemma renameMap_set_keys (renameMap : RenameMap) (b b' : Binding) (n n' : jsstring) :
  (b', n') ∈ renameMap_set renameMap b n ->
  (exists n0, (b', n0) ∈ renameMap) \/ b' = b.
Proof.
  induction renameMap as [|[b0 n0] rm IH]; cbn [renameMap_set].
  - intros [= -> ->]%list_elem_of_singleton. right. reflexivity.
  - destruct (bid b0 =? bid b)%nat.
    + intros [[= -> ->] | Hin]%elem_of_cons.
      * left. exists n0. left.
      * left. exists n'. right. exact Hin.
    + intros [[= -> ->] | Hin]%elem_of_cons.
      * left. exists n0. left.
      * destruct (IH Hin) as [(n1 & Hn1) | ->]; [|right; reflexivity].
        left. exists n1. right. exact Hn1.
Qed.

Lemma assign_keys (turns : list (BindingInfo * nat)) (renameMap : RenameMap)
    (b : Binding) (n : jsstring) :
  (b, n) ∈ fold_left assign turns renameMap ->
  (exists n0, (b, n0) ∈ renameMap) \/ exists turn, turn ∈ turns /\ b = binding (fst turn).
Proof.
  revert renameMap. induction turns as [|turn turns IH]; intros renameMap; cbn [fold_left].
  - intros H. left. exists n. exact H.
  - intros H. apply IH in H as [(n0 & Hn0) | (t & Ht & Hb)].
    + unfold assign in Hn0. apply renameMap_set_keys in Hn0 as [Hold | ->].
      * left. exact Hold.
      * right. exists turn. split; [left | reflexivity].
    + right. exists t. split; [right; exact Ht | exact Hb].
Qed.

Lemma mangleScopes_keys (scopeInfos : list ScopeInfo) (renameMap renameMap' : RenameMap)
    (b : Binding) (n : jsstring) :
  mangleScopes scopeInfos renameMap = Some renameMap' ->
  (b, n) ∈ renameMap' ->
  (exists n0, (b, n0) ∈ renameMap) \/
  exists si info, si ∈ scopeInfos /\ info ∈ sbindings si /\ b = binding info.
Proof.
  revert renameMap. induction scopeInfos as [|si rest IH]; intros renameMap.
  - intros [= <-] Hin. left. exists n. exact Hin.
  - cbn [mangleScopes]. destruct (mangleScope renameMap si) as [rm1|] eqn:H1; [|discriminate].
    intros Hrest Hin. destruct (IH _ Hrest Hin) as [(n0 & Hn0) | (si' & info & Hsi & Hinfo & Hb)].
    + unfold mangleScope in H1.
      destruct (assignNames_turns
                  (getReservedNamesForScope (scope si) renameMap)
                  (Ast.sort byReferences (sbindings si)) renameMap 0)
        as (indices & _ & _ & _ & Heq).
      rewrite Heq in H1. injection H1 as <-.
      apply assign_keys in Hn0 as [Hold | ([info i] & Hturn & ->)]; [left; exact Hold|].
      right. exists si, info. split; [left|]. split; [|reflexivity].
      apply list_elem_of_lookup in Hturn as (k & Hk).
      apply lookup_zip_with_Some in Hk as (a & i' & [= <- <-] & Ha & _).
      apply (elem_of_sort byReferences). eapply list_elem_of_lookup_2, Ha.
    + right. exists si', info. split; [right; exact Hsi|]. split; assumption.
Qed.

Lemma elem_of_collectScopes (l : list Scope) (scopeInfos : list ScopeInfo) (si : ScopeInfo) :
  si ∈ fold_left collectScope l scopeInfos ->
  si ∈ scopeInfos \/
  exists s, s ∈ l /\
    forall info, info ∈ sbindings si ->
      exists entry, entry ∈ bindings s /\ bscope (snd entry) = uid s /\
                    info = bindingInfo entry.
Proof.
  revert scopeInfos. induction l as [|s l IH]; intros scopeInfos; cbn [fold_left].
  - intros H. left. exact H.
  - intros H. apply IH in H as [H | (s' & Hs' & Hall)].
    + unfold collectScope in H. cbv zeta in H.
      destruct (0 <? length _)%nat; [|left; exact H].
      apply elem_of_app in H as [H | ->%list_elem_of_singleton]; [left; exact H|].
      right. exists s. split; [left|]. cbn [sbindings].
      intros info (entry & -> & Hentry)%list_elem_of_fmap.
      apply elem_of_List_filter in Hentry as [Hentry Hown]. apply Nat.eqb_eq in Hown.
      exists entry. repeat split; assumption.
    + right. exists s'. split; [right; exact Hs' | exact Hall].
Qed.

(** X25: the mangler renames nothing but the bindings it collected: every key
    of the rename map is a binding that a traversed scope holds as its own. *)
Theorem renamed_only_collected (input : MangleInput) :
  exists result,
    mangleIdentifiers input = Some result /\
    forall b n, (b, n) ∈ renameMap result -> collected input b.
Proof.
  destruct (mangleIdentifiers_result input) as (rm & st & pr & Hrm & _ & Hres).
  eexists. split; [exact Hres|]. cbn [renameMap]. intros b n Hin.
  destruct (mangleScopes_keys _ _ _ _ _ Hrm Hin) as [(n0 & Hn0) | (si & info & Hsi & Hinfo & ->)];
    [inversion Hn0|].
  apply elem_of_collectScopes in Hsi as [Hsi | (s & Hs & Hall)]; [inversion Hsi|].
  destruct (Hall info Hinfo) as (entry & Hentry & Hown & ->).
  exists s, entry. repeat split; assumption.
Qed.

End MangleFacts.

(** ** hoistDuplicateLiterals: the collecting traversal *)

Section CollectFacts.
Import Ast ProfitCalculator HoistDuplicateLiterals.





























End CollectFacts.

(** ** The keyword overhead, and the order of the generated names *)

Section OverheadFacts.
Import Ast ProfitCalculator HoistDuplicateLiterals.
Local Open Scope Z_scope.

Lemma filters_length {A} (f1 f2 : A -> bool) (l : list A) :
  (forall x, f1 x = true -> f2 x = true -> False) ->
  (length (List.filter f1 l) + length (List.filter f2 l) <= length l)%nat.
Proof.
  intros Hex. induction l as [|a l IH]; [reflexivity|]. cbn [List.filter].
  destruct (f1 a) eqn:H1; destruct (f2 a) eqn:H2; cbn [length]; try lia.
  exfalso. exact (Hex a H1 H2).
Qed.

Lemma selectCandidates_few (cs : list StringCandidate) :
  (length cs < 7)%nat ->
  selectCandidates cs = List.filter (fun c => num_gt (cprofit c) 0) cs.
Proof.
  intros Hlen. unfold selectCandidates. cbv zeta.
  pose proof (filters_length (fun c => num_gt (cprofit c) 0)
                (fun c => num_le (cprofit c) 0 && num_gt (cprofit c) (-2)) cs) as Hsum.
  specialize (Hsum ltac:(intros c H1 H2; cbn beta in H1, H2;
    apply andb_true_iff in H2 as [H2 _];
    destruct (cprofit c); [discriminate | cbn in H1, H2; lia])).
  destruct (Nat.leb_spec 7 (length (List.filter (fun c => num_gt (cprofit c) 0) cs)));
    [reflexivity|].
  destruct (Nat.leb_spec 7 (length (List.filter (fun c => num_gt (cprofit c) 0) cs)
                            + length (List.filter
                                (fun c => num_le (cprofit c) 0 && num_gt (cprofit c) (-2))
                                cs))); [lia | reflexivity].
Qed.

Lemma sumZ_positive {A} (f : A -> Z) (l : list A) :
  Forall (fun a => 0 < f a) l -> 0 <= sumZ f l.
Proof. induction 1 as [|a l Ha _ IH]; cbn [sumZ]; lia. Qed.

Lemma decideStrings_recoups (l : list StringCandidate) :
  Forall (fun c => num_gt (cprofit c) 0 = true) l ->
  decideStrings l <> [] ->
  Forall (fun d => 0 < profitOf d) (decideStrings l) /\ 5 < sumZ profitOf (decideStrings l).
Proof.
  intros Hall Hne. destruct (decideStrings_perm l) as [Hnil | Hperm]; [contradiction|].
  destruct (firstAccepted_split l) as (Hsplit & _ & Hfirst).
  assert (Hpos : forall c, c ∈ l -> 0 < profitOf (decisionOf c)).
  { intros c Hc. rewrite list.Forall_forall in Hall. specialize (Hall c Hc).
    unfold profitOf, decisionOf. cbn [sprofit]. unfold cprofit in Hall.
    destruct (ProfitCalculator.profit (selectiveResult c)); [discriminate|].
    cbn in Hall. lia. }
  assert (Htried : forall c, c ∈ List.filter profitableAlone (fst (firstAccepted l)) -> c ∈ l).
  { intros c [Hc _]%elem_of_List_filter. rewrite Hsplit. apply elem_of_app. left. exact Hc. }
  assert (Hacc : forall c, c ∈ snd (firstAccepted l) -> c ∈ l).
  { intros c Hc. rewrite Hsplit. apply elem_of_app. right. exact Hc. }
  split.
  - rewrite Hperm. apply list.Forall_forall. intros d (c & -> & Hc)%list_elem_of_fmap.
    apply Hpos. apply elem_of_app in Hc as [Hc | Hc]; [exact (Htried c Hc) | exact (Hacc c Hc)].
  - rewrite (sumZ_perm _ _ _ Hperm), sumZ_map, sumZ_app.
    destruct (snd (firstAccepted l)) as [|first accepted] eqn:Hsnd.
    + exfalso. apply Hne. unfold decideStrings. rewrite firstSlot_before, Hsnd. reflexivity.
    + cbn [sumZ].
      assert (H1 : 0 <= sumZ (fun c => profitOf (decisionOf c))
                          (List.filter profitableAlone (fst (firstAccepted l)))).
      { apply sumZ_positive, list.Forall_forall. intros c Hc. exact (Hpos c (Htried c Hc)). }
      assert (H2 : 0 <= sumZ (fun c => profitOf (decisionOf c)) accepted).
      { apply sumZ_positive, list.Forall_forall. intros c Hc. apply Hpos, Hacc. right. exact Hc. }
      assert (H3 : 5 < profitOf (decisionOf first)).
      { unfold recoupsOverhead, FIRST_DECL_OVERHEAD, cprofit in Hfirst.
        unfold profitOf, decisionOf. cbn [sprofit].
        destruct (ProfitCalculator.profit (selectiveResult first)); [discriminate|].
        cbn in Hfirst. lia. }
      lia.
Qed.

(** X29: with fewer than seven string candidates only strings of positive
    profit are selected, and whenever a string is hoisted then every decision
    has a positive profit and together they recoup the overhead of the
    keyword: the profits, each computed as a later declarator, add up to more
    than 5. *)
Theorem keyword_overhead_recouped (stringUsage : list (jsstring * StringUsageCollected)) :
  (length (omap stringCandidate stringUsage) < 7)%nat ->
  stringDecisionsOf stringUsage <> [] ->
  Forall (fun d => 0 < profitOf d) (stringDecisionsOf stringUsage) /\
  5 < sumZ profitOf (stringDecisionsOf stringUsage).
Proof.
  intros Hfew Hne. unfold stringDecisionsOf in *. cbv zeta in *.
  apply decideStrings_recoups; [|exact Hne].
  apply list.Forall_forall. intros c Hc. rewrite elem_of_sort in Hc.
  rewrite selectCandidates_few in Hc by exact Hfew.
  apply elem_of_List_filter in Hc as [_ Hc]. exact Hc.
Qed.

Lemma keyword_overhead_recouped_abc :
  (length (omap stringCandidate abcUsage) < 7)%nat /\
  stringDecisionsOf abcUsage <> [] /\
  5 < sumZ profitOf (stringDecisionsOf abcUsage).
Proof.
  assert (H1 : (length (omap stringCandidate abcUsage) < 7)%nat).
  { vm_compute. lia. }
  assert (H2 : stringDecisionsOf abcUsage <> []).
  { vm_compute. discriminate. }
  split; [exact H1|]. split; [exact H2|].
  exact (proj2 (keyword_overhead_recouped abcUsage H1 H2)).
Defined.

End OverheadFacts.

Section GeneratorOrder.
Import MangleIdentifiers.

Lemma next_skips (fuel : nat) (reserved : gset jsstring) (index : nat)
    (name : jsstring) (index' : nat) :
  next fuel reserved index = Some (name, index') ->
  forall k, index <= k -> k < index' - 1 -> indexToName k ∈ RESERVED_WORDS ∪ reserved.
Proof.
  revert index. induction fuel as [|fuel IH]; intros index; [discriminate|].
  cbn [next].
  destruct (has RESERVED_WORDS (indexToName index) || has reserved (indexToName index))
    eqn:Hb.
  - intros Hnext k Hk Hlt. destruct (Nat.eq_dec k index) as [-> | Hne].
    + apply elem_of_union. apply orb_true_iff in Hb as [Hb | Hb]; [left | right];
        apply has_true; exact Hb.
    + apply (IH (S index) Hnext); lia.
  - intros [= <- <-] k Hk Hlt. lia.
Qed.

(** X30: [nextName()] always returns, and it returns the name of the first
    index from the current one on whose name is neither a reserved word nor
    reserved for the scope: every index it passes over names a reserved word
    or a reserved name, and the index handed on is the one behind the name
    returned. *)
Theorem next_first_free (reserved : gset jsstring) (index : nat) :
  exists name index',
    next (nextFuel reserved) reserved index = Some (name, index') /\
    index < index' /\
    name = indexToName (index' - 1) /\
    (name ∉ RESERVED_WORDS) /\ (name ∉ reserved) /\
    forall k, index <= k -> k < index' - 1 -> indexToName k ∈ RESERVED_WORDS ∪ reserved.
Proof.
  destruct (next_total reserved index) as (name & index' & Hnext).
  exists name, index'. split; [exact Hnext|].
  destruct (next_some _ _ _ _ _ Hnext) as (Hlt & Hname & Hword & Hres).
  repeat split; try assumption. exact (next_skips _ _ _ _ _ Hnext).
Qed.

End GeneratorOrder.
